(** * A shallow embedding of gateway.py (RSS feed to WordPress publisher)

    The development follows the source file top to bottom.  Python strings are
    sequences of Unicode code points, the [re] and [html] library functions that
    the program calls are modelled as executable functions, and the methods of
    [WordPressRSSPublisher] are written in a small state-and-exception monad
    whose state is the [published_items] table together with the history of
    everything the process did to the outside world (SQL statements, HTTP
    requests, the feed fetch, log lines).  What the outside world answers is
    given by a [World] of oracles reading that history. *)

From Stdlib Require Import Ascii String.
From Stdlib Require Import NArith ZArith Bool Lia List.
Import ListNotations.
Local Open Scope N_scope.
Local Open Scope list_scope.
Set Warnings "-register-all".

(** ** Strings *)

(** A Python [str]: a list of code points. *)
Definition char := N.
Definition str := list char.

(** The code points of an ASCII literal. *)
Definition lit (s : String.string) : str :=
  map N_of_ascii (list_ascii_of_string s).
Arguments lit s%_string.

(** The double-quote character, which a literal cannot hold. *)
Definition dq : char := 34.

Fixpoint str_eqb (a b : str) : bool :=
  match a, b with
  | [], [] => true
  | x :: a', y :: b' => (x =? y) && str_eqb a' b'
  | _, _ => false
  end.

Definition in_range (lo hi c : char) : bool := (lo <=? c) && (c <=? hi).
Definition one_of (s : String.string) (c : char) : bool := existsb (N.eqb c) (lit s).
Arguments one_of s%_string c.

Definition is_digit (c : char) : bool := in_range 48 57 c.
Definition is_hexdigit (c : char) : bool :=
  is_digit c || in_range 97 102 c || in_range 65 70 c.
Definition ascii_alpha (c : char) : bool := in_range 65 90 c || in_range 97 122 c.

(** [str.isspace] of one character: the Unicode white space characters. *)
Definition isspace (c : char) : bool :=
  in_range 0x9 0xd c || in_range 0x1c 0x20 c || (c =? 0x85) || (c =? 0xa0)
  || (c =? 0x1680) || in_range 0x2000 0x200a c || (c =? 0x2028) || (c =? 0x2029)
  || (c =? 0x202f) || (c =? 0x205f) || (c =? 0x3000).

(** [s.rstrip(x)] for a single character [x]. *)
Fixpoint rstrip_char (x : char) (s : str) : str :=
  match s with
  | [] => []
  | c :: s' =>
      match rstrip_char x s' with
      | [] => if c =? x then [] else [c]
      | t => c :: t
      end
  end.

(** [sep.join(l)]. *)
Fixpoint join (sep : str) (l : list str) : str :=
  match l with
  | [] => []
  | x :: l' =>
      match l' with
      | [] => x
      | _ :: _ => x ++ sep ++ join sep l'
      end
  end.

(** [s.split()]: the maximal runs of characters that are not white space. *)
Fixpoint split_from (cur : str) (s : str) : list str :=
  match s with
  | [] => match cur with [] => [] | _ :: _ => [cur] end
  | c :: s' =>
      if isspace c then
        match cur with
        | [] => split_from [] s'
        | _ :: _ => cur :: split_from [] s'
        end
      else split_from (cur ++ [c]) s'
  end.
Definition split (s : str) : list str := split_from [] s.

(** An f-string field holding a value that may be [None]. *)
Definition fmt (o : option str) : str :=
  match o with Some s => s | None => lit "None" end.

(** [d.get(key, default)] once the lookup is done, and [a or b] on strings. *)
Definition get_default (o : option str) (d : str) : str :=
  match o with Some s => s | None => d end.
Definition py_or (a b : str) : str :=
  match a with [] => b | _ :: _ => a end.

(** The length of the longest prefix of [s] in the class [p], and the same with
    at most [n] characters. *)
Fixpoint span (p : char -> bool) (s : str) : nat :=
  match s with
  | c :: s' => if p c then S (span p s') else O
  | [] => O
  end.
Fixpoint span_upto (n : nat) (p : char -> bool) (s : str) : nat :=
  match n, s with
  | S n', c :: s' => if p c then S (span_upto n' p s') else O
  | _, _ => O
  end.

(** ** [str.encode] *)

(** [str.encode()]: the UTF-8 bytes of a string, or [None] where Python
    raises [UnicodeEncodeError] (a surrogate code point). *)
Definition utf8_char (c : char) : option (list N) :=
  if c <? 0x80 then Some [c]
  else if c <? 0x800 then Some [0xC0 + c / 64; 0x80 + c mod 64]
  else if c <? 0x10000 then
    if in_range 0xD800 0xDFFF c then None
    else Some [0xE0 + c / 4096; 0x80 + (c / 64) mod 64; 0x80 + c mod 64]
  else if c <? 0x110000 then
    Some [0xF0 + c / 262144; 0x80 + (c / 4096) mod 64; 0x80 + (c / 64) mod 64;
          0x80 + c mod 64]
  else None.

Fixpoint utf8_encode (s : str) : option (list N) :=
  match s with
  | [] => Some []
  | c :: s' =>
      match utf8_char c, utf8_encode s' with
      | Some b, Some bs => Some (b ++ bs)
      | _, _ => None
      end
  end.

(** ** [re.sub]

    [pattern.sub(repl, s)] scans [s] from the left.  [m] gives, for the text
    that starts at the current position, the length of the match the pattern
    finds there; a match is replaced by [repl] of the matched text and the scan
    resumes after it; with no match the character is copied.  [skip] counts the
    characters of a match still to be passed over.  None of the three patterns of
    this program matches the empty string, so an empty match is handled as no
    match. *)
Fixpoint sub_scan (m : str -> option nat) (repl : str -> str) (skip : nat) (s : str)
    : str :=
  match s with
  | [] => []
  | c :: s' =>
      match skip with
      | S k => sub_scan m repl k s'
      | O =>
          match m s with
          | Some (S k) => repl (firstn (S k) s) ++ sub_scan m repl k s'
          | _ => c :: sub_scan m repl 0 s'
          end
      end
  end.
Definition re_sub (m : str -> option nat) (repl : str -> str) (s : str) : str :=
  sub_scan m repl 0 s.

(** The same scan with a replacement function that may raise: [None] stands
    for the exception, which ends the scan at the first match whose
    replacement raises. *)
Fixpoint sub_scan_try (m : str -> option nat) (repl : str -> option str) (skip : nat)
    (s : str) : option str :=
  match s with
  | [] => Some []
  | c :: s' =>
      match skip with
      | S k => sub_scan_try m repl k s'
      | O =>
          match m s with
          | Some (S k) =>
              match repl (firstn (S k) s) with
              | Some r => option_map (app r) (sub_scan_try m repl k s')
              | None => None
              end
          | _ => option_map (cons c) (sub_scan_try m repl 0 s')
          end
      end
  end.
Definition re_sub_try (m : str -> option nat) (repl : str -> option str) (s : str)
    : option str :=
  sub_scan_try m repl 0 s.

(** The regular expressions of the program: sequences, alternatives and
    optional groups over character classes, with greedy bounded repetition of a
    class ([c*], [c+], [c{lo,hi}]). *)
Inductive regex : Type :=
| Eps
| Cls (p : char -> bool)
| Seq (a b : regex)
| Alt (a b : regex)
| Opt (a : regex)
| Rep (p : char -> bool) (lo : nat) (hi : option nat).

Definition below (hi : option nat) : bool :=
  match hi with Some O => false | _ => true end.
Definition dec (hi : option nat) : option nat := option_map pred hi.

(** Greedy repetition: take one more character when allowed, give it back
    when the rest of the pattern fails. *)
Fixpoint rep_match {X} (p : char -> bool) (lo : nat) (hi : option nat)
    (s : str) (k : str -> option X) : option X :=
  let stop := match lo with O => k s | S _ => None end in
  match s with
  | c :: s' =>
      if p c && below hi then
        match rep_match p (pred lo) (dec hi) s' k with
        | Some r => Some r
        | None => stop
        end
      else stop
  | [] => stop
  end.

(** The backtracking matcher: alternatives are tried left to right, an
    optional group is tried before it is left out, and [k] is the rest of the
    pattern. *)
Fixpoint re_match {X} (r : regex) (s : str) (k : str -> option X) : option X :=
  match r with
  | Eps => k s
  | Cls p => match s with c :: s' => if p c then k s' else None | [] => None end
  | Seq a b => re_match a s (fun s' => re_match b s' k)
  | Alt a b =>
      match re_match a s k with
      | Some x => Some x
      | None => re_match b s k
      end
  | Opt a =>
      match re_match a s k with
      | Some x => Some x
      | None => k s
      end
  | Rep p lo hi => rep_match p lo hi s k
  end.

(** The length of the match of [r] at the start of [s]. *)
Definition match_len (r : regex) (s : str) : option nat :=
  option_map (fun rest => (length s - length rest)%nat) (re_match r s Some).

Definition Chr (c : char) : regex := Cls (N.eqb c).
Definition Lit (s : str) : regex := fold_right (fun c r => Seq (Chr c) r) Eps s.

(** ** [html.unescape] *)

Definition is_name_char (c : char) : bool :=
  negb (existsb (N.eqb c) [9; 10; 12; 32; 60; 38; 35; 59]).

Definition semi (s : str) : nat :=
  match s with c :: _ => if c =? 59 then 1%nat else 0%nat | [] => 0%nat end.

(** The three alternatives of the character-reference pattern
    [&(#[0-9]+;?|#[xX][0-9a-fA-F]+;?|[^\t\n\f <&#;]{1,32};?)]; the results count
    the ampersand. *)
Definition numeric_len (r : str) : option nat :=
  match span is_digit r with
  | S d => Some (2 + S d + semi (skipn (S d) r))%nat
  | O =>
      match r with
      | x :: r' =>
          if (x =? 120) || (x =? 88) then
            match span is_hexdigit r' with
            | S h => Some (3 + S h + semi (skipn (S h) r'))%nat
            | O => None
            end
          else None
      | [] => None
      end
  end.

Definition named_len (r : str) : option nat :=
  match span_upto 32 is_name_char r with
  | S n => Some (1 + S n + semi (skipn (S n) r))%nat
  | O => None
  end.

Definition charref_len (s : str) : option nat :=
  match s with
  | a :: r =>
      if a =? 38 then
        match r with
        | h :: r' => if h =? 35 then numeric_len r' else named_len r
        | [] => None
        end
      else None
  | [] => None
  end.

Definition digit_val (c : char) : N :=
  if is_digit c then c - 48
  else if in_range 97 102 c then c - 87
  else c - 55.
Definition int_of (base : N) (s : str) : N :=
  fold_left (fun acc c => acc * base + digit_val c) s 0.

(** [sys.int_info.default_max_str_digits]: [int(s)] raises [ValueError] for
    a decimal [s] of more digits; [int(s, 16)] has no such limit. *)
Definition int_max_str_digits : nat := 4300.

(** [int(s)] for a string of decimal digits; [None] is [ValueError]. *)
Definition py_int (s : str) : option N :=
  match s with
  | [] => None
  | _ :: _ => if (int_max_str_digits <? length s)%nat then None else Some (int_of 10 s)
  end.

Definition _invalid_charrefs (n : N) : option str :=
  if n =? 0x00 then Some [0xfffd] else if n =? 0x0d then Some [0x0d]
  else if in_range 0x80 0x9f n then
    nth_error
      [[0x20ac]; [0x81]; [0x201a]; [0x0192]; [0x201e]; [0x2026]; [0x2020]; [0x2021];
       [0x02c6]; [0x2030]; [0x0160]; [0x2039]; [0x0152]; [0x8d]; [0x017d]; [0x8f];
       [0x90]; [0x2018]; [0x2019]; [0x201c]; [0x201d]; [0x2022]; [0x2013]; [0x2014];
       [0x02dc]; [0x2122]; [0x0161]; [0x203a]; [0x0153]; [0x9d]; [0x017e]; [0x0178]]
      (N.to_nat (n - 0x80))
  else None.

Definition _invalid_codepoints (n : N) : bool :=
  in_range 0x1 0x8 n || in_range 0xe 0x1f n || in_range 0x7f 0x9f n
  || in_range 0xfdd0 0xfdef n || (n =? 0xb)
  || ((n <=? 0x10ffff) && (0xfffe <=? N.land n 0xffff)).

Section Unescape.
(** The table of named character references ([html.entities.html5]), from
    a name as it stands after the ampersand to its replacement. *)
Variable html5 : str -> option str.

(** The longest prefix of [s] of length [x] down to 2 that is a name. *)
Fixpoint longest_named (x : nat) (s : str) : option str :=
  match x with
  | S y =>
      match y with
      | S _ =>
          match html5 (firstn x s) with
          | Some v => Some (v ++ skipn x s)
          | None => longest_named y s
          end
      | O => None
      end
  | O => None
  end.

(** [s] is the reference after ["&#"]; [None] is the [ValueError] of
    [int]. *)
Definition numeric_charref (s : str) : option str :=
  let num :=
    match s with
    | x :: r =>
        if (x =? 120) || (x =? 88) then Some (int_of 16 (rstrip_char 59 r))
        else py_int (rstrip_char 59 s)
    | [] => py_int []
    end in
  match num with
  | None => None
  | Some num =>
      Some match _invalid_charrefs num with
           | Some v => v
           | None =>
               if in_range 0xD800 0xDFFF num || (0x10FFFF <? num) then [0xFFFD]
               else if _invalid_codepoints num then []
               else [num]
           end
  end.

(** [s] is the reference after ["&"]. *)
Definition named_charref (s : str) : str :=
  match html5 s with
  | Some v => v
  | None =>
      match longest_named (length s - 1) s with
      | Some v => v
      | None => 38 :: s
      end
  end.

(** [m] is the whole match, ampersand included. *)
Definition _replace_charref (m : str) : option str :=
  match tl m with
  | h :: r => if h =? 35 then numeric_charref r else Some (named_charref (h :: r))
  | [] => Some m
  end.

(** [html.unescape(s)]; [None] is the [ValueError] it lets through. *)
Definition unescape (s : str) : option str :=
  if negb (existsb (N.eqb 38) s) then Some s
  else re_sub_try charref_len _replace_charref s.
End Unescape.

(** ** The URL pattern of [create_post_dict] *)

Section Urlfinder.
(** [str.isalnum] beyond ASCII: which code points [\w] accepts there. *)
Variable unicode_alnum : char -> bool.

Definition word (c : char) : bool :=
  if c <? 128 then ascii_alpha c || is_digit c || (c =? 95) else unicode_alnum c.

(** The five classes of the pattern, in the order the source writes their
    members. *)
Definition userinfo_c (c : char) : bool := one_of "-;:&=+$," c || word c.
Definition host_c (c : char) : bool := ascii_alpha c || is_digit c || one_of ".-" c.
Definition path_c (c : char) : bool := one_of "+~%/." c || word c || one_of "-_" c.
Definition query_c (c : char) : bool := one_of "-+=&;%@." c || word c || one_of "_" c.
Definition frag_c (c : char) : bool := one_of ".!/\" c || word c.

(** [[\-;:&=\+\$,\w]+@] *)
Definition userinfo : regex := Seq (Rep userinfo_c 1 None) (Chr 64).
(** [[A-Za-z]{3,9}:(?:\/\/)?] *)
Definition url_scheme : regex :=
  Seq (Rep ascii_alpha 3 (Some 9%nat)) (Seq (Chr 58) (Opt (Seq (Chr 47) (Chr 47)))).
(** Group 2: a scheme, an optional user, a host and an optional port, or a
    host after ["www."] or after a user. *)
Definition url_authority : regex :=
  Alt (Seq url_scheme
        (Seq (Opt userinfo)
          (Seq (Rep host_c 1 None) (Opt (Seq (Chr 58) (Rep is_digit 1 None))))))
      (Seq (Alt (Lit (lit "www.")) userinfo) (Rep host_c 1 None)).
(** Group 5: path, question mark, query, hash mark and fragment, each
    optional. *)
Definition url_tail : regex :=
  Seq (Opt (Seq (Chr 47) (Rep path_c 0 None)))
    (Seq (Opt (Chr 63))
      (Seq (Rep query_c 0 None) (Seq (Opt (Chr 35)) (Rep frag_c 0 None)))).
Definition urlfinder : regex := Seq url_authority (Opt url_tail).

(** [urlfinder.sub(r'<\1>', content)]: group 1 is the whole match. *)
Definition urlize (content : str) : str :=
  re_sub (match_len urlfinder) (fun m => 60 :: m ++ [62]) content.
End Urlfinder.

(** [re.sub(r'<blockquote>', '<blockquote markdown="1">', content)] *)
Definition blockquote_open : str := lit "<blockquote>".
Definition blockquote_open_markdown : str :=
  lit "<blockquote markdown=" ++ [dq] ++ lit "1" ++ [dq] ++ lit ">".
Definition blockquote_markdown (content : str) : str :=
  re_sub (match_len (Lit blockquote_open)) (fun _ => blockquote_open_markdown) content.

(** ** What the patterns denote *)

(** The language of a pattern, independent of the order in which the matcher
    explores it. *)
Inductive matches : regex -> str -> Prop :=
| m_eps : matches Eps []
| m_cls p c : p c = true -> matches (Cls p) [c]
| m_seq a b u v : matches a u -> matches b v -> matches (Seq a b) (u ++ v)
| m_alt_l a b u : matches a u -> matches (Alt a b) u
| m_alt_r a b u : matches b u -> matches (Alt a b) u
| m_opt_some a u : matches a u -> matches (Opt a) u
| m_opt_none a : matches (Opt a) []
| m_rep p lo hi u :
    forallb p u = true ->
    (lo <= length u)%nat ->
    match hi with Some h => (length u <= h)%nat | None => True end ->
    matches (Rep p lo hi) u.

(** Whether a pattern can match the empty string. *)
Fixpoint nullable (r : regex) : bool :=
  match r with
  | Eps => true
  | Cls _ => false
  | Seq a b => nullable a && nullable b
  | Alt a b => nullable a || nullable b
  | Opt _ => true
  | Rep _ lo _ => match lo with O => true | S _ => false end
  end.

(** One left-to-right pass that rewrites the matches of [r]: at each position
    either some non-empty match [u] of [r] starts there and is replaced by
    [repl u], or no match of [r] starts there and the character is copied. *)
Inductive rewritten (r : regex) (repl : str -> str) : str -> str -> Prop :=
| rw_nil : rewritten r repl [] []
| rw_hit u v out :
    u <> [] -> matches r u -> rewritten r repl v out ->
    rewritten r repl (u ++ v) (repl u ++ out)
| rw_miss c v out :
    (forall u w, c :: v = u ++ w -> ~ matches r u) ->
    rewritten r repl v out ->
    rewritten r repl (c :: v) (c :: out).

(** Every occurrence of the literal [pat], found from the left, replaced by
    [rep]. *)
Inductive replaced_all (pat rep : str) : str -> str -> Prop :=
| ra_nil : replaced_all pat rep [] []
| ra_hit v out :
    replaced_all pat rep v out -> replaced_all pat rep (pat ++ v) (rep ++ out)
| ra_miss c v out :
    (forall w, c :: v <> pat ++ w) ->
    replaced_all pat rep v out ->
    replaced_all pat rep (c :: v) (c :: out).

(** [p] occurs in [s]. *)
Definition occurs (p s : str) : Prop := exists a b, s = a ++ p ++ b.

(** ** The match the engine prefers

    The ways a pattern can match at the start of [s], each given by the text
    it leaves, in the order in which a backtracking engine comes to them:
    the alternatives of [a|b] in the order written, an optional group before
    its absence, and a repetition with as many characters as possible before
    fewer. *)
Fixpoint rep_parses (p : char -> bool) (lo : nat) (hi : option nat) (s : str) : list str :=
  let stop := match lo with O => [s] | S _ => [] end in
  match s with
  | c :: s' =>
      if p c && below hi then rep_parses p (pred lo) (dec hi) s' ++ stop else stop
  | [] => stop
  end.

Fixpoint parses (r : regex) (s : str) : list str :=
  match r with
  | Eps => [s]
  | Cls p => match s with c :: s' => if p c then [s'] else [] | [] => [] end
  | Seq a b => flat_map (parses b) (parses a s)
  | Alt a b => parses a s ++ parses b s
  | Opt a => parses a s ++ [s]
  | Rep p lo hi => rep_parses p lo hi s
  end.

(** What the preferred match of [r] at the start of [s] leaves, if [r]
    matches there at all. *)
Definition preferred (r : regex) (s : str) : option str := hd_error (parses r s).

(** One pass of substitution, as [re.sub] specifies it for a pattern that
    does not match the empty string: from the left, where the pattern matches,
    its preferred match [u] is replaced by [repl u] and the pass resumes after
    it; elsewhere the character is copied. *)
Inductive substituted (r : regex) (repl : str -> str) : str -> str -> Prop :=
| sb_nil : substituted r repl [] []
| sb_hit u v out :
    u <> [] -> preferred r (u ++ v) = Some v -> substituted r repl v out ->
    substituted r repl (u ++ v) (repl u ++ out)
| sb_miss c v out :
    preferred r (c :: v) = None -> substituted r repl v out ->
    substituted r repl (c :: v) (c :: out).

(** The first success of [k] over a list of choices. *)
Fixpoint first_some {X} (k : str -> option X) (l : list str) : option X :=
  match l with
  | [] => None
  | x :: l' =>
      match k x with
      | Some y => Some y
      | None => first_some k l'
      end
  end.


(** ** Values, exceptions and events *)

(** A Python float: a sign, a mantissa and a binary exponent, or an infinity
    or a NaN.  The program only tests it against zero. *)
Inductive pyfloat : Type :=
| FFinite (negative : bool) (mantissa : N) (exponent : Z)
| FInf (negative : bool)
| FNan.

(** What [response.json()] returns; [JNull] is [None]. *)
Inductive json : Type :=
| JNull
| JBool (b : bool)
| JInt (z : Z)
| JFloat (f : pyfloat)
| JStr (s : str)
| JArr (items : list json)
| JObj (members : list (str * json)).

(** The truth value of [if result:]. *)
Definition truthy (v : json) : bool :=
  match v with
  | JNull => false
  | JBool b => b
  | JInt z => negb (z =? 0)%Z
  | JFloat (FFinite _ m _) => negb (m =? 0)
  | JFloat _ => true
  | JStr s => negb (str_eqb s [])
  | JArr l => match l with [] => false | _ :: _ => true end
  | JObj l => match l with [] => false | _ :: _ => true end
  end.

(** Lookup in a parsed object: of two members with one key the later wins. *)
Fixpoint dict_get {V} (key : str) (d : list (str * V)) : option V :=
  match d with
  | [] => None
  | (k, v) :: d' =>
      match dict_get key d' with
      | Some v' => Some v'
      | None => if str_eqb k key then Some v else None
      end
  end.

(** A [requests.Response]: [json_body] is what [response.json()] returns, and
    [None] when the body is not JSON. *)
Record response : Type := {
  status_code : Z;
  text : str;
  json_body : option json
}.

(** The exceptions of the program.  [HTTPError] (from [raise_for_status]),
    [TransportError] (whatever else [requests.get] and [requests.post] raise:
    connection errors, timeouts, ...) and [JSONDecodeError] (from
    [response.json()], a request exception since requests 2.27) are the
    [requests.exceptions.RequestException]s; [SqliteError] stands for
    [sqlite3.Error] and its subclasses; [ValueError] is what [int] raises
    inside [html.unescape], [UnicodeEncodeError] what encoding a lone
    surrogate raises; [PlainException] is a bare [Exception]. *)
Inductive exn : Type :=
| HTTPError (r : response)
| TransportError (msg : str) (r : option response)
| JSONDecodeError (msg : str)
| SqliteError (msg : str)
| OverflowError
| KeyError (key : str)
| TypeError
| AttributeError
| ValueError
| UnicodeEncodeError
| PlainException (msg : str).

Definition is_RequestException (e : exn) : bool :=
  match e with
  | HTTPError _ | TransportError _ _ | JSONDecodeError _ => true
  | _ => false
  end.
Definition is_sqlite3_Error (e : exn) : bool :=
  match e with SqliteError _ => true | _ => false end.

(** [e.response] of a request exception. *)
Definition exn_response (e : exn) : option response :=
  match e with
  | HTTPError r => Some r
  | TransportError _ r => r
  | _ => None
  end.

(** An element of [entry.tags]: a dictionary without a ['term'] key, or with
    one, whose value may be [None]. *)
Inductive topic : Type :=
| NoTerm
| Term (t : option str).

(** A feed entry: the keys the program reads, [None] for a missing key.
    The strings of an entry come out of the XML parser of a feed that parsed
    without error, so they hold no lone surrogate and SQLite takes them as
    parameters. *)
Record entry : Type := {
  e_link : option str;
  e_title : option str;
  e_description : option str;
  e_summary : option str;
  e_published : option str;
  e_tags : list topic
}.

(** What [feedparser.parse] returns. *)
Record feed : Type := {
  bozo : bool;
  bozo_exception : str;
  entries : list entry
}.

(** A value as SQLite stores it. *)
Inductive sqlvalue : Type :=
| SqlNull
| SqlInteger (z : Z)
| SqlReal (f : pyfloat)
| SqlText (s : str).

(** A row of the table [published_items]. *)
Record row : Type := {
  r_link : str;
  r_title : str;
  r_published_date : str;
  r_wordpress_post_id : sqlvalue;
  r_created_at : str
}.

(** The dictionary [create_post_dict] returns. *)
Record post_dict : Type := {
  pd_title : str;
  pd_content : str;
  pd_status : str
}.

Inductive level : Type := INFO | WARNING | ERROR.

(** The log lines of the program, one constructor per message, with the
    values its f-string interpolates. *)
Inductive message : Type :=
| DatabaseInitialized
| DatabaseInitError (e : exn)
| AuthFailed
| ResponseText (t : str)
| AuthSuccessful
| ErrorVerifyingAuth (e : exn)
| DatabaseQueryError (e : exn)
| RecordedItem (title : str)
| ErrorRecording (e : exn)
| ErrorParsingFeed (cause : str)
| ErrorFetchingFeed (e : exn)
| ErrorExtractingTags (e : exn)
| ExtractedTags (title : str) (tags : list str)
| CreatingPost (title : str)
| AuthFailedCreatingPost
| ErrorCreatingPost (e : exn)
| CreatedPost (title : str)
| FailedToCreatePost (title : str)
| FailedToInitialize (e : exn).

(** What the process does, in order: SQL statements, HTTP requests, the feed
    fetch, log lines and prints.  [Call_create_post] and [Return_create_post]
    mark the entry to and the return from [create_post]. *)
Inductive event : Type :=
| SqlCreateTable
| SqlSelect (link : str)
| SqlInsert (link title published_date : str) (wordpress_post_id : json)
| HttpGet (url : str) (headers : list (str * str))
| HttpPost (url : str) (headers : list (str * str)) (data : post_dict)
| FeedParse (url : str)
| Call_create_post (title content link : str) (tags : list str) (status : str)
| Return_create_post (link : str) (result : json)
| Log (lvl : level) (msg : message)
| PrintContent (s : str)
| PrintData (d : post_dict)
| PrintTraceback (e : exn).

(** ** The monad *)

Record state : Type := {
  published_items : list row;
  history : list event
}.

Inductive result (A : Type) : Type :=
| Ok (a : A)
| Raise (e : exn).
Arguments Ok {A} a.
Arguments Raise {A} e.

Definition M (A : Type) : Type := state -> state * result A.

Definition ret {A} (a : A) : M A := fun st => (st, Ok a).
Definition raise {A} (e : exn) : M A := fun st => (st, Raise e).
Definition bind {A B} (m : M A) (f : A -> M B) : M B :=
  fun st =>
    match m st with
    | (st', Ok a) => f a st'
    | (st', Raise e) => (st', Raise e)
    end.

(** [try: body except ...: handler]; the handler returns [None] for an
    exception that no [except] clause catches. *)
Definition try_except {A} (body : M A) (handler : exn -> option (M A)) : M A :=
  fun st =>
    match body st with
    | (st', Ok a) => (st', Ok a)
    | (st', Raise e) =>
        match handler e with
        | Some h => h st'
        | None => (st', Raise e)
        end
    end.

(** A computation that only returns or raises. *)
Definition lift {A} (r : result A) : M A := fun st => (st, r).

Definition emit (e : event) : M unit :=
  fun st =>
    ({| published_items := published_items st; history := history st ++ [e] |}, Ok tt).

(** Ask the outside world, which answers from what has happened so far. *)
Definition consult {A} (oracle : list event -> A) : M A :=
  fun st => (st, Ok (oracle (history st))).
Definition get_rows : M (list row) := fun st => (st, Ok (published_items st)).
Definition put_rows (l : list row) : M unit :=
  fun st => ({| published_items := l; history := history st |}, Ok tt).

Declare Scope py_scope.
Delimit Scope py_scope with py.
Notation "x <- m ;; k" := (bind m (fun x => k))
  (at level 100, m at next level, right associativity) : py_scope.
Notation "m ;; k" := (bind m (fun _ => k))
  (at level 100, right associativity) : py_scope.
Local Open Scope py_scope.

Definition when (b : bool) (m : M unit) : M unit := if b then m else ret tt.

(** [for x in l: body]; an exception ends the loop. *)
Fixpoint for_each {A} (l : list A) (body : A -> M unit) : M unit :=
  match l with
  | [] => ret tt
  | x :: l' => body x ;; for_each l' body
  end.

(** ** The program *)

Definition NO_POST : bool := false.

(** The library functions whose code is not part of the program. *)
Record Lib : Type := {
  (** [str.isalnum] on a code point above 127 *)
  unicode_alnum : char -> bool;
  (** [html.entities.html5] *)
  html5 : str -> option str;
  (** [markdown.markdown(_, extensions=['extra', 'sane_lists', 'md_in_html'])] *)
  markdown_markdown : str -> str;
  (** [base64.b64encode(_).decode()], from bytes to text *)
  b64encode : list N -> str
}.

Inductive http_outcome : Type :=
| Responded (r : response)
| Failed (msg : str) (r : option response).

(** The outside world.  Each oracle reads the history up to and including
    the request it answers. *)
Record World : Type := {
  (** the message of the [sqlite3.Error] that the statement just issued runs
      into for a reason of the database's (locked, unreadable, full, ...) *)
  sqlite_fault : list event -> option str;
  (** whether that error comes before the parameters of the statement are
      bound (the database cannot be opened, the statement cannot be
      prepared) and not when the statement runs (locked, full, ...) *)
  sqlite_fault_early : list event -> bool;
  (** what a column of type [INTEGER] keeps of a float and of a string: the
      number it reads them as, or the value itself (type affinity) *)
  real_affinity : pyfloat -> sqlvalue;
  text_affinity : str -> sqlvalue;
  (** [CURRENT_TIMESTAMP] *)
  sqlite_timestamp : list event -> str;
  (** the outcome of the HTTP request just sent *)
  http_reply : list event -> http_outcome;
  (** what [feedparser.parse] does: an exception or a parsed feed *)
  feed_reply : list event -> str + feed;
  (** [datetime.now().isoformat()] *)
  datetime_now_isoformat : list event -> str
}.

(** The environment variables read at import time. *)
Record Config : Type := {
  TAG_PREFIX : option str;
  WORDPRESS_URL : str;
  USERNAME : str;
  APP_PASSWORD : str;
  RSS_FEED_URL : str;
  DB_PATH : str
}.

(** The attributes of a publisher object. *)
Record WordPressRSSPublisher : Type := {
  wordpress_url : str;
  username : str;
  application_password : str;
  api_base : str;
  db_path : str;
  auth_header : list (str * str)
}.

(** [response.raise_for_status()] *)
Definition raise_for_status (r : response) : M unit :=
  if ((400 <=? status_code r) && (status_code r <? 600))%Z then raise (HTTPError r)
  else ret tt.

(** [response.json()] *)
Definition response_json (r : response) : M json :=
  match json_body r with
  | Some v => ret v
  | None => raise (JSONDecodeError (text r))
  end.

(** [v[key]] for a string key. *)
Definition subscript (v : json) (key : str) : M json :=
  match v with
  | JObj d =>
      match dict_get key d with
      | Some x => ret x
      | None => raise (KeyError key)
      end
  | _ => raise TypeError
  end.

(** Binding [wordpress_post_id], the fourth parameter of the [INSERT]:
    [None], a number, a boolean or a string is taken; an integer outside 64
    bits raises [OverflowError], a string with a lone surrogate
    [UnicodeEncodeError], a list or a dictionary [sqlite3.ProgrammingError]. *)
Definition bind_parameter (v : json) : M unit :=
  match v with
  | JInt z =>
      if ((- 2 ^ 63 <=? z) && (z <? 2 ^ 63))%Z then ret tt else raise OverflowError
  | JStr s =>
      match utf8_encode s with
      | Some _ => ret tt
      | None => raise UnicodeEncodeError
      end
  | JArr _ =>
      raise (SqliteError (lit "Error binding parameter 4: type 'list' is not supported"))
  | JObj _ =>
      raise (SqliteError (lit "Error binding parameter 4: type 'dict' is not supported"))
  | _ => ret tt
  end.

(** What the column [wordpress_post_id INTEGER] keeps of a bound value. *)
Definition column_integer (W : World) (v : json) : sqlvalue :=
  match v with
  | JNull => SqlNull
  | JBool b => SqlInteger (if b then 1 else 0)
  | JInt z => SqlInteger z
  | JFloat f => real_affinity W f
  | JStr s => text_affinity W s
  | JArr _ | JObj _ => SqlNull
  end.

(** The loop of [_extract_tags_from_rss]: the tags collected, and the
    exception that ended the loop early. *)
Fixpoint extend_tags (topics : list topic) (tags : list str) : list str * option exn :=
  match topics with
  | [] => (tags, None)
  | NoTerm :: rest => extend_tags rest tags
  | Term (Some t) :: rest => extend_tags rest (tags ++ split t)
  | Term None :: rest => (tags, Some AttributeError)
  end.

Section Gateway.
Variable L : Lib.
Variable W : World.
Variable C : Config.

Definition requests_get (url : str) (headers : list (str * str)) : M response :=
  emit (HttpGet url headers) ;;
  o <- consult (http_reply W) ;;
  match o with
  | Responded r => ret r
  | Failed msg r => raise (TransportError msg r)
  end.

Definition requests_post (url : str) (headers : list (str * str)) (data : post_dict)
    : M response :=
  emit (HttpPost url headers data) ;;
  o <- consult (http_reply W) ;;
  match o with
  | Responded r => ret r
  | Failed msg r => raise (TransportError msg r)
  end.

Definition feedparser_parse (url : str) : M feed :=
  emit (FeedParse url) ;;
  o <- consult (feed_reply W) ;;
  match o with
  | inl msg => raise (PlainException msg)
  | inr f => ret f
  end.

(** Open the database and run one statement. *)
Definition sqlite_execute (statement : event) : M unit :=
  emit statement ;;
  f <- consult (sqlite_fault W) ;;
  match f with
  | Some msg => raise (SqliteError msg)
  | None => ret tt
  end.

Definition create_auth_header (username password : str) : result (list (str * str)) :=
  let credentials := username ++ lit ":" ++ password in
  match utf8_encode credentials with
  | None => Raise UnicodeEncodeError
  | Some bytes =>
      let token := b64encode L bytes in
      Ok [(lit "Authorization", lit "Basic " ++ token);
          (lit "Content-Type", lit "application/json")]
  end.

Definition _init_database (self : WordPressRSSPublisher) : M unit :=
  try_except
    (sqlite_execute SqlCreateTable ;;
     emit (Log INFO DatabaseInitialized))
    (fun e =>
       if is_sqlite3_Error e then
         Some (emit (Log ERROR (DatabaseInitError e)) ;; raise e)
       else None).

(** [if hasattr(e, 'response') and e.response is not None: ...] *)
Definition log_response (e : exn) : M unit :=
  match exn_response e with
  | Some r => emit (Log ERROR (ResponseText (text r)))
  | None => ret tt
  end.

Definition _verify_auth (self : WordPressRSSPublisher) : M unit :=
  try_except
    (response <- requests_get (api_base self ++ lit "/users/me") (auth_header self) ;;
     (if (status_code response =? 401)%Z then
        emit (Log ERROR AuthFailed) ;;
        emit (Log ERROR (ResponseText (text response))) ;;
        raise (PlainException (lit "Authentication failed"))
      else ret tt) ;;
     raise_for_status response ;;
     emit (Log INFO AuthSuccessful))
    (fun e =>
       if is_RequestException e then
         Some (emit (Log ERROR (ErrorVerifyingAuth e)) ;; log_response e ;; raise e)
       else None).

Definition __init__ (wordpress_url username application_password db_path : str)
    : M WordPressRSSPublisher :=
  let wordpress_url := rstrip_char 47 wordpress_url in
  auth_header <- lift (create_auth_header username application_password) ;;
  let self := {|
    wordpress_url := wordpress_url;
    username := username;
    application_password := application_password;
    api_base := wordpress_url ++ lit "/wp-json/wp/v2";
    db_path := db_path;
    auth_header := auth_header
  |} in
  _init_database self ;;
  _verify_auth self ;;
  ret self.

Definition _is_item_published (self : WordPressRSSPublisher) (link : str) : M bool :=
  if NO_POST then ret false
  else
    try_except
      (sqlite_execute (SqlSelect link) ;;
       rows <- get_rows ;;
       ret (existsb (fun r => str_eqb (r_link r) link) rows))
      (fun e =>
         if is_sqlite3_Error e then
           Some (emit (Log ERROR (DatabaseQueryError e)) ;; ret false)
         else None).

(** The [INSERT] statement.  An error on opening the database or preparing
    the statement comes first, then the parameters are bound, then the
    statement runs: [link] is the primary key, [wordpress_post_id] is kept
    as its column keeps it, and [created_at] gets its default. *)
Definition sqlite_insert (link title published_date : str) (wordpress_post_id : json)
    : M unit :=
  emit (SqlInsert link title published_date wordpress_post_id) ;;
  f <- consult (sqlite_fault W) ;;
  early <- consult (sqlite_fault_early W) ;;
  match f with
  | Some msg =>
      (if early then ret tt else bind_parameter wordpress_post_id) ;;
      raise (SqliteError msg)
  | None =>
      bind_parameter wordpress_post_id ;;
      rows <- get_rows ;;
      if existsb (fun r => str_eqb (r_link r) link) rows then
        raise (SqliteError (lit "UNIQUE constraint failed: published_items.link"))
      else
        now <- consult (sqlite_timestamp W) ;;
        put_rows (rows ++ [{| r_link := link; r_title := title;
                              r_published_date := published_date;
                              r_wordpress_post_id :=
                                column_integer W wordpress_post_id;
                              r_created_at := now |}])
  end.

Definition _record_published_item (self : WordPressRSSPublisher)
    (link title published_date : str) (wordpress_post_id : json) : M unit :=
  if NO_POST then ret tt
  else
    try_except
      (sqlite_insert link title published_date wordpress_post_id ;;
       emit (Log INFO (RecordedItem title)))
      (fun e =>
         if is_sqlite3_Error e then Some (emit (Log ERROR (ErrorRecording e)))
         else None).

Definition _clean_content (content : str) : result str :=
  match unescape (html5 L) content with
  | Some text => Ok text
  | None => Raise ValueError
  end.

Definition fetch_rss_feed (self : WordPressRSSPublisher) (feed_url : str)
    : M (option feed) :=
  try_except
    (feed <- feedparser_parse feed_url ;;
     if bozo feed then
       emit (Log ERROR (ErrorParsingFeed (bozo_exception feed))) ;; ret None
     else ret (Some feed))
    (fun e => Some (emit (Log ERROR (ErrorFetchingFeed e)) ;; ret None)).

Definition _extract_tags_from_rss (entry : entry) : M (list str) :=
  let '(tags, failure) := extend_tags (e_tags entry) [] in
  match failure with
  | Some e => emit (Log WARNING (ErrorExtractingTags e))
  | None => ret tt
  end ;;
  ret tags.

(** The f-string of one tag. *)
Definition tag_link (tag : str) : str :=
  lit "<a class=" ++ [dq] ++ lit "delicioustag" ++ [dq] ++ lit " href=" ++ [dq]
    ++ fmt (TAG_PREFIX C) ++ lit "/t:" ++ tag ++ [dq] ++ lit ">" ++ tag ++ lit "</a>".

(** [tag_htmls] after the loop that appends to it. *)
Definition tag_htmls (tags : list str) : list str :=
  fold_left (fun acc tag => acc ++ [tag_link tag]) tags [].

Definition content_with_source (title content link tag_html : str) : str :=
  lit "<ul><li><p>" ++ [10]
    ++ lit "<a class=" ++ [dq] ++ lit "deliciouslink" ++ [dq] ++ lit " href=" ++ [dq]
    ++ link ++ [dq] ++ lit " title=" ++ [dq] ++ title ++ [dq] ++ lit ">" ++ title
    ++ lit "</a></p>"
    ++ [10; 10] ++ content ++ [10; 10]
    ++ lit "<p class=" ++ [dq] ++ lit "taglist" ++ [dq] ++ lit ">Tags: "
    ++ tag_html ++ lit "</p></li></ul>".

Definition create_post_dict (self : WordPressRSSPublisher)
    (title content link : str) (tags : list str) (status : str) : M post_dict :=
  let content := urlize (unicode_alnum L) content in
  let content := blockquote_markdown content in
  when NO_POST (emit (PrintContent content)) ;;
  let content := markdown_markdown L content in
  let tag_html := join (lit " ") (tag_htmls tags) in
  ret {| pd_title := title;
         pd_content := content_with_source title content link tag_html;
         pd_status := status |}.

(** The body of [create_post]. *)
Definition create_post_body (self : WordPressRSSPublisher)
    (title content link : str) (tags : list str) (status : str) : M json :=
  data <- create_post_dict self title content link tags status ;;
  let endpoint := api_base self ++ lit "/posts" in
  if NO_POST then emit (PrintData data) ;; ret JNull
  else
    try_except
      (response <- requests_post endpoint (auth_header self) data ;;
       if (status_code response =? 401)%Z then
         emit (Log ERROR AuthFailedCreatingPost) ;;
         emit (Log ERROR (ResponseText (text response))) ;;
         ret JNull
       else
         raise_for_status response ;;
         response_json response)
      (fun e =>
         if is_RequestException e then
           Some (emit (Log ERROR (ErrorCreatingPost e)) ;; log_response e ;; ret JNull)
         else None).

Definition create_post (self : WordPressRSSPublisher)
    (title content link : str) (tags : list str) (status : str) : M json :=
  emit (Call_create_post title content link tags status) ;;
  result <- create_post_body self title content link tags status ;;
  emit (Return_create_post link result) ;;
  ret result.

(** The loop of [post_feed_items], after its [continue]: transform, publish
    and record. *)
Definition publish_entry (self : WordPressRSSPublisher) (post_status : str)
    (entry : entry) (link : str) : M unit :=
  let title := get_default (e_title entry) [] in
  let content :=
    py_or (get_default (e_description entry) []) (get_default (e_summary entry) []) in
  now <- consult (datetime_now_isoformat W) ;;
  let published_date := get_default (e_published entry) now in
  tags <- _extract_tags_from_rss entry ;;
  emit (Log INFO (ExtractedTags title tags)) ;;
  content <- lift (_clean_content content) ;;
  emit (Log INFO (CreatingPost title)) ;;
  result <- create_post self title content link tags post_status ;;
  if truthy result then
    emit (Log INFO (CreatedPost title)) ;;
    post_id <- subscript result (lit "id") ;;
    _record_published_item self link title published_date post_id
  else emit (Log ERROR (FailedToCreatePost title)).

(** The body of the loop of [post_feed_items]. *)
Definition process_entry (self : WordPressRSSPublisher) (post_status : str)
    (entry : entry) : M unit :=
  let link := get_default (e_link entry) [] in
  published <- _is_item_published self link ;;
  if published then ret tt
  else publish_entry self post_status entry link.

Definition post_feed_items (self : WordPressRSSPublisher) (feed_url post_status : str)
    : M unit :=
  feed <- fetch_rss_feed self feed_url ;;
  match feed with
  | None => ret tt
  | Some feed => for_each (rev (entries feed)) (process_entry self post_status)
  end.

Definition main : M unit :=
  try_except
    (publisher <- __init__ (WORDPRESS_URL C) (USERNAME C) (APP_PASSWORD C) (DB_PATH C) ;;
     post_feed_items publisher (RSS_FEED_URL C) (lit "publish"))
    (fun e => Some (emit (PrintTraceback e) ;; emit (Log ERROR (FailedToInitialize e)))).
End Gateway.


(** ** Observations on a run *)

Definition links (st : state) : list str := map r_link (published_items st).

(** The test of the [SELECT] and of the primary key. *)
Definition has_link (l : str) (rows : list row) : bool :=
  existsb (fun r => str_eqb (r_link r) l) rows.

Definition is_flow (e : event) : bool :=
  match e with
  | Call_create_post _ _ _ _ _ | Return_create_post _ _ | SqlInsert _ _ _ _ => true
  | _ => false
  end.
Definition is_call (e : event) : bool :=
  match e with Call_create_post _ _ _ _ _ => true | _ => false end.

(** The calls of [create_post], their returns and the [INSERT] statements,
    and the calls alone, in the order of the history. *)
Definition flow (h : list event) : list event := filter is_flow h.
Definition calls (h : list event) : list event := filter is_call h.

(** Fetching the feed or publishing. *)
Definition is_fetch_or_publish (e : event) : bool :=
  match e with
  | FeedParse _ | HttpPost _ _ _ | Call_create_post _ _ _ _ _ => true
  | _ => false
  end.

Definition entry_link (e : entry) : str := get_default (e_link e) [].

(** The text of entry [e] that is decoded and posted. *)
Definition entry_content (e : entry) : str :=
  py_or (get_default (e_description e) []) (get_default (e_summary e) []).

(** What [_clean_content] returns, when it returns. *)
Definition decoded (L : Lib) (s : str) : str :=
  match _clean_content L s with
  | Ok text => text
  | Raise _ => []
  end.

(** The warning of [_extract_tags_from_rss] for entry [e], if any. *)
Definition tag_log (e : entry) : list event :=
  match snd (extend_tags (e_tags e) []) with
  | Some x => [Log WARNING (ErrorExtractingTags x)]
  | None => []
  end.

(** The dictionary that [create_post_dict] returns. *)
Definition post_of (L : Lib) (C : Config) (title content link : str) (tags : list str)
    (status : str) : post_dict :=
  {| pd_title := title;
     pd_content :=
       content_with_source title
         (markdown_markdown L (blockquote_markdown (urlize (unicode_alnum L) content)))
         link (join (lit " ") (tag_htmls C tags));
     pd_status := status |}.

(** The call of [create_post] that submits entry [e]. *)
Definition submission (L : Lib) (status : str) (e : entry) : event :=
  Call_create_post
    (get_default (e_title e) [])
    (decoded L (entry_content e))
    (entry_link e)
    (fst (extend_tags (e_tags e) []))
    status.

(** A value that can be bound to the parameter of the [INSERT]: [None], a
    boolean, a float, an integer of 64 bits or a string without a lone
    surrogate.  What the column then keeps is [column_integer] of it. *)
Definition bindable (v : json) : bool :=
  match v with
  | JInt z => ((- 2 ^ 63 <=? z) && (z <? 2 ^ 63))%Z
  | JStr s => match utf8_encode s with Some _ => true | None => false end
  | JArr _ | JObj _ => false
  | _ => true
  end.

(** The exception that binding [v] to the parameter raises. *)
Definition bind_error (v : json) : option exn :=
  match v with
  | JInt z =>
      if ((- 2 ^ 63 <=? z) && (z <? 2 ^ 63))%Z then None else Some OverflowError
  | JStr s =>
      match utf8_encode s with
      | Some _ => None
      | None => Some UnicodeEncodeError
      end
  | JArr _ =>
      Some (SqliteError (lit "Error binding parameter 4: type 'list' is not supported"))
  | JObj _ =>
      Some (SqliteError (lit "Error binding parameter 4: type 'dict' is not supported"))
  | _ => None
  end.

(** A result of [create_post] that [post_feed_items] can record: an object
    with an ['id'] that can be bound. *)
Definition recordable (v : json) : bool :=
  match v with
  | JObj d =>
      match dict_get (lit "id") d with
      | Some i => bindable i
      | None => false
      end
  | _ => false
  end.

(** The ['id'] of a result. *)
Definition id_of (v : json) : option json :=
  match v with JObj d => dict_get (lit "id") d | _ => None end.

(** What [create_post] logs and returns, by the outcome of its request. *)
Definition post_outcome (o : http_outcome) : list event * json :=
  match o with
  | Responded r =>
      if (status_code r =? 401)%Z then
        ([Log ERROR AuthFailedCreatingPost; Log ERROR (ResponseText (text r))], JNull)
      else if ((400 <=? status_code r) && (status_code r <? 600))%Z then
        ([Log ERROR (ErrorCreatingPost (HTTPError r)); Log ERROR (ResponseText (text r))],
         JNull)
      else
        match json_body r with
        | Some v => ([], v)
        | None => ([Log ERROR (ErrorCreatingPost (JSONDecodeError (text r)))], JNull)
        end
  | Failed msg r =>
      (Log ERROR (ErrorCreatingPost (TransportError msg r))
         :: match r with
            | Some r' => [Log ERROR (ResponseText (text r'))]
            | None => []
            end,
       JNull)
  end.

(** The database never fails an [INSERT] for a reason of its own. *)
Definition never_faults_on_insert (W : World) : Prop :=
  forall h l t p i, sqlite_fault W (h ++ [SqlInsert l t p i]) = None.

(** The database never fails a [SELECT]. *)
Definition never_faults_on_select (W : World) : Prop :=
  forall h l, sqlite_fault W (h ++ [SqlSelect l]) = None.

(** [l1] is [l2] with some elements left out. *)
Inductive subseq {A : Type} : list A -> list A -> Prop :=
| subseq_nil : subseq [] []
| subseq_skip x l1 l2 : subseq l1 l2 -> subseq l1 (x :: l2)
| subseq_keep x l1 l2 : subseq l1 l2 -> subseq (x :: l1) (x :: l2).

Section Steps.
Variable L : Lib.
Variable W : World.
Variable status : str.

(** What one turn of the loop of [post_feed_items] does with entry [e]:
    it skips an entry that the [SELECT] finds; for any other it raises
    [ValueError] when the text does not decode, and submits it otherwise;
    it issues an [INSERT] only after [create_post] has returned a true
    result with an ['id']. *)
Inductive entry_step (e : entry) (st st' : state) (r : result unit) : Prop :=
| step_skipped :
    sqlite_fault W (history st ++ [SqlSelect (entry_link e)]) = None ->
    has_link (entry_link e) (published_items st) = true ->
    st' = {| published_items := published_items st;
             history := history st ++ [SqlSelect (entry_link e)] |} ->
    r = Ok tt ->
    entry_step e st st' r
| step_undecodable evs :
    sqlite_fault W (history st ++ [SqlSelect (entry_link e)]) <> None
      \/ has_link (entry_link e) (published_items st) = false ->
    _clean_content L (entry_content e) = Raise ValueError ->
    history st' = history st ++ evs ->
    flow evs = [] ->
    published_items st' = published_items st ->
    r = Raise ValueError ->
    entry_step e st st' r
| step_submitted evs v ins :
    sqlite_fault W (history st ++ [SqlSelect (entry_link e)]) <> None
      \/ has_link (entry_link e) (published_items st) = false ->
    (exists text, _clean_content L (entry_content e) = Ok text) ->
    history st' = history st ++ evs ->
    flow evs = [submission L status e; Return_create_post (entry_link e) v] ++ ins ->
    (ins = []
     \/ truthy v = true
        /\ exists t p i,
             id_of v = Some i /\ ins = [SqlInsert (entry_link e) t p i]) ->
    (published_items st' = published_items st
     \/ truthy v = true
        /\ has_link (entry_link e) (published_items st) = false
        /\ exists row,
             published_items st' = published_items st ++ [row]
             /\ r_link row = entry_link e
             /\ exists i, id_of v = Some i
                          /\ r_wordpress_post_id row = column_integer W i) ->
    (truthy v = false -> r = Ok tt) ->
    (never_faults_on_insert W -> recordable v = true ->
     has_link (entry_link e) (published_items st') = true /\ r = Ok tt) ->
    entry_step e st st' r.

(** The loop: the turns one after the other, up to the first exception. *)
Inductive loop_steps : list entry -> state -> state -> result unit -> Prop :=
| loop_done st : loop_steps [] st st (Ok tt)
| loop_next e es st st1 st2 r :
    entry_step e st st1 (Ok tt) -> loop_steps es st1 st2 r ->
    loop_steps (e :: es) st st2 r
| loop_raise e es st st1 x :
    entry_step e st st1 (Raise x) -> loop_steps (e :: es) st st1 (Raise x).
End Steps.

(** In a list of calls, returns and [INSERT]s, every [INSERT] comes right
    after the return of [create_post] for the same link with a true result
    that holds the inserted id. *)
Definition inserts_follow_returns (fl : list event) : Prop :=
  forall pre post l t p i,
    fl = pre ++ SqlInsert l t p i :: post ->
    exists pre' v,
      pre = pre' ++ [Return_create_post l v] /\ truthy v = true /\ id_of v = Some i.


(** ** What the specification says, in its own words *)

(** An anchor element with a class, a target and a visible text. *)
Definition anchor (class href visible : str) : str :=
  lit "<a class=" ++ [dq] ++ class ++ [dq] ++ lit " href=" ++ [dq] ++ href ++ [dq]
    ++ lit ">" ++ visible ++ lit "</a>".

(** The link of one tag under the prefix [P]. *)
Definition tag_anchor (P tag : str) : str :=
  anchor (lit "delicioustag") (P ++ lit "/t:" ++ tag) tag.

(** The header that [create_auth_header] returns, when it returns. *)
Definition auth_header_of (L : Lib) (username password : str) : list (str * str) :=
  match create_auth_header L username password with
  | Ok header => header
  | Raise _ => []
  end.

(** The "who am I" request of [_verify_auth], as [__init__] sends it. *)
Definition whoami_request (L : Lib) (C : Config) : event :=
  HttpGet
    ((rstrip_char 47 (WORDPRESS_URL C) ++ lit "/wp-json/wp/v2") ++ lit "/users/me")
    (auth_header_of L (USERNAME C) (APP_PASSWORD C)).

(** A request answered by 401, or not answered at all. *)
Definition rejected (o : http_outcome) : Prop :=
  match o with
  | Responded r => status_code r = 401%Z
  | Failed _ _ => True
  end.


(** ** Concrete inputs *)

(** A small library to run the program with: no word characters beyond
    ASCII, the five entities of XML and the non-breaking space, and the
    identity for the renderer and for the encoder. *)
Definition html5_basic (s : str) : option str :=
  if str_eqb s (lit "amp;") || str_eqb s (lit "amp") then Some (lit "&")
  else if str_eqb s (lit "lt;") || str_eqb s (lit "lt") then Some (lit "<")
  else if str_eqb s (lit "gt;") || str_eqb s (lit "gt") then Some (lit ">")
  else if str_eqb s (lit "quot;") || str_eqb s (lit "quot") then Some [dq]
  else if str_eqb s (lit "apos;") then Some [39]
  else if str_eqb s (lit "nbsp;") || str_eqb s (lit "nbsp") then Some [160]
  else None.

Definition lib0 : Lib := {|
  unicode_alnum := fun _ => false;
  html5 := html5_basic;
  markdown_markdown := fun s => s;
  b64encode := fun s => s
|}.

Definition cfg0 : Config := {|
  TAG_PREFIX := Some (lit "https://x.example");
  WORDPRESS_URL := lit "https://blog.example/";
  USERNAME := lit "editor";
  APP_PASSWORD := lit "secret";
  RSS_FEED_URL := lit "https://feeds.example/rss";
  DB_PATH := lit "rss_state.db"
|}.

Definition self0 : WordPressRSSPublisher := {|
  wordpress_url := lit "https://blog.example";
  username := lit "editor";
  application_password := lit "secret";
  api_base := lit "https://blog.example/wp-json/wp/v2";
  db_path := lit "rss_state.db";
  auth_header := auth_header_of lib0 (lit "editor") (lit "secret")
|}.

Definition mk_entry (link title description : String.string) : entry := {|
  e_link := Some (lit link);
  e_title := Some (lit title);
  e_description := Some (lit description);
  e_summary := None;
  e_published := Some (lit "2024-05-01T10:00:00");
  e_tags := [Term (Some (lit "rust go"))]
|}.

Definition E1 : entry := mk_entry "https://a.example/1" "one" "first".
Definition E2 : entry := mk_entry "https://a.example/2" "two" "second".
Definition E3 : entry := mk_entry "https://a.example/3" "three" "third".
(** An entry whose description holds a decimal character reference of 4301
    digits. *)
Definition E4 : entry := {|
  e_link := Some (lit "https://a.example/4");
  e_title := Some (lit "four");
  e_description := Some (lit "&#" ++ repeat 49 4301 ++ lit ";");
  e_summary := None;
  e_published := Some (lit "2024-05-01T10:00:00");
  e_tags := []
|}.

(** The answer to a post that was created: 201 and the body [{"id": 7}]. *)
Definition created : response := {|
  status_code := 201;
  text := lit "{" ++ [dq] ++ lit "id" ++ [dq] ++ lit ": 7}";
  json_body := Some (JObj [(lit "id", JInt 7)])
|}.
Definition status_only (code : Z) : response := {|
  status_code := code;
  text := lit "sorry";
  json_body := None
|}.

(** An [INTEGER] column keeps a float as it is, unless the world says
    otherwise, and reads a string of up to 18 digits as the integer. *)
Definition digits_affinity (s : str) : sqlvalue :=
  match s with
  | [] => SqlText s
  | _ :: _ =>
      if forallb is_digit s && (length s <=? 18)%nat then SqlInteger (Z.of_N (int_of 10 s))
      else SqlText s
  end.

(** A world that answers from the last thing the process did; the errors of
    its database come when the statement runs. *)
Definition last_event (h : list event) : event := last h SqlCreateTable.
Definition world_of (fault : event -> option str) (reply : event -> http_outcome)
    (es : list entry) : World := {|
  sqlite_fault := fun h => fault (last_event h);
  sqlite_fault_early := fun _ => false;
  real_affinity := SqlReal;
  text_affinity := digits_affinity;
  sqlite_timestamp := fun _ => lit "2024-05-02 08:00:00";
  http_reply := fun h => reply (last_event h);
  feed_reply := fun _ => inr {| bozo := false; bozo_exception := []; entries := es |};
  datetime_now_isoformat := fun _ => lit "2024-05-02T08:00:00"
|}.

(** A world in which the feed does not parse. *)
Definition unparsed_feed : World := {|
  sqlite_fault := fun _ => None;
  sqlite_fault_early := fun _ => false;
  real_affinity := SqlReal;
  text_affinity := digits_affinity;
  sqlite_timestamp := fun _ => lit "2024-05-02 08:00:00";
  http_reply := fun _ => Failed (lit "unreachable") None;
  feed_reply := fun _ => inl (lit "not well-formed");
  datetime_now_isoformat := fun _ => lit "2024-05-02T08:00:00"
|}.

Definition no_fault (_ : event) : option str := None.
Definition locked_on_select (e : event) : option str :=
  match e with SqlSelect _ => Some (lit "database is locked") | _ => None end.
Definition full_on_insert (e : event) : option str :=
  match e with SqlInsert _ _ _ _ => Some (lit "database or disk is full") | _ => None end.

Definition always_created (_ : event) : http_outcome := Responded created.
(** The server refuses the post titled "two" and accepts the others. *)
Definition refuses_two (e : event) : http_outcome :=
  match e with
  | HttpPost _ _ d =>
      if str_eqb (pd_title d) (lit "two") then Responded (status_only 500)
      else Responded created
  | _ => Responded (status_only 200)
  end.
Definition unauthorized (_ : event) : http_outcome := Responded (status_only 401).
(** The server answers 300 (Multiple Choices) with a JSON body. *)
Definition multiple_choices : response := {|
  status_code := 300;
  text := lit "{" ++ [dq] ++ lit "code" ++ [dq] ++ lit ": " ++ [dq] ++ lit "multiple_choices"
            ++ [dq] ++ lit "}";
  json_body := Some (JObj [(lit "code", JStr (lit "multiple_choices"))])
|}.
Definition undecided (_ : event) : http_outcome := Responded multiple_choices.

Definition is_log (e : event) : bool :=
  match e with Log _ _ => true | _ => false end.

Definition row1 : row := {|
  r_link := lit "https://a.example/1";
  r_title := lit "one";
  r_published_date := lit "2024-05-01T10:00:00";
  r_wordpress_post_id := SqlInteger 7;
  r_created_at := lit "2024-05-01 12:00:00"
|}.

Definition state_of (rows : list row) : state :=
  {| published_items := rows; history := [] |}.

Definition run (W : World) (rows : list row) : state * result unit :=
  post_feed_items lib0 W cfg0 self0 (RSS_FEED_URL cfg0) (lit "publish") (state_of rows).


(** ** Base64 *)

(** The base64 alphabet, and its inverse. *)
Definition b64_char (i : N) : char :=
  if i <? 26 then 65 + i
  else if i <? 52 then 97 + (i - 26)
  else if i <? 62 then 48 + (i - 52)
  else if i =? 62 then 43
  else 47.

Definition b64_index (c : char) : option N :=
  if in_range 65 90 c then Some (c - 65)
  else if in_range 97 122 c then Some (c - 97 + 26)
  else if in_range 48 57 c then Some (c - 48 + 52)
  else if c =? 43 then Some 62
  else if c =? 47 then Some 63
  else None.

(** [base64.b64encode]: three bytes give four characters, and the last one
    or two bytes are padded with ["="]. *)
Fixpoint b64encode_bytes (bs : list N) : str :=
  match bs with
  | [] => []
  | a :: r1 =>
      match r1 with
      | [] => [b64_char (a / 4); b64_char ((a mod 4) * 16); 61; 61]
      | b :: r2 =>
          match r2 with
          | [] =>
              [b64_char (a / 4); b64_char ((a mod 4) * 16 + b / 16);
               b64_char ((b mod 16) * 4); 61]
          | c :: r3 =>
              b64_char (a / 4) :: b64_char ((a mod 4) * 16 + b / 16)
                :: b64_char ((b mod 16) * 4 + c / 64) :: b64_char (c mod 64)
                :: b64encode_bytes r3
          end
      end
  end.

(** [base64.b64decode] of a padded text. *)
Fixpoint b64decode (s : str) : option (list N) :=
  match s with
  | [] => Some []
  | c1 :: c2 :: c3 :: c4 :: r =>
      match b64_index c1, b64_index c2 with
      | Some i1, Some i2 =>
          if (c3 =? 61) && (c4 =? 61) then
            match r with [] => Some [i1 * 4 + i2 / 16] | _ :: _ => None end
          else
            match b64_index c3 with
            | Some i3 =>
                if c4 =? 61 then
                  match r with
                  | [] => Some [i1 * 4 + i2 / 16; (i2 mod 16) * 16 + i3 / 4]
                  | _ :: _ => None
                  end
                else
                  match b64_index c4, b64decode r with
                  | Some i4, Some bs =>
                      Some (i1 * 4 + i2 / 16 :: (i2 mod 16) * 16 + i3 / 4
                              :: (i3 mod 4) * 64 + i4 :: bs)
                  | _, _ => None
                  end
            | None => None
            end
      | _, _ => None
      end
  | _ => None
  end.


(** The library with the encoder of the standard library. *)
Definition lib_py : Lib := {|
  unicode_alnum := fun _ => false;
  html5 := html5_basic;
  markdown_markdown := fun s => s;
  b64encode := b64encode_bytes
|}.

(** ** Words and tags *)

(** A word: not empty, and without white space. *)
Definition is_word (t : str) : bool :=
  match t with
  | [] => false
  | _ :: _ => forallb (fun c => negb (isspace c)) t
  end.

(** The words of one element of [entry.tags]. *)
Definition topic_words (t : topic) : list str :=
  match t with
  | Term (Some s) => split s
  | _ => []
  end.

(** An element whose ['term'] is [None]. *)
Definition is_none_term (t : topic) : bool :=
  match t with Term None => true | _ => false end.

(** ** Configurations *)

(** The configuration [C] with another [WORDPRESS_URL]. *)
Definition with_url (C : Config) (url : str) : Config := {|
  TAG_PREFIX := TAG_PREFIX C;
  WORDPRESS_URL := url;
  USERNAME := USERNAME C;
  APP_PASSWORD := APP_PASSWORD C;
  RSS_FEED_URL := RSS_FEED_URL C;
  DB_PATH := DB_PATH C
|}.


(** ** Start-up *)

(** The publisher that [__init__] builds from the configuration. *)
Definition publisher_of (L : Lib) (C : Config) : WordPressRSSPublisher := {|
  wordpress_url := rstrip_char 47 (WORDPRESS_URL C);
  username := USERNAME C;
  application_password := APP_PASSWORD C;
  api_base := rstrip_char 47 (WORDPRESS_URL C) ++ lit "/wp-json/wp/v2";
  db_path := DB_PATH C;
  auth_header := auth_header_of L (USERNAME C) (APP_PASSWORD C)
|}.

(** What [_verify_auth] logs and raises, by the outcome of its request. *)
Definition verify_outcome (o : http_outcome) : list event * option exn :=
  match o with
  | Responded r =>
      if (status_code r =? 401)%Z then
        ([Log ERROR AuthFailed; Log ERROR (ResponseText (text r))],
         Some (PlainException (lit "Authentication failed")))
      else if ((400 <=? status_code r) && (status_code r <? 600))%Z then
        ([Log ERROR (ErrorVerifyingAuth (HTTPError r)); Log ERROR (ResponseText (text r))],
         Some (HTTPError r))
      else ([Log INFO AuthSuccessful], None)
  | Failed msg r =>
      (Log ERROR (ErrorVerifyingAuth (TransportError msg r))
         :: match r with
            | Some r' => [Log ERROR (ResponseText (text r'))]
            | None => []
            end,
       Some (TransportError msg r))
  end.

(** A request that got no answer, or an answer with a status from 400 to 599. *)
Definition refused (o : http_outcome) : bool :=
  match o with
  | Responded r => ((400 <=? status_code r) && (status_code r <? 600))%Z
  | Failed _ _ => true
  end.


(** ** Runs *)

(** Every return of [create_post] in [evs] holds a result that can be
    recorded. *)
Definition returns_recordable (evs : list event) : bool :=
  forallb (fun ev =>
             match ev with
             | Return_create_post _ v => recordable v
             | _ => true
             end) evs.

(** An integer that fits the 64 bits of an SQLite [INTEGER]. *)
Definition fits_int64 (z : Z) : bool := ((- 2 ^ 63 <=? z) && (z <? 2 ^ 63))%Z.

(** ** More concrete inputs *)

Definition forbidden (_ : event) : http_outcome := Responded (status_only 403).

(** The server creates the post and answers 200 with a body that has no
    ['id']. *)
Definition without_id : response := {|
  status_code := 200;
  text := lit "{" ++ [dq] ++ lit "status" ++ [dq] ++ lit ": " ++ [dq] ++ lit "ok" ++ [dq]
            ++ lit "}";
  json_body := Some (JObj [(lit "status", JStr (lit "ok"))])
|}.
Definition answers_without_id (_ : event) : http_outcome := Responded without_id.

(** ** Substrings *)

(** [s.startswith(p)] and [p in s]. *)
Fixpoint starts_with (p s : str) : bool :=
  match p, s with
  | [], _ => true
  | _ :: _, [] => false
  | c :: p', d :: s' => (c =? d) && starts_with p' s'
  end.
Fixpoint contains (p s : str) : bool :=
  starts_with p s
  || match s with
     | [] => false
     | _ :: s' => contains p s'
     end.

(** Text that the transformations before Markdown have nothing to do with:
    no character reference can start, no URL can match, and there is no
    [<blockquote>] tag. *)
Definition plain_text (s : str) : bool :=
  negb (existsb (N.eqb 38) s) && negb (existsb (N.eqb 58) s)
  && negb (existsb (N.eqb 64) s) && negb (contains (lit "www.") s)
  && negb (contains blockquote_open s).

(** ** What a pass may do *)

(** An event of a turn of the loop: the only request is the [POST] to the
    posts endpoint of the site, with the credentials and the status asked
    for; nothing is printed. *)
Definition turn_event (self : WordPressRSSPublisher) (status : str) (ev : event) : Prop :=
  match ev with
  | HttpPost url headers data =>
      url = api_base self ++ lit "/posts" /\ headers = auth_header self
      /\ pd_status data = status
  | HttpGet _ _ | FeedParse _ | SqlCreateTable
  | PrintContent _ | PrintData _ | PrintTraceback _ => False
  | _ => True
  end.

(** The row describes the entry: its link, its title, and its date of
    publication when it has one. *)
Definition describes (row : row) (e : entry) : Prop :=
  r_link row = entry_link e
  /\ r_title row = get_default (e_title e) []
  /\ forall p, e_published e = Some p -> r_published_date row = p.

Definition cfg_no_prefix : Config := {|
  TAG_PREFIX := None;
  WORDPRESS_URL := lit "https://blog.example/";
  USERNAME := lit "editor";
  APP_PASSWORD := lit "secret";
  RSS_FEED_URL := lit "https://feeds.example/rss";
  DB_PATH := lit "rss_state.db"
|}.

(** ** Code points *)

(** A Unicode scalar value: a code point that is not a surrogate.  These
    are the characters that can be encoded. *)
Definition scalar (c : char) : bool :=
  negb (in_range 0xD800 0xDFFF c) && (c <=? 0x10FFFF).


(** ** The model on known inputs *)

Example unescape_examples :
  unescape html5_basic
    (lit "&amp;amp; &#38;#38; &lt;b&gt; &ampx &#x41;&#65 &#; &#x; &#0; &#128; &#xD800; &#11; &quot")
  = Some (lit "&amp; &#38; <b> &x AA &#; &#x; " ++ [0xfffd] ++ lit " " ++ [0x20ac] ++ lit " "
            ++ [0xfffd] ++ lit "  " ++ [dq]).
Proof. vm_compute. reflexivity. Qed.

(** A decimal reference of 4300 digits is decoded, one of 4301 digits makes
    [int] raise, and a hexadecimal one has no limit. *)
Example unescape_long_references :
  unescape html5_basic (lit "a &#" ++ repeat 49 4300 ++ lit "; b")
  = Some (lit "a " ++ [0xfffd] ++ lit " b")
  /\ unescape html5_basic (lit "a &#" ++ repeat 49 4301 ++ lit "; b") = None
  /\ unescape html5_basic (lit "a &#" ++ repeat 48 4301 ++ lit "; b") = None
  /\ unescape html5_basic (lit "a &#x" ++ repeat 49 4301 ++ lit "; b")
     = Some (lit "a " ++ [0xfffd] ++ lit " b").
Proof. repeat split; vm_compute; reflexivity. Qed.

Example split_example :
  split (lit " rust  go" ++ [9; 0xa0] ++ lit "web ") = [lit "rust"; lit "go"; lit "web"].
Proof. vm_compute. reflexivity. Qed.

Example urlize_examples (alnum : char -> bool) :
  urlize alnum (lit "www.example.com, and bob@example.org.")
  = lit "<www.example.com>, and <bob@example.org.>"
  /\ urlize alnum (lit "mailto:bob@x.org http://u:p@h.com:8080/a/b?c=d#e!")
     = lit "<mailto:bob@x.org> <http://u:p@h.com:8080/a/b?c=d#e!>"
  /\ urlize alnum (lit "see:http://x.com") = lit "<see:http>://x.com"
  /\ urlize alnum (lit "abcdefghijkl:x") = lit "abc<defghijkl:x>"
  /\ urlize alnum (lit "x http:///y") = lit "x http:///y".
Proof. repeat split; vm_compute; reflexivity. Qed.

Example blockquote_example :
  blockquote_markdown (lit "a<blockquote>b</blockquote><blockquote>c")
  = lit "a<blockquote markdown=" ++ [dq] ++ lit "1" ++ [dq] ++ lit ">b</blockquote>"
      ++ lit "<blockquote markdown=" ++ [dq] ++ lit "1" ++ [dq] ++ lit ">c".
Proof. vm_compute. reflexivity. Qed.

(** ** Properties of the scanner and of the matcher *)

Lemma sub_scan_skip m repl k s :
  sub_scan m repl k s = sub_scan m repl 0 (skipn k s).
Proof.
  revert k; induction s as [|c s IH]; intros k.
  - destruct k; reflexivity.
  - destruct k as [|k]; [reflexivity|]. simpl sub_scan at 1. rewrite IH. reflexivity.
Qed.

Lemma re_sub_nil m repl : re_sub m repl [] = [].
Proof. reflexivity. Qed.

Lemma re_sub_hit m repl s k :
  s <> [] -> m s = Some (S k) ->
  re_sub m repl s = repl (firstn (S k) s) ++ re_sub m repl (skipn (S k) s).
Proof.
  intros Hs Hm. destruct s as [|c s]; [congruence|].
  unfold re_sub. cbn [sub_scan]. rewrite Hm. rewrite sub_scan_skip. reflexivity.
Qed.

Lemma re_sub_miss m repl c s :
  (m (c :: s) = None \/ m (c :: s) = Some O) ->
  re_sub m repl (c :: s) = c :: re_sub m repl s.
Proof.
  intros [H|H]; unfold re_sub; cbn [sub_scan]; rewrite H; reflexivity.
Qed.

(** The matcher only accepts what the pattern denotes. *)
Lemma rep_match_sound {X} p lo hi s (k : str -> option X) x :
  rep_match p lo hi s k = Some x ->
  exists u v, s = u ++ v /\ matches (Rep p lo hi) u /\ k v = Some x.
Proof.
  revert lo hi; induction s as [|c s IH]; intros lo hi H.
  - cbn in H. destruct lo; [|discriminate].
    exists [], []. repeat split; auto. constructor; cbn; auto. destruct hi; [lia|exact I].
  - cbn [rep_match] in H.
    assert (Hstop : match lo with O => k (c :: s) | S _ => None end = Some x ->
                    exists u v, c :: s = u ++ v /\ matches (Rep p lo hi) u /\ k v = Some x).
    { intros Hk. destruct lo; [|discriminate].
      exists [], (c :: s). repeat split; auto. constructor; cbn; auto.
      destruct hi; [lia|exact I]. }
    destruct (p c && below hi) eqn:Hc; [|auto].
    destruct (rep_match p (pred lo) (dec hi) s k) eqn:Hr; [|auto].
    injection H as ->. apply IH in Hr as (u & v & -> & Hu & Hk).
    apply andb_true_iff in Hc as [Hpc Hb].
    exists (c :: u), v. repeat split; auto.
    inversion Hu; subst. constructor; cbn [forallb length].
    + rewrite Hpc; assumption.
    + lia.
    + destruct hi as [[|h]|]; cbn in *; first [discriminate | lia | exact I].
Qed.

Lemma re_match_sound {X} r s (k : str -> option X) x :
  re_match r s k = Some x ->
  exists u v, s = u ++ v /\ matches r u /\ k v = Some x.
Proof.
  revert s k x; induction r as [|p|a IHa b IHb|a IHa b IHb|a IHa|p lo hi]; intros s k x H;
    cbn [re_match] in H.
  - exists [], s. repeat split; auto. constructor.
  - destruct s as [|c s]; [discriminate|]. destruct (p c) eqn:Hp; [|discriminate].
    exists [c], s. repeat split; auto. constructor; assumption.
  - apply IHa in H as (u & v & -> & Hu & H). apply IHb in H as (u' & v' & -> & Hu' & H).
    exists (u ++ u'), v'. rewrite app_assoc. repeat split; auto. constructor; assumption.
  - destruct (re_match a s k) eqn:Ha.
    + injection H as ->. apply IHa in Ha as (u & v & -> & Hu & Hk).
      exists u, v. repeat split; auto. apply m_alt_l; assumption.
    + apply IHb in H as (u & v & -> & Hu & Hk).
      exists u, v. repeat split; auto. apply m_alt_r; assumption.
  - destruct (re_match a s k) eqn:Ha.
    + injection H as ->. apply IHa in Ha as (u & v & -> & Hu & Hk).
      exists u, v. repeat split; auto. apply m_opt_some; assumption.
    + exists [], s. repeat split; auto. apply m_opt_none.
  - apply rep_match_sound; assumption.
Qed.

(** The matcher finds a match whenever the pattern, followed by the rest of
    the search, has one. *)
Lemma rep_match_complete {X} p lo hi u v (k : str -> option X) x :
  matches (Rep p lo hi) u -> k v = Some x ->
  exists y, rep_match p lo hi (u ++ v) k = Some y.
Proof.
  intros Hu Hk. inversion Hu as [| | | | | | |p' lo' hi' u' Hall Hlo Hhi]; subst.
  clear Hu. revert lo hi Hlo Hhi; induction u as [|c u IH]; intros lo hi Hlo Hhi.
  - cbn in Hlo. assert (lo = O) by lia; subst lo. cbn [app].
    destruct v as [|d v]; cbn [rep_match].
    + eauto.
    + destruct (p d && below hi); [|eauto].
      destruct (rep_match p (pred 0) (dec hi) v k); eauto.
  - cbn [forallb] in Hall. apply andb_true_iff in Hall as [Hc Hall].
    cbn [app rep_match]. rewrite Hc.
    assert (Hb : below hi = true).
    { destruct hi as [[|h]|]; cbn in *; auto; lia. }
    rewrite Hb. cbn [andb].
    destruct (IH Hall (pred lo) (dec hi)) as [y Hy].
    + cbn in Hlo. lia.
    + destruct hi as [h|]; cbn in *; [lia|exact I].
    + rewrite Hy. eauto.
Qed.

Lemma re_match_complete {X} r u v (k : str -> option X) x :
  matches r u -> k v = Some x ->
  exists y, re_match r (u ++ v) k = Some y.
Proof.
  intros Hu; revert v k x.
  induction Hu as [|p c Hp|a b u1 u2 Ha IHa Hb IHb|a b u Ha IHa|a b u Hb IHb
                   |a u Ha IHa|a|p lo hi u Hall Hlo Hhi]; intros v k x Hk; cbn [re_match].
  - eauto.
  - cbn. rewrite Hp. eauto.
  - rewrite <- app_assoc. destruct (IHb v k x Hk) as [y Hy].
    eapply IHa. exact Hy.
  - destruct (IHa v k x Hk) as [y ->]. eauto.
  - destruct (re_match a (u ++ v) k); [eauto|]. eapply IHb; eassumption.
  - destruct (IHa v k x Hk) as [y ->]. eauto.
  - cbn [app]. destruct (re_match a v k); eauto.
  - eapply rep_match_complete; [constructor|]; eassumption.
Qed.

Lemma nullable_false r u : nullable r = false -> matches r u -> u <> [].
Proof.
  intros Hn Hm; revert Hn.
  induction Hm as [|p c Hp|a b u1 u2 Ha IHa Hb IHb|a b u Ha IHa|a b u Hb IHb
                   |a u Ha IHa|a|p lo hi u Hall Hlo Hhi]; cbn [nullable]; intros Hn;
    try discriminate.
  - apply andb_false_iff in Hn as [Hn|Hn].
    + intros E. apply app_eq_nil in E as [E _]. exact (IHa Hn E).
    + intros E. apply app_eq_nil in E as [_ E]. exact (IHb Hn E).
  - apply orb_false_iff in Hn as [Hn _]. auto.
  - apply orb_false_iff in Hn as [_ Hn]. auto.
  - destruct lo; [discriminate|]. intros ->. cbn in Hlo. lia.
Qed.

Lemma match_len_some r s n :
  match_len r s = Some n ->
  exists u v, s = u ++ v /\ matches r u /\ length u = n.
Proof.
  unfold match_len. destruct (re_match r s Some) as [rest|] eqn:H; [|discriminate].
  cbn. intros [= <-]. apply re_match_sound in H as (u & v & -> & Hu & [= ->]).
  exists u, rest. repeat split; auto. rewrite length_app. lia.
Qed.

Lemma match_len_none r s :
  match_len r s = None -> forall u v, s = u ++ v -> ~ matches r u.
Proof.
  unfold match_len. destruct (re_match r s Some) eqn:H; [discriminate|].
  intros _ u v -> Hu.
  destruct (re_match_complete r u v Some v Hu eq_refl) as [y Hy]. congruence.
Qed.

(** [re.sub] with a pattern that cannot match the empty string performs the
    pass that [rewritten] describes. *)
Lemma re_sub_rewritten r repl :
  nullable r = false ->
  forall s, rewritten r repl s (re_sub (match_len r) repl s).
Proof.
  intros Hn s.
  remember (length s) as n eqn:Hlen. revert s Hlen.
  induction n as [n IH] using lt_wf_ind. intros s Hlen.
  destruct s as [|c s]; [constructor|].
  destruct (match_len r (c :: s)) as [[|k]|] eqn:Hm.
  - exfalso. apply match_len_some in Hm as (u & v & _ & Hu & Hl).
    apply (nullable_false r u Hn Hu). destruct u; [reflexivity|discriminate].
  - rewrite (re_sub_hit _ _ _ k) by (congruence || assumption).
    apply match_len_some in Hm as (u & v & E & Hu & Hl).
    assert (Hf : firstn (S k) (c :: s) = u).
    { rewrite E, <- Hl. rewrite firstn_app, Nat.sub_diag, firstn_all. cbn. apply app_nil_r. }
    assert (Hs : skipn (S k) (c :: s) = v).
    { rewrite E, <- Hl. rewrite skipn_app, Nat.sub_diag, skipn_all. reflexivity. }
    rewrite Hf, Hs, E. constructor.
    + intros ->. discriminate.
    + assumption.
    + apply (IH (length v)); [|reflexivity].
      subst n. rewrite E, length_app. lia.
  - rewrite re_sub_miss by auto. constructor.
    + apply match_len_none; assumption.
    + apply (IH (length s)); [subst n; cbn; lia|reflexivity].
Qed.

(** ** Reasoning about computations *)

Lemma str_eqb_eq a b : str_eqb a b = true <-> a = b.
Proof.
  revert b; induction a as [|x a IH]; intros [|y b]; cbn; split; intros H;
    try discriminate; try reflexivity.
  - apply andb_true_iff in H as [H1 H2]. apply N.eqb_eq in H1. apply IH in H2. congruence.
  - injection H as -> ->. rewrite N.eqb_refl. cbn. apply IH. reflexivity.
Qed.

Lemma str_eqb_refl a : str_eqb a a = true.
Proof. apply str_eqb_eq. reflexivity. Qed.

Lemma has_link_In l rows : has_link l rows = true <-> In l (map r_link rows).
Proof.
  unfold has_link. rewrite existsb_exists, in_map_iff. split.
  - intros (r & Hr & E). apply str_eqb_eq in E. eauto.
  - intros (r & E & Hr). exists r. split; [assumption|]. apply str_eqb_eq. assumption.
Qed.

Lemma has_link_app l a b : has_link l (a ++ b) = has_link l a || has_link l b.
Proof. unfold has_link. apply existsb_app. Qed.

Lemma flow_app a b : flow (a ++ b) = flow a ++ flow b.
Proof. apply filter_app. Qed.

Lemma calls_app a b : calls (a ++ b) = calls a ++ calls b.
Proof. apply filter_app. Qed.

Lemma calls_flow h : calls (flow h) = calls h.
Proof.
  unfold calls, flow. induction h as [|e h IH]; [reflexivity|].
  destruct e; cbn; rewrite ?IH; reflexivity.
Qed.

Section Runs.
Variable L : Lib.
Variable W : World.
Variable C : Config.

Lemma _is_item_published_eq self link st :
  _is_item_published W self link st =
  let h := history st ++ [SqlSelect link] in
  match sqlite_fault W h with
  | None =>
      ({| published_items := published_items st; history := h |},
       Ok (has_link link (published_items st)))
  | Some msg =>
      ({| published_items := published_items st;
          history := h ++ [Log ERROR (DatabaseQueryError (SqliteError msg))] |},
       Ok false)
  end.
Proof.
  unfold _is_item_published, NO_POST, try_except, sqlite_execute, bind, emit, consult,
    get_rows, ret, raise. cbn.
  destruct (sqlite_fault W (history st ++ [SqlSelect link])); reflexivity.
Qed.

Lemma create_post_dict_eq self title content link tags status st :
  create_post_dict L C self title content link tags status st =
  (st, Ok {| pd_title := title;
             pd_content :=
               content_with_source title
                 (markdown_markdown L (blockquote_markdown (urlize (unicode_alnum L) content)))
                 link (join (lit " ") (tag_htmls C tags));
             pd_status := status |}).
Proof. reflexivity. Qed.

Lemma create_post_eq self title content link tags status st :
  create_post L W C self title content link tags status st =
  let data := {| pd_title := title;
             pd_content :=
               content_with_source title
                 (markdown_markdown L (blockquote_markdown (urlize (unicode_alnum L) content)))
                 link (join (lit " ") (tag_htmls C tags));
             pd_status := status |} in
  let h := history st ++ [Call_create_post title content link tags status]
             ++ [HttpPost (api_base self ++ lit "/posts") (auth_header self) data] in
  let '(logs, v) := post_outcome (http_reply W h) in
  ({| published_items := published_items st;
      history := h ++ logs ++ [Return_create_post link v] |}, Ok v).
Proof.
  unfold create_post, create_post_body, create_post_dict, when, NO_POST, try_except,
    requests_post, raise_for_status, response_json, log_response,
    bind, emit, consult, ret, raise. cbn [history published_items].
  rewrite <- !app_assoc. cbn [app].
  destruct (http_reply W _) as [r|msg [r|]]; cbn [post_outcome].
  - destruct (status_code r =? 401)%Z; cbn.
    + rewrite <- !app_assoc. reflexivity.
    + destruct ((400 <=? status_code r) && (status_code r <? 600))%Z; cbn.
      * rewrite <- !app_assoc. reflexivity.
      * destruct (json_body r); cbn; rewrite <- ?app_assoc; reflexivity.
  - cbn. rewrite <- !app_assoc. reflexivity.
  - cbn. rewrite <- !app_assoc. reflexivity.
Qed.
End Runs.

Lemma post_outcome_flow o : flow (fst (post_outcome o)) = [].
Proof.
  destruct o as [r|msg [r|]]; cbn; try reflexivity.
  destruct (status_code r =? 401)%Z; [reflexivity|].
  destruct ((400 <=? status_code r) && (status_code r <? 600))%Z; [reflexivity|].
  destruct (json_body r); reflexivity.
Qed.

Lemma recordable_id v :
  recordable v = true -> exists i, id_of v = Some i /\ bindable i = true.
Proof.
  unfold recordable, id_of. destruct v; try discriminate.
  destruct (dict_get (lit "id") members) as [i|]; [|discriminate]. eauto.
Qed.

Lemma bind_parameter_cases id st :
  (bindable id = true /\ bind_parameter id st = (st, Ok tt))
  \/ (bindable id = false /\ exists e, bind_parameter id st = (st, Raise e)).
Proof.
  destruct id; unfold bind_parameter, bindable; auto;
    try (right; split; [reflexivity|]; eexists; reflexivity).
  - destruct ((- 2 ^ 63 <=? z) && (z <? 2 ^ 63))%Z; [auto|].
    right. split; [reflexivity|]. eexists. reflexivity.
  - destruct (utf8_encode s); [auto|].
    right. split; [reflexivity|]. eexists. reflexivity.
Qed.

Lemma bind_parameter_eq id st :
  bind_parameter id st =
  (st, match bind_error id with None => Ok tt | Some e => Raise e end).
Proof.
  destruct id; unfold bind_parameter, bind_error; try reflexivity.
  - destruct ((- 2 ^ 63 <=? z) && (z <? 2 ^ 63))%Z; reflexivity.
  - destruct (utf8_encode s); reflexivity.
Qed.

Lemma bindable_bind_error id : bindable id = true <-> bind_error id = None.
Proof.
  destruct id; unfold bindable, bind_error; try (split; congruence).
  - destruct ((- 2 ^ 63 <=? z) && (z <? 2 ^ 63))%Z; split; congruence.
  - destruct (utf8_encode s); split; congruence.
Qed.

Lemma bind_error_cases id x :
  bind_error id = Some x -> is_sqlite3_Error x = false ->
  (x = OverflowError /\ exists z, id = JInt z /\ fits_int64 z = false)
  \/ (x = UnicodeEncodeError /\ exists s, id = JStr s /\ utf8_encode s = None).
Proof.
  destruct id; unfold bind_error, fits_int64; try discriminate.
  - destruct ((- 2 ^ 63 <=? z) && (z <? 2 ^ 63))%Z eqn:Hz; [discriminate|].
    intros [= <-] _. left. eauto.
  - destruct (utf8_encode s) eqn:Hs; [discriminate|].
    intros [= <-] _. right. eauto.
  - intros [= <-]. discriminate.
  - intros [= <-]. discriminate.
Qed.

Section Record.
Variable L : Lib.
Variable W : World.
Variable C : Config.

(** [_record_published_item], case by case. *)
Lemma _record_published_item_eq self link title pd id st :
  _record_published_item W self link title pd id st =
  let h := history st ++ [SqlInsert link title pd id] in
  let swallowed e :=
    ({| published_items := published_items st;
        history := h ++ [Log ERROR (ErrorRecording e)] |}, Ok tt) in
  let bound (k : state * result unit) :=
    match bind_error id with
    | None => k
    | Some e =>
        if is_sqlite3_Error e then swallowed e
        else ({| published_items := published_items st; history := h |}, Raise e)
    end in
  match sqlite_fault W h with
  | Some msg =>
      if sqlite_fault_early W h then swallowed (SqliteError msg)
      else bound (swallowed (SqliteError msg))
  | None =>
      bound
        (if has_link link (published_items st) then
           swallowed
             (SqliteError (lit "UNIQUE constraint failed: published_items.link"))
         else
           ({| published_items :=
                 published_items st ++
                   [{| r_link := link; r_title := title; r_published_date := pd;
                       r_wordpress_post_id := column_integer W id;
                       r_created_at := sqlite_timestamp W h |}];
               history := h ++ [Log INFO (RecordedItem title)] |}, Ok tt))
  end.
Proof.
  unfold _record_published_item, NO_POST, sqlite_insert, try_except.
  unfold bind, emit, consult, get_rows, put_rows, ret, raise.
  cbn [history published_items]. cbn zeta.
  destruct (sqlite_fault W (history st ++ [SqlInsert link title pd id])) as [msg|].
  - destruct (sqlite_fault_early W (history st ++ [SqlInsert link title pd id])).
    + reflexivity.
    + rewrite bind_parameter_eq. destruct (bind_error id) as [e|]; [|reflexivity].
      destruct (is_sqlite3_Error e); reflexivity.
  - rewrite bind_parameter_eq. destruct (bind_error id) as [e|].
    + destruct (is_sqlite3_Error e); reflexivity.
    + cbn [published_items history]. unfold has_link.
      destruct (existsb _ (published_items st)); reflexivity.
Qed.

(** [_record_published_item] raises only what binding the id raises,
    and then leaves the statement as the last thing that happened. *)
Lemma record_raises self link title pd id st st' x :
  _record_published_item W self link title pd id st = (st', Raise x) ->
  bind_error id = Some x /\ is_sqlite3_Error x = false
  /\ st' = {| published_items := published_items st;
              history := history st ++ [SqlInsert link title pd id] |}
  /\ (sqlite_fault W (history st ++ [SqlInsert link title pd id]) = None
      \/ sqlite_fault_early W (history st ++ [SqlInsert link title pd id]) = false).
Proof.
  rewrite _record_published_item_eq. cbn zeta.
  destruct (sqlite_fault W (history st ++ [SqlInsert link title pd id])) as [msg|].
  - destruct (sqlite_fault_early W _); [discriminate|].
    destruct (bind_error id) as [e|]; [|discriminate].
    destruct (is_sqlite3_Error e) eqn:He; [discriminate|].
    intros [= <- <-]. auto.
  - destruct (bind_error id) as [e|].
    + destruct (is_sqlite3_Error e) eqn:He; [discriminate|].
      intros [= <- <-]. auto.
    + destruct (has_link link (published_items st)); discriminate.
Qed.

Lemma record_spec self link title pd id st :
  exists st' r evs,
    _record_published_item W self link title pd id st = (st', r)
    /\ history st' = history st ++ evs
    /\ flow evs = [SqlInsert link title pd id]
    /\ (published_items st' = published_items st
        \/ has_link link (published_items st) = false
           /\ exists row,
                published_items st' = published_items st ++ [row]
                /\ r_link row = link
                /\ r_wordpress_post_id row = column_integer W id)
    /\ (never_faults_on_insert W -> bindable id = true ->
        has_link link (published_items st') = true /\ r = Ok tt).
Proof.
  rewrite _record_published_item_eq. cbn zeta.
  assert (Hsw : forall e,
    exists st' r evs,
      ({| published_items := published_items st;
          history := (history st ++ [SqlInsert link title pd id])
                       ++ [Log ERROR (ErrorRecording e)] |}, Ok tt) = (st', r)
      /\ history st' = history st ++ evs
      /\ flow evs = [SqlInsert link title pd id]
      /\ published_items st' = published_items st).
  { intros e. do 3 eexists. split; [reflexivity|]. cbn [history published_items].
    rewrite <- app_assoc. split; [reflexivity|]. split; reflexivity. }
  destruct (sqlite_fault W (history st ++ [SqlInsert link title pd id])) as [msg|] eqn:Hf.
  - assert (Hres : exists st' r evs,
      (if sqlite_fault_early W (history st ++ [SqlInsert link title pd id])
       then ({| published_items := published_items st;
                history := (history st ++ [SqlInsert link title pd id])
                             ++ [Log ERROR (ErrorRecording (SqliteError msg))] |}, Ok tt)
       else match bind_error id with
            | None =>
                ({| published_items := published_items st;
                    history := (history st ++ [SqlInsert link title pd id])
                                 ++ [Log ERROR (ErrorRecording (SqliteError msg))] |},
                 Ok tt)
            | Some e =>
                if is_sqlite3_Error e then
                  ({| published_items := published_items st;
                      history := (history st ++ [SqlInsert link title pd id])
                                   ++ [Log ERROR (ErrorRecording e)] |}, Ok tt)
                else
                  ({| published_items := published_items st;
                      history := history st ++ [SqlInsert link title pd id] |}, Raise e)
            end) = (st', r)
      /\ history st' = history st ++ evs
      /\ flow evs = [SqlInsert link title pd id]
      /\ published_items st' = published_items st).
    { destruct (sqlite_fault_early W _); [apply Hsw|].
      destruct (bind_error id) as [e|]; [|apply Hsw].
      destruct (is_sqlite3_Error e); [apply Hsw|].
      do 3 eexists. split; [reflexivity|]. cbn [history published_items].
      split; [reflexivity|]. split; reflexivity. }
    destruct Hres as (st' & r & evs & E & Hh & Hfl & Hrows).
    exists st', r, evs. split; [exact E|]. split; [exact Hh|]. split; [exact Hfl|].
    split; [left; exact Hrows|].
    intros Hn. rewrite (Hn _ _ _ _ _) in Hf. discriminate.
  - destruct (bind_error id) as [e|] eqn:Hb.
    + assert (Hres : exists st' r evs,
        (if is_sqlite3_Error e then
           ({| published_items := published_items st;
               history := (history st ++ [SqlInsert link title pd id])
                            ++ [Log ERROR (ErrorRecording e)] |}, Ok tt)
         else
           ({| published_items := published_items st;
               history := history st ++ [SqlInsert link title pd id] |}, Raise e))
        = (st', r)
        /\ history st' = history st ++ evs
        /\ flow evs = [SqlInsert link title pd id]
        /\ published_items st' = published_items st).
      { destruct (is_sqlite3_Error e); [apply Hsw|].
        do 3 eexists. split; [reflexivity|]. cbn [history published_items].
        split; [reflexivity|]. split; reflexivity. }
      destruct Hres as (st' & r & evs & E & Hh & Hfl & Hrows).
      exists st', r, evs. split; [exact E|]. split; [exact Hh|]. split; [exact Hfl|].
      split; [left; exact Hrows|].
      intros _ Hbd. apply bindable_bind_error in Hbd. congruence.
    + destruct (has_link link (published_items st)) eqn:Hl.
      * destruct (Hsw (SqliteError (lit "UNIQUE constraint failed: published_items.link")))
          as (st' & r & evs & E & Hh & Hfl & Hrows).
        exists st', r, evs. split; [exact E|]. split; [exact Hh|]. split; [exact Hfl|].
        split; [left; exact Hrows|].
        intros _ _. injection E as <- <-. cbn [published_items]. auto.
      * do 3 eexists. split; [reflexivity|]. cbn [history published_items].
        rewrite <- app_assoc. split; [reflexivity|]. split; [reflexivity|].
        split.
        -- right. split; [reflexivity|]. eexists. split; [reflexivity|]. auto.
        -- intros _ _. split; [|reflexivity].
           rewrite has_link_app. cbn. rewrite str_eqb_refl. apply orb_true_r.
Qed.
End Record.

Section Loop.
Variable L : Lib.
Variable W : World.
Variable C : Config.

Lemma subscript_id_cases v st :
  (exists i, id_of v = Some i /\ subscript v (lit "id") st = (st, Ok i))
  \/ (id_of v = None /\ exists x, subscript v (lit "id") st = (st, Raise x)).
Proof.
  unfold subscript, id_of. destruct v; try (right; split; [reflexivity|]; eexists; reflexivity).
  destruct (dict_get (lit "id") members).
  - left. eexists. split; reflexivity.
  - right. split; [reflexivity|]. eexists. reflexivity.
Qed.

(** A turn that submits the entry, up to the return of [create_post]:
    the tags, the decoding (which may raise), the call and its request;
    then the rest of the turn. *)
Lemma publish_entry_eq self status e st :
  publish_entry L W C self status e (entry_link e) st =
  let title := get_default (e_title e) [] in
  let tags := fst (extend_tags (e_tags e) []) in
  let h0 := history st ++ tag_log e ++ [Log INFO (ExtractedTags title tags)] in
  match _clean_content L (entry_content e) with
  | Raise x => ({| published_items := published_items st; history := h0 |}, Raise x)
  | Ok text =>
      let h :=
        h0 ++ [Log INFO (CreatingPost title);
               Call_create_post title text (entry_link e) tags status;
               HttpPost (api_base self ++ lit "/posts") (auth_header self)
                 (post_of L C title text (entry_link e) tags status)] in
      (if truthy (snd (post_outcome (http_reply W h))) then
         (emit (Log INFO (CreatedPost title)) ;;
          post_id <- subscript (snd (post_outcome (http_reply W h))) (lit "id") ;;
          _record_published_item W self (entry_link e) title
            (get_default (e_published e) (datetime_now_isoformat W (history st)))
            post_id)%py
       else emit (Log ERROR (FailedToCreatePost title)))
        {| published_items := published_items st;
           history :=
             h ++ fst (post_outcome (http_reply W h))
               ++ [Return_create_post (entry_link e)
                     (snd (post_outcome (http_reply W h)))] |}
  end.
Proof.
  unfold publish_entry, _extract_tags_from_rss, tag_log. fold (entry_content e).
  destruct (extend_tags (e_tags e) []) as [tags failure]. cbn [fst snd]. cbn zeta.
  set (title := get_default (e_title e) []).
  unfold bind at 1. unfold consult at 1. cbn iota.
  unfold bind at 1.
  assert (Hpre :
    (match failure with
     | Some e0 => emit (Log WARNING (ErrorExtractingTags e0))
     | None => ret tt
     end;; ret tags)%py st =
    ({| published_items := published_items st;
        history := history st ++ match failure with
                                 | Some x => [Log WARNING (ErrorExtractingTags x)]
                                 | None => []
                                 end |}, Ok tags)).
  { destruct failure; cbn; [reflexivity|]. rewrite app_nil_r. destruct st; reflexivity. }
  rewrite Hpre.
  unfold bind at 1. unfold emit at 1. cbn [history published_items].
  unfold bind at 1. unfold lift at 1.
  destruct (_clean_content L (entry_content e)) as [text|x].
  2:{ rewrite <- app_assoc. reflexivity. }
  unfold bind at 1. unfold emit at 1. cbn [history published_items].
  unfold bind at 1. rewrite create_post_eq. cbn zeta. cbn [history published_items].
  fold (post_of L C title text (entry_link e) tags status).
  rewrite <- !app_assoc. cbn [app].
  match goal with
  | |- context [post_outcome ?o] => destruct (post_outcome o) as [logs v]
  end.
  cbn [fst snd]. rewrite <- !app_assoc. cbn [app]. reflexivity.
Qed.

(** The rest of a turn, after [create_post] has returned [v]. *)
Lemma publish_rest self title link pd v st1 st' r :
  (if truthy v then
     (emit (Log INFO (CreatedPost title)) ;;
      post_id <- subscript v (lit "id") ;;
      _record_published_item W self link title pd post_id)%py
   else emit (Log ERROR (FailedToCreatePost title))) st1 = (st', r) ->
  (truthy v = false
   /\ st' = {| published_items := published_items st1;
               history := history st1 ++ [Log ERROR (FailedToCreatePost title)] |}
   /\ r = Ok tt)
  \/ (truthy v = true /\ id_of v = None
      /\ st' = {| published_items := published_items st1;
                  history := history st1 ++ [Log INFO (CreatedPost title)] |}
      /\ (r = Raise (KeyError (lit "id")) \/ r = Raise TypeError))
  \/ (truthy v = true
      /\ exists i,
           id_of v = Some i
           /\ _record_published_item W self link title pd i
                {| published_items := published_items st1;
                   history := history st1 ++ [Log INFO (CreatedPost title)] |}
              = (st', r)).
Proof.
  destruct (truthy v) eqn:Ht.
  - unfold bind at 1. unfold emit at 1. unfold bind at 1.
    unfold subscript, id_of. destruct v as [| | | | | |d];
      try (intros [= <- <-]; right; left; auto).
    destruct (dict_get (lit "id") d) as [i|].
    + unfold ret. intros H. right. right. split; [reflexivity|]. exists i. auto.
    + intros [= <- <-]. right. left. auto.
  - unfold emit. intros [= <- <-]. left. auto.
Qed.

Lemma publish_entry_spec self status e st st' r :
  publish_entry L W C self status e (entry_link e) st = (st', r) ->
  (_clean_content L (entry_content e) = Raise ValueError
   /\ r = Raise ValueError
   /\ published_items st' = published_items st
   /\ exists evs, history st' = history st ++ evs /\ flow evs = [])
  \/ exists evs v,
    (exists text, _clean_content L (entry_content e) = Ok text)
    /\ history st' = history st ++ evs
    /\ (exists ins,
          flow evs = [submission L status e; Return_create_post (entry_link e) v] ++ ins
          /\ (ins = []
              \/ truthy v = true
                 /\ exists t p i,
                      id_of v = Some i /\ ins = [SqlInsert (entry_link e) t p i]))
    /\ (published_items st' = published_items st
        \/ truthy v = true
           /\ has_link (entry_link e) (published_items st) = false
           /\ exists row,
                published_items st' = published_items st ++ [row]
                /\ r_link row = entry_link e
                /\ exists i, id_of v = Some i
                             /\ r_wordpress_post_id row = column_integer W i)
    /\ (truthy v = false -> r = Ok tt)
    /\ (never_faults_on_insert W -> recordable v = true ->
        has_link (entry_link e) (published_items st') = true /\ r = Ok tt).
Proof.
  intros H. rewrite publish_entry_eq in H. cbn zeta in H.
  assert (Htag : flow (tag_log e) = []).
  { unfold tag_log. destruct (snd (extend_tags (e_tags e) [])); reflexivity. }
  destruct (_clean_content L (entry_content e)) as [text|x] eqn:Hdec.
  2:{ assert (x = ValueError).
      { unfold _clean_content in Hdec. destruct (unescape _ _); congruence. }
      subst x. injection H as <- <-. left. repeat split.
      eexists. cbn [history]. split; [reflexivity|].
      rewrite flow_app, Htag. reflexivity. }
  right.
  match type of H with
  | context [post_outcome ?o] =>
      pose proof (post_outcome_flow o) as Hlogs; destruct (post_outcome o) as [logs v]
  end.
  cbn [fst snd] in Hlogs, H.
  match type of H with
  | context [{| published_items := _; history := ?h |}] => set (h1 := h) in H
  end.
  assert (Hh1 : exists evs1, h1 = history st ++ evs1 /\
            flow evs1 = [submission L status e; Return_create_post (entry_link e) v]).
  { eexists. subst h1. rewrite <- !app_assoc. split; [reflexivity|].
    rewrite !flow_app, Htag, Hlogs. unfold submission, decoded. rewrite Hdec.
    reflexivity. }
  destruct Hh1 as (evs1 & Hh1 & Hflow1). clearbody h1.
  apply publish_rest in H.
  destruct H as [(Ht & -> & ->)|[(Ht & Hid & -> & Hr)|(Ht & i & Hid & E)]];
    cbn [history published_items].
  - exists (evs1 ++ [Log ERROR (FailedToCreatePost (get_default (e_title e) []))]), v.
    split; [eauto|].
    split; [rewrite Hh1, <- !app_assoc; reflexivity|].
    split; [exists []; split; [rewrite !flow_app, Hflow1; reflexivity|left; reflexivity]|].
    split; [left; reflexivity|].
    split; [reflexivity|].
    intros _ Hrc. destruct v; try discriminate.
    unfold recordable in Hrc. cbn in Ht. destruct members; [|discriminate].
    cbn in Hrc. discriminate.
  - exists (evs1 ++ [Log INFO (CreatedPost (get_default (e_title e) []))]), v.
    split; [eauto|].
    split; [rewrite Hh1, <- !app_assoc; reflexivity|].
    split; [exists []; split; [rewrite !flow_app, Hflow1; reflexivity|left; reflexivity]|].
    split; [left; reflexivity|].
    split; [congruence|].
    intros _ Hrc. apply recordable_id in Hrc as (i' & Hi' & _). congruence.
  - match type of E with
    | _record_published_item W self ?l ?t ?p ?i ?s = _ =>
        destruct (record_spec W self l t p i s)
          as (st2 & r2 & evs2 & E2 & Hhist & Hfl & Hrows & Hrec)
    end.
    rewrite E in E2. injection E2 as <- <-. cbn [history published_items] in *.
    exists (evs1 ++ [Log INFO (CreatedPost (get_default (e_title e) []))] ++ evs2), v.
    split; [eauto|].
    split; [rewrite Hhist, Hh1, <- !app_assoc; reflexivity|].
    split.
    { eexists. split; [rewrite !flow_app, Hflow1, Hfl; reflexivity|].
      right. split; [exact Ht|]. do 3 eexists. split; [exact Hid|reflexivity]. }
    split.
    { destruct Hrows as [Hrows|(Hl & row & Hrows & Hrl & Hri)]; [left; assumption|].
      right. split; [exact Ht|]. split; [assumption|].
      exists row. split; [assumption|]. split; [assumption|]. eauto. }
    split; [congruence|].
    intros Hnf Hrc. apply recordable_id in Hrc as (i' & Hi' & Hb).
    apply Hrec; [assumption|congruence].
Qed.

(** What a turn that goes on to publish can raise. *)
Lemma publish_entry_raises self status e st st' x :
  publish_entry L W C self status e (entry_link e) st = (st', Raise x) ->
  x = ValueError \/ x = KeyError (lit "id") \/ x = TypeError
  \/ x = OverflowError \/ x = UnicodeEncodeError.
Proof.
  rewrite publish_entry_eq. cbn zeta.
  destruct (_clean_content L (entry_content e)) as [text|y] eqn:Hdec.
  2:{ unfold _clean_content in Hdec. destruct (unescape _ _); [discriminate|].
      intros [= _ <-]. injection Hdec as <-. auto. }
  intros H. apply publish_rest in H.
  destruct H as [(_ & _ & Hr)|[(_ & _ & _ & [Hr|Hr])|(_ & i & _ & E)]];
    try discriminate; try (injection Hr as <-; auto).
  apply record_raises in E. destruct E as (Hb & Hs & _).
  destruct (bind_error_cases _ _ Hb Hs) as [(-> & _)|(-> & _)]; auto.
Qed.

Lemma process_entry_eq self status e st :
  process_entry L W C self status e st =
  match sqlite_fault W (history st ++ [SqlSelect (entry_link e)]) with
  | None =>
      if has_link (entry_link e) (published_items st) then
        ({| published_items := published_items st;
            history := history st ++ [SqlSelect (entry_link e)] |}, Ok tt)
      else
        publish_entry L W C self status e (entry_link e)
          {| published_items := published_items st;
             history := history st ++ [SqlSelect (entry_link e)] |}
  | Some msg =>
      publish_entry L W C self status e (entry_link e)
        {| published_items := published_items st;
           history := history st ++ [SqlSelect (entry_link e);
                                     Log ERROR (DatabaseQueryError (SqliteError msg))] |}
  end.
Proof.
  unfold process_entry. fold (entry_link e). unfold bind.
  rewrite _is_item_published_eq. cbn zeta.
  destruct (sqlite_fault W (history st ++ [SqlSelect (entry_link e)])) as [msg|].
  - rewrite <- app_assoc. reflexivity.
  - destruct (has_link (entry_link e) (published_items st)); reflexivity.
Qed.

(** The calls of a turn that goes on to publish: one submission when the
    text decodes, none when decoding raises. *)
Lemma publish_entry_calls self status e st st' r :
  publish_entry L W C self status e (entry_link e) st = (st', r) ->
  exists evs,
    history st' = history st ++ evs
    /\ match _clean_content L (entry_content e) with
       | Ok _ => calls evs = [submission L status e]
       | Raise _ => calls evs = [] /\ r = Raise ValueError
       end.
Proof.
  intros H. apply publish_entry_spec in H.
  destruct H as [(Hdec & -> & _ & evs & Hh & Hfl)
                |(evs & v & (text & Hdec) & Hh & (ins & Hfl & Hins) & _)].
  - exists evs. split; [exact Hh|]. rewrite Hdec.
    rewrite <- calls_flow, Hfl. auto.
  - exists evs. split; [exact Hh|]. rewrite Hdec.
    rewrite <- calls_flow, Hfl.
    destruct Hins as [->|(_ & t0 & p0 & i0 & _ & ->)]; reflexivity.
Qed.

Lemma process_entry_step self status e st st' r :
  process_entry L W C self status e st = (st', r) ->
  entry_step L W status e st st' r.
Proof.
  unfold process_entry. fold (entry_link e). unfold bind.
  rewrite _is_item_published_eq. cbn zeta.
  assert (Hsub : forall pre,
    flow pre = [] ->
    sqlite_fault W (history st ++ [SqlSelect (entry_link e)]) <> None
      \/ has_link (entry_link e) (published_items st) = false ->
    publish_entry L W C self status e (entry_link e)
      {| published_items := published_items st; history := history st ++ pre |}
    = (st', r) ->
    entry_step L W status e st st' r).
  { intros pre Hpre Hcase H. apply publish_entry_spec in H.
    cbn [history published_items] in H.
    destruct H as [(Hdec & -> & Hrows & evs & Hh & Hfl)
                  |(evs & v & Hdec & Hh & (ins & Hfl & Hins) & Hrows & Hfail & Hrec)].
    - apply (step_undecodable L W status e st st' _ (pre ++ evs)); auto.
      + rewrite Hh, <- app_assoc. reflexivity.
      + rewrite flow_app, Hpre, Hfl. reflexivity.
    - apply (step_submitted L W status e st st' r (pre ++ evs) v ins); auto.
      + rewrite Hh, <- app_assoc. reflexivity.
      + rewrite flow_app, Hpre, Hfl. reflexivity. }
  destruct (sqlite_fault W (history st ++ [SqlSelect (entry_link e)])) as [msg|] eqn:Hf.
  - intros H. rewrite <- app_assoc in H. apply Hsub in H; [exact H|reflexivity|].
    left. discriminate.
  - destruct (has_link (entry_link e) (published_items st)) eqn:Hl.
    + intros [= <- <-]. apply step_skipped; auto.
    + intros H. apply Hsub in H; [exact H|reflexivity|]. right. reflexivity.
Qed.

Lemma for_each_steps self status es st st' r :
  for_each es (process_entry L W C self status) st = (st', r) ->
  loop_steps L W status es st st' r.
Proof.
  revert st; induction es as [|e es IH]; intros st; cbn [for_each].
  - intros [= <- <-]. constructor.
  - unfold bind. destruct (process_entry L W C self status e st) as [st1 [[]|x]] eqn:He.
    + intros H. eapply loop_next; [eapply process_entry_step; eassumption|]. apply IH, H.
    + intros [= <- <-]. apply loop_raise. eapply process_entry_step. eassumption.
Qed.
End Loop.

(** ** The loop of [post_feed_items] *)

Lemma subseq_nil_l {A} (l : list A) : subseq [] l.
Proof. induction l; constructor; assumption. Qed.

Lemma subseq_refl {A} (l : list A) : subseq l l.
Proof. induction l; constructor; assumption. Qed.

Lemma In_flow x h : In x (flow h) <-> In x h /\ is_flow x = true.
Proof. apply filter_In. Qed.

Lemma In_calls x h : In x (calls h) <-> In x h /\ is_call x = true.
Proof. apply filter_In. Qed.

Lemma has_link_false_neq l row rows :
  has_link l rows = false -> In row rows -> r_link row <> l.
Proof.
  intros H Hin E. assert (has_link l rows = true); [|congruence].
  apply has_link_In. rewrite <- E. apply in_map. assumption.
Qed.

Section LoopFacts.
Variable L : Lib.
Variable W : World.
Variable status : str.

(** One turn only appends to the history, and appends at most one row. *)
Lemma entry_step_extends e st st' r :
  entry_step L W status e st st' r ->
  exists evs new,
    history st' = history st ++ evs
    /\ published_items st' = published_items st ++ new
    /\ (new = []
        \/ exists row v,
             new = [row] /\ r_link row = entry_link e
             /\ has_link (entry_link e) (published_items st) = false
             /\ In (Return_create_post (entry_link e) v) evs
             /\ truthy v = true
             /\ exists i, id_of v = Some i
                          /\ r_wordpress_post_id row = column_integer W i).
Proof.
  intros [Hf Hl -> ->|evs Hc Hdec Hh Hfl Hrows Hr
         |evs v ins Hc Hdec Hh Hfl Hins Hrows Hfail Hrec].
  - exists [SqlSelect (entry_link e)], []. cbn [history published_items].
    rewrite app_nil_r. repeat split; auto.
  - exists evs, []. rewrite app_nil_r. repeat split; auto.
  - destruct Hrows as [Hrows|(Ht & Hl & row & Hrows & Hrl & Hid)].
    + exists evs, []. rewrite app_nil_r. repeat split; eauto.
    + exists evs, [row]. repeat split; eauto.
      right. exists row, v. repeat split; auto.
      apply (proj1 (In_flow _ evs)). rewrite Hfl. right. left. reflexivity.
Qed.

Lemma loop_extends es st st' r :
  loop_steps L W status es st st' r ->
  exists evs new,
    history st' = history st ++ evs /\ published_items st' = published_items st ++ new.
Proof.
  induction 1 as [st|e es st st1 st2 r Hstep Hloop IH|e es st st1 x Hstep].
  - exists [], []. rewrite !app_nil_r. auto.
  - apply entry_step_extends in Hstep as (evs1 & new1 & Hh1 & Hr1 & _).
    destruct IH as (evs2 & new2 & Hh2 & Hr2).
    exists (evs1 ++ evs2), (new1 ++ new2).
    rewrite Hh2, Hh1, Hr2, Hr1, !app_assoc. auto.
  - apply entry_step_extends in Hstep as (evs1 & new1 & Hh1 & Hr1 & _). eauto.
Qed.

(** Every row a run adds carries the link of an entry of the feed that was
    not in the table, and follows a return of [create_post] for that link
    with a result that is true and holds the row's id. *)
Lemma loop_new_rows es st st' r :
  loop_steps L W status es st st' r ->
  forall evs new,
    history st' = history st ++ evs ->
    published_items st' = published_items st ++ new ->
    forall row, In row new ->
      has_link (r_link row) (published_items st) = false
      /\ (exists e, In e es /\ r_link row = entry_link e)
      /\ exists v, In (Return_create_post (r_link row) v) evs
                   /\ truthy v = true
                   /\ exists i, id_of v = Some i
                                /\ r_wordpress_post_id row = column_integer W i.
Proof.
  induction 1 as [st|e es st st1 st2 r Hstep Hloop IH|e es st st1 x Hstep];
    intros evs new Hh Hr row Hin.
  - apply (f_equal (@length _)) in Hr. rewrite length_app in Hr.
    destruct new; [destruct Hin|cbn in Hr; lia].
  - apply entry_step_extends in Hstep as (evs1 & new1 & Hh1 & Hr1 & Hnew1).
    destruct (loop_extends _ _ _ _ Hloop) as (evs2 & new2 & Hh2 & Hr2).
    assert (evs = evs1 ++ evs2).
    { apply (app_inv_head (history st)). rewrite <- Hh, Hh2, Hh1, app_assoc. reflexivity. }
    assert (new = new1 ++ new2).
    { apply (app_inv_head (published_items st)).
      rewrite <- Hr, Hr2, Hr1, app_assoc. reflexivity. }
    subst evs new. apply in_app_or in Hin as [Hin|Hin].
    + destruct Hnew1 as [->|(row1 & v & -> & Hrl & Hl & Hret & Ht & Hid)]; [destruct Hin|].
      destruct Hin as [<-|[]]. rewrite Hrl. split; [assumption|]. split.
      * exists e. split; [left; reflexivity|reflexivity].
      * exists v. split; [apply in_or_app; left; assumption|]. auto.
    + destruct (IH evs2 new2 Hh2 Hr2 row Hin) as (Hl & (e' & He' & Hrl) & v & Hret & Ht & Hid).
      split; [|split].
      * rewrite Hr1, has_link_app in Hl. apply orb_false_iff in Hl. tauto.
      * exists e'. split; [right; assumption|assumption].
      * exists v. split; [apply in_or_app; right; assumption|]. auto.
  - apply entry_step_extends in Hstep as (evs1 & new1 & Hh1 & Hr1 & Hnew1).
    assert (evs = evs1) by (apply (app_inv_head (history st)); congruence).
    assert (new = new1) by (apply (app_inv_head (published_items st)); congruence).
    subst evs new.
    destruct Hnew1 as [->|(row1 & v & -> & Hrl & Hl & Hret & Ht & Hid)]; [destruct Hin|].
    destruct Hin as [<-|[]]. rewrite Hrl. split; [assumption|]. split.
    + exists e. split; [left; reflexivity|reflexivity].
    + exists v. auto.
Qed.

(** A turn that can read the table does not call [create_post] for a link
    that has a row. *)
Lemma entry_step_no_call e st st' r l :
  never_faults_on_select W ->
  entry_step L W status e st st' r ->
  has_link l (published_items st) = true ->
  forall evs, history st' = history st ++ evs ->
  forall t c tags s, ~ In (Call_create_post t c l tags s) evs.
Proof.
  intros Hsel [Hf Hl -> ->|evs0 Hc Hdec Hh Hfl Hrows Hr
              |evs0 v ins Hc Hdec Hh Hfl Hins Hrows Hfail Hrec]
    Hl' evs Hh' t c tags s Hin.
  - cbn [history] in Hh'. apply app_inv_head in Hh'. subst evs.
    destruct Hin as [Hin|[]]. discriminate.
  - assert (evs = evs0) by (apply (app_inv_head (history st)); congruence). subst evs0.
    assert (Hin' : In (Call_create_post t c l tags s) (flow evs))
      by (apply In_flow; split; [assumption|reflexivity]).
    rewrite Hfl in Hin'. destruct Hin'.
  - assert (evs = evs0) by (apply (app_inv_head (history st)); congruence). subst evs0.
    destruct Hc as [Hc|Hc]; [apply Hc, Hsel|].
    assert (Hin' : In (Call_create_post t c l tags s) (flow evs))
      by (apply In_flow; split; [assumption|reflexivity]).
    rewrite Hfl in Hin'. destruct Hin' as [E|[E|Hin']]; [|discriminate|].
    + unfold submission in E. injection E as _ _ E _ _. congruence.
    + destruct Hins as [->|(_ & t0 & p0 & i0 & _ & ->)]; [destruct Hin'|].
      destruct Hin' as [E|[]]. discriminate.
Qed.

Lemma loop_no_call es st st' r l :
  never_faults_on_select W ->
  loop_steps L W status es st st' r ->
  has_link l (published_items st) = true ->
  forall evs, history st' = history st ++ evs ->
  forall t c tags s, ~ In (Call_create_post t c l tags s) evs.
Proof.
  intros Hsel.
  induction 1 as [st|e es st st1 st2 r Hstep Hloop IH|e es st st1 x Hstep];
    intros Hl evs Hh t c tags s Hin.
  - rewrite <- (app_nil_r (history st)) in Hh at 1. apply app_inv_head in Hh.
    subst evs. destruct Hin.
  - destruct (entry_step_extends _ _ _ _ Hstep) as (evs1 & new1 & Hh1 & Hr1 & _).
    destruct (loop_extends _ _ _ _ Hloop) as (evs2 & new2 & Hh2 & Hr2).
    assert (evs = evs1 ++ evs2).
    { apply (app_inv_head (history st)). rewrite <- Hh, Hh2, Hh1, app_assoc. reflexivity. }
    subst evs. apply in_app_or in Hin as [Hin|Hin].
    + exact (entry_step_no_call _ _ _ _ _ Hsel Hstep Hl evs1 Hh1 t c tags s Hin).
    + refine (IH _ evs2 Hh2 t c tags s Hin).
      rewrite Hr1, has_link_app, Hl. reflexivity.
  - exact (entry_step_no_call _ _ _ _ _ Hsel Hstep Hl evs Hh t c tags s Hin).
Qed.

(** Rows are never lost. *)
Lemma loop_keeps_links es st st' r l :
  loop_steps L W status es st st' r ->
  has_link l (published_items st) = true -> has_link l (published_items st') = true.
Proof.
  intros Hloop Hl. destruct (loop_extends _ _ _ _ Hloop) as (evs & new & _ & ->).
  rewrite has_link_app, Hl. reflexivity.
Qed.

Lemma entry_step_recorded e st st' r :
  never_faults_on_insert W ->
  entry_step L W status e st st' r ->
  forall evs, history st' = history st ++ evs ->
  forall l v, In (Return_create_post l v) evs -> recordable v = true ->
    has_link l (published_items st') = true /\ r = Ok tt.
Proof.
  intros Hins [Hf Hl -> ->|evs0 Hc Hdec Hh Hfl Hrows Hr
              |evs0 v0 ins Hc Hdec Hh Hfl Hins' Hrows Hfail Hrec] evs Hh' l v Hin Hv.
  - cbn [history] in Hh'. apply app_inv_head in Hh'. subst evs.
    destruct Hin as [Hin|[]]. discriminate.
  - assert (evs = evs0) by (apply (app_inv_head (history st)); congruence). subst evs0.
    assert (Hin' : In (Return_create_post l v) (flow evs))
      by (apply In_flow; split; [assumption|reflexivity]).
    rewrite Hfl in Hin'. destruct Hin'.
  - assert (evs = evs0) by (apply (app_inv_head (history st)); congruence). subst evs0.
    assert (Hin' : In (Return_create_post l v) (flow evs))
      by (apply In_flow; split; [assumption|reflexivity]).
    rewrite Hfl in Hin'. destruct Hin' as [E|[E|Hin']]; [discriminate| |].
    + injection E as <- <-. apply Hrec; assumption.
    + destruct Hins' as [->|(_ & t0 & p0 & i0 & _ & ->)]; [destruct Hin'|].
      destruct Hin' as [E|[]]. discriminate.
Qed.

(** When the table can be written, a link for which [create_post] returned
    a recordable result has a row at the end of the run. *)
Lemma loop_recorded es st st' r :
  never_faults_on_insert W ->
  loop_steps L W status es st st' r ->
  forall evs, history st' = history st ++ evs ->
  forall l v, In (Return_create_post l v) evs -> recordable v = true ->
    has_link l (published_items st') = true.
Proof.
  intros Hins.
  induction 1 as [st|e es st st1 st2 r Hstep Hloop IH|e es st st1 x Hstep];
    intros evs Hh l v Hin Hv.
  - rewrite <- (app_nil_r (history st)) in Hh at 1. apply app_inv_head in Hh.
    subst evs. destruct Hin.
  - destruct (entry_step_extends _ _ _ _ Hstep) as (evs1 & new1 & Hh1 & Hr1 & _).
    destruct (loop_extends _ _ _ _ Hloop) as (evs2 & new2 & Hh2 & Hr2).
    assert (evs = evs1 ++ evs2).
    { apply (app_inv_head (history st)). rewrite <- Hh, Hh2, Hh1, app_assoc. reflexivity. }
    subst evs. apply in_app_or in Hin as [Hin|Hin].
    + eapply loop_keeps_links; [eassumption|].
      exact (proj1 (entry_step_recorded _ _ _ _ Hins Hstep evs1 Hh1 l v Hin Hv)).
    + exact (IH evs2 Hh2 l v Hin Hv).
  - exact (proj1 (entry_step_recorded _ _ _ _ Hins Hstep evs Hh l v Hin Hv)).
Qed.



End LoopFacts.


(** ** [INSERT] only after a successful return *)

Lemma inserts_follow_returns_nil : inserts_follow_returns [].
Proof. intros pre post l t p i E. destruct pre; discriminate. Qed.

Lemma inserts_follow_returns_app a b :
  inserts_follow_returns a -> inserts_follow_returns b -> inserts_follow_returns (a ++ b).
Proof.
  intros Ha Hb pre post l t p i E.
  apply app_eq_app in E as [m [[E1 E2]|[E1 E2]]].
  - destruct m as [|x m].
    + cbn in E2. symmetry in E2. destruct (Hb [] post l t p i E2) as (pre' & v & E & _).
      destruct pre'; discriminate.
    + injection E2 as <- ->. exact (Ha pre m l t p i E1).
  - destruct (Hb m post l t p i E2) as (pre' & v & -> & Ht & Hi).
    exists (a ++ pre'), v. rewrite E1, app_assoc. auto.
Qed.

Section InsertOrder.
Variable L : Lib.
Variable W : World.
Variable status : str.

Lemma entry_step_insert_order e st st' r :
  entry_step L W status e st st' r ->
  forall evs, history st' = history st ++ evs -> inserts_follow_returns (flow evs).
Proof.
  intros [Hf Hl -> ->|evs0 Hc Hdec Hh Hfl Hrows Hr
         |evs0 v ins Hc Hdec Hh Hfl Hins Hrows Hfail Hrec] evs Hh'.
  - cbn [history] in Hh'. apply app_inv_head in Hh'. subst evs.
    apply inserts_follow_returns_nil.
  - assert (evs = evs0) by (apply (app_inv_head (history st)); congruence). subst evs0.
    rewrite Hfl. apply inserts_follow_returns_nil.
  - assert (evs = evs0) by (apply (app_inv_head (history st)); congruence). subst evs0.
    rewrite Hfl. intros pre post l t p i E.
    destruct pre as [|x [|y pre]]; [discriminate E|discriminate E|].
    destruct Hins as [->|(Ht & t0 & p0 & i0 & Hid & ->)].
    + cbn [app] in E. injection E as _ _ E. destruct pre; discriminate.
    + cbn [app] in E. injection E as <- <- E.
      destruct pre as [|z pre]; [|injection E as _ E; destruct pre; discriminate].
      injection E as <- _ _ <-. exists [submission L status e], v. auto.
Qed.

Lemma loop_insert_order es st st' r :
  loop_steps L W status es st st' r ->
  forall evs, history st' = history st ++ evs -> inserts_follow_returns (flow evs).
Proof.
  induction 1 as [st|e es st st1 st2 r Hstep Hloop IH|e es st st1 x Hstep];
    intros evs Hh.
  - rewrite <- (app_nil_r (history st)) in Hh at 1. apply app_inv_head in Hh.
    subst evs. apply inserts_follow_returns_nil.
  - destruct (entry_step_extends _ _ _ _ _ _ _ Hstep) as (evs1 & new1 & Hh1 & Hr1 & _).
    destruct (loop_extends _ _ _ _ _ _ _ Hloop) as (evs2 & new2 & Hh2 & Hr2).
    assert (evs = evs1 ++ evs2).
    { apply (app_inv_head (history st)). rewrite <- Hh, Hh2, Hh1, app_assoc. reflexivity. }
    subst evs. rewrite flow_app. apply inserts_follow_returns_app.
    + exact (entry_step_insert_order _ _ _ _ Hstep evs1 Hh1).
    + exact (IH evs2 Hh2).
  - exact (entry_step_insert_order _ _ _ _ Hstep evs Hh).
Qed.
End InsertOrder.

(** ** Runs of [post_feed_items] *)

Lemma NoDup_snoc {A} (l : list A) x : NoDup l -> ~ In x l -> NoDup (l ++ [x]).
Proof.
  induction l as [|a l IH]; intros Hnd Hx; cbn.
  - constructor; [intros []|constructor].
  - inversion Hnd as [|? ? Ha Hl]; subst. constructor.
    + intros Hin. apply in_app_or in Hin as [Hin|[->|[]]]; [auto|].
      apply Hx. left. reflexivity.
    + apply IH; [assumption|]. intros Hin. apply Hx. right. assumption.
Qed.

Section Pipeline.
Variable L : Lib.
Variable W : World.
Variable C : Config.

Lemma fetch_rss_feed_eq self url st :
  fetch_rss_feed W self url st =
  let h := history st ++ [FeedParse url] in
  match feed_reply W h with
  | inl msg =>
      ({| published_items := published_items st;
          history := h ++ [Log ERROR (ErrorFetchingFeed (PlainException msg))] |},
       Ok None)
  | inr f =>
      if bozo f then
        ({| published_items := published_items st;
            history := h ++ [Log ERROR (ErrorParsingFeed (bozo_exception f))] |},
         Ok None)
      else ({| published_items := published_items st; history := h |}, Ok (Some f))
  end.
Proof.
  unfold fetch_rss_feed, feedparser_parse, try_except, bind, emit, consult, ret, raise.
  cbn [history published_items].
  destruct (feed_reply W (history st ++ [FeedParse url])) as [msg|f]; [reflexivity|].
  destruct (bozo f); reflexivity.
Qed.

(** A run either stops after the fetch, leaving the table as it was, or
    runs the loop over the reversed entries of the feed. *)
Lemma post_feed_items_run self url status st st' r :
  post_feed_items L W C self url status st = (st', r) ->
  (published_items st' = published_items st /\ r = Ok tt
   /\ (exists m, history st' = history st ++ [FeedParse url; Log ERROR m])
   /\ match feed_reply W (history st ++ [FeedParse url]) with
      | inl _ => True
      | inr f => bozo f = true
      end)
  \/ exists f,
       feed_reply W (history st ++ [FeedParse url]) = inr f /\ bozo f = false
       /\ loop_steps L W status (rev (entries f))
            {| published_items := published_items st;
               history := history st ++ [FeedParse url] |} st' r.
Proof.
  unfold post_feed_items, bind. rewrite fetch_rss_feed_eq. cbn zeta.
  destruct (feed_reply W (history st ++ [FeedParse url])) as [msg|f] eqn:Hf.
  - intros [= <- <-]. left. cbn [history published_items]. rewrite <- app_assoc.
    split; [reflexivity|]. split; [reflexivity|]. split; [eexists; reflexivity|exact I].
  - destruct (bozo f) eqn:Hb.
    + intros [= <- <-]. left. cbn [history published_items]. rewrite <- app_assoc.
      split; [reflexivity|]. split; [reflexivity|].
      split; [eexists; reflexivity|reflexivity].
    + intros H. right. exists f. repeat split; auto.
      eapply for_each_steps. eassumption.
Qed.

Lemma entry_step_nodup status e st st' r :
  entry_step L W status e st st' r -> NoDup (links st) -> NoDup (links st').
Proof.
  unfold links. intros Hstep Hnd.
  apply entry_step_extends in Hstep as (evs1 & new1 & _ & -> & Hnew).
  destruct Hnew as [->|(row & v & -> & Hrl & Hl & _)]; [rewrite app_nil_r; assumption|].
  rewrite map_app. cbn [map]. apply NoDup_snoc; [assumption|].
  rewrite Hrl. intros Hin. apply has_link_In in Hin. congruence.
Qed.

(** The primary key: a run never gives a link a second row. *)
Lemma loop_nodup status es st st' r :
  loop_steps L W status es st st' r ->
  NoDup (links st) -> NoDup (links st').
Proof.
  induction 1 as [st|e es st st1 st2 r Hstep Hloop IH|e es st st1 x Hstep]; intros Hnd.
  - assumption.
  - apply IH. eapply entry_step_nodup; eassumption.
  - eapply entry_step_nodup; eassumption.
Qed.
End Pipeline.

(** ** The claims about the pipeline *)

Lemma last_event_snoc h e : last_event (h ++ [e]) = e.
Proof. unfold last_event. apply last_last. Qed.

(** C1 (as amended).  For a link that already has a row: when the [SELECT]
    of the check does not fail, the turn of an entry with that link consists of
    the [SELECT] alone, and a run in which no [SELECT] fails never calls
    [create_post] for the link; whether or not the table can be read, no row
    that a run adds carries the link, and links that were unique stay unique. *)
Theorem published_link_is_skipped L W C self status st l :
  In l (links st) ->
  (sqlite_fault W (history st ++ [SqlSelect l]) = None ->
   forall e, entry_link e = l ->
     process_entry L W C self status e st =
     ({| published_items := published_items st;
         history := history st ++ [SqlSelect l] |}, Ok tt))
  /\ forall url st' r,
       post_feed_items L W C self url status st = (st', r) ->
       exists evs new,
         history st' = history st ++ evs
         /\ published_items st' = published_items st ++ new
         /\ (forall row, In row new -> r_link row <> l)
         /\ (NoDup (links st) -> NoDup (links st'))
         /\ (never_faults_on_select W ->
             forall t c tags s, ~ In (Call_create_post t c l tags s) evs).
Proof.
  intros Hin. apply has_link_In in Hin. split.
  - intros Hsel e <-. unfold process_entry. fold (entry_link e). unfold bind.
    rewrite _is_item_published_eq. cbn zeta. rewrite Hsel, Hin. reflexivity.
  - intros url st' r Hrun. apply post_feed_items_run in Hrun as [(Hr & -> & (m & Hh) & _)|Hrun].
    + exists [FeedParse url; Log ERROR m], []. rewrite app_nil_r.
      split; [assumption|]. split; [assumption|]. split; [intros ? []|].
      split; [unfold links; rewrite Hr; auto|].
      intros _ t c tags s [E|[E|[]]]; discriminate.
    + destruct Hrun as (f & Hf & Hb & Hloop).
      destruct (loop_extends _ _ _ _ _ _ _ Hloop) as (evs & new & Hh & Hr).
      cbn [history published_items] in Hh, Hr.
      exists ([FeedParse url] ++ evs), new.
      split; [rewrite Hh, <- app_assoc; reflexivity|]. split; [assumption|]. split; [|split].
      * intros row Hrow E.
        destruct (loop_new_rows _ _ _ _ _ _ _ Hloop evs new Hh Hr row Hrow) as (Hl & _).
        cbn [published_items] in Hl. congruence.
      * intros Hnd. exact (loop_nodup _ _ _ _ _ _ _ Hloop Hnd).
      * intros Hsel t c tags s [E|Hin']; [discriminate|].
        exact (loop_no_call _ _ _ _ _ _ _ l Hsel Hloop Hin evs Hh t c tags s Hin').
Qed.

(** C2 (as amended).  A run issues an [INSERT] only right after [create_post]
    has returned, for the same link, a true result that holds the id the
    statement binds, and every row it adds is for a link with a true return;
    so a link that had no row and whose publishing only failed has none
    afterwards.  When the
    [INSERT] meets no error of the database, every link for which
    [create_post] returned an object with an ['id'] that can be bound has a
    row at the end of the run. *)
Theorem rows_follow_successful_publish L W C self url status st st' r :
  post_feed_items L W C self url status st = (st', r) ->
  exists evs new,
    history st' = history st ++ evs
    /\ published_items st' = published_items st ++ new
    /\ inserts_follow_returns (flow evs)
    /\ (forall row, In row new ->
          exists v, In (Return_create_post (r_link row) v) evs /\ truthy v = true)
    /\ (forall l, ~ In l (links st) ->
          (forall v, In (Return_create_post l v) evs -> truthy v = false) ->
          ~ In l (links st'))
    /\ (never_faults_on_insert W ->
        forall l v, In (Return_create_post l v) evs -> recordable v = true ->
          In l (links st')).
Proof.
  intros Hrun. apply post_feed_items_run in Hrun as [(Hr & -> & (m & Hh) & _)|Hrun].
  - exists [FeedParse url; Log ERROR m], []. rewrite app_nil_r.
    split; [assumption|]. split; [assumption|].
    split; [apply inserts_follow_returns_nil|]. split; [intros ? []|]. split.
    + intros l Hl _. unfold links in *. rewrite Hr. assumption.
    + intros _ l v [E|[E|[]]]; discriminate.
  - destruct Hrun as (f & Hf & Hb & Hloop).
    destruct (loop_extends _ _ _ _ _ _ _ Hloop) as (evs & new & Hh & Hr).
    cbn [history published_items] in Hh, Hr.
    assert (Hnew : forall row, In row new ->
              exists v, In (Return_create_post (r_link row) v) ([FeedParse url] ++ evs)
                        /\ truthy v = true).
    { intros row Hrow.
      destruct (loop_new_rows _ _ _ _ _ _ _ Hloop evs new Hh Hr row Hrow)
        as (_ & _ & v & Hret & Ht & _).
      exists v. split; [right; assumption|assumption]. }
    exists ([FeedParse url] ++ evs), new.
    split; [rewrite Hh, <- app_assoc; reflexivity|]. split; [assumption|].
    split; [exact (loop_insert_order _ _ _ _ _ _ _ Hloop evs Hh)|].
    split; [assumption|]. split.
    + intros l Hl Hfail Hin. unfold links in Hl, Hin. rewrite Hr, map_app in Hin.
      apply in_app_or in Hin as [Hin|Hin]; [auto|].
      apply in_map_iff in Hin as (row & <- & Hrow).
      destruct (Hnew row Hrow) as (v & Hret & Ht).
      rewrite (Hfail v Hret) in Ht. discriminate.
    + intros Hins l v [E|Hret] Hv; [discriminate|]. apply has_link_In.
      exact (loop_recorded _ _ _ _ _ _ _ Hins Hloop evs Hh l v Hret Hv).
Qed.



(** ** Start-up *)

Section Startup.
Variable L : Lib.
Variable W : World.
Variable C : Config.

Lemma _init_database_eq self st :
  _init_database W self st =
  let h := history st ++ [SqlCreateTable] in
  match sqlite_fault W h with
  | None =>
      ({| published_items := published_items st;
          history := h ++ [Log INFO DatabaseInitialized] |}, Ok tt)
  | Some msg =>
      ({| published_items := published_items st;
          history := h ++ [Log ERROR (DatabaseInitError (SqliteError msg))] |},
       Raise (SqliteError msg))
  end.
Proof.
  unfold _init_database, try_except, sqlite_execute, bind, emit, consult, ret, raise.
  cbn. destruct (sqlite_fault W (history st ++ [SqlCreateTable])); reflexivity.
Qed.

Lemma _verify_auth_eq self st :
  _verify_auth W self st =
  let h := history st ++ [HttpGet (api_base self ++ lit "/users/me") (auth_header self)] in
  let '(logs, failure) := verify_outcome (http_reply W h) in
  ({| published_items := published_items st; history := h ++ logs |},
   match failure with Some e => Raise e | None => Ok tt end).
Proof.
  unfold _verify_auth, try_except, requests_get, raise_for_status, log_response,
    bind, emit, consult, ret, raise. cbn [history published_items].
  destruct (http_reply W _) as [r|msg [r|]]; cbn [verify_outcome].
  - destruct (status_code r =? 401)%Z; cbn.
    + rewrite <- !app_assoc. reflexivity.
    + destruct ((400 <=? status_code r) && (status_code r <? 600))%Z; cbn;
        rewrite <- !app_assoc; reflexivity.
  - cbn. rewrite <- !app_assoc. reflexivity.
  - cbn. rewrite <- !app_assoc. reflexivity.
Qed.

Lemma __init___eq st :
  __init__ L W (WORDPRESS_URL C) (USERNAME C) (APP_PASSWORD C) (DB_PATH C) st =
  match create_auth_header L (USERNAME C) (APP_PASSWORD C) with
  | Raise x => (st, Raise x)
  | Ok _ =>
      let h := history st ++ [SqlCreateTable] in
      match sqlite_fault W h with
      | Some msg =>
          ({| published_items := published_items st;
              history := h ++ [Log ERROR (DatabaseInitError (SqliteError msg))] |},
           Raise (SqliteError msg))
      | None =>
          let h' := h ++ [Log INFO DatabaseInitialized; whoami_request L C] in
          let '(logs, failure) := verify_outcome (http_reply W h') in
          ({| published_items := published_items st; history := h' ++ logs |},
           match failure with Some e => Raise e | None => Ok (publisher_of L C) end)
      end
  end.
Proof.
  unfold __init__, publisher_of, whoami_request, auth_header_of.
  unfold bind at 1. unfold lift.
  destruct (create_auth_header L (USERNAME C) (APP_PASSWORD C)) as [header|x];
    [|reflexivity].
  unfold bind at 1. rewrite _init_database_eq. cbn zeta.
  destruct (sqlite_fault W (history st ++ [SqlCreateTable])); [reflexivity|].
  unfold bind at 1. rewrite _verify_auth_eq. cbn zeta.
  cbn [history published_items api_base auth_header].
  rewrite <- !app_assoc. cbn [app].
  destruct (verify_outcome _) as [logs [e|]]; reflexivity.
Qed.

(** [create_auth_header] raises [UnicodeEncodeError] or nothing. *)
Lemma create_auth_header_raises u p x :
  create_auth_header L u p = Raise x ->
  x = UnicodeEncodeError /\ utf8_encode (u ++ lit ":" ++ p) = None.
Proof.
  unfold create_auth_header. destruct (utf8_encode (u ++ lit ":" ++ p)); [discriminate|].
  intros [= <-]. auto.
Qed.

Lemma create_auth_header_returns u p :
  utf8_encode (u ++ lit ":" ++ p) <> None ->
  exists header, create_auth_header L u p = Ok header.
Proof.
  unfold create_auth_header. destruct (utf8_encode (u ++ lit ":" ++ p)); [|congruence].
  eauto.
Qed.

Lemma verify_outcome_refused o :
  refused o = true <-> snd (verify_outcome o) <> None.
Proof.
  destruct o as [r|msg r]; cbn.
  - destruct (status_code r =? 401)%Z eqn:H401.
    + apply Z.eqb_eq in H401. rewrite H401. cbn. split; [discriminate|reflexivity].
    + destruct ((400 <=? status_code r) && (status_code r <? 600))%Z; cbn;
        split; congruence.
  - split; [discriminate|reflexivity].
Qed.

Lemma verify_outcome_quiet o :
  forallb (fun e => negb (is_fetch_or_publish e)) (fst (verify_outcome o)) = true.
Proof.
  destruct o as [r|msg [r|]]; cbn; try reflexivity.
  destruct (status_code r =? 401)%Z; [reflexivity|].
  destruct ((400 <=? status_code r) && (status_code r <? 600))%Z; reflexivity.
Qed.
End Startup.


(** C4 (as amended).  [create_post] always returns, and what it returns and
    logs is fixed by the outcome of its one request: [None] and two error lines
    on a 401; [None], the error and the response body on any other 4xx or 5xx
    status; [None] and the error (with the body of the response, if the
    exception carries one) when the request raises; on every other status
    [None] and the error when the body is not JSON, and otherwise the parsed
    body, from which [post_feed_items] takes the ['id']. *)
Theorem create_post_never_raises L W C self title content link tags status st :
  exists data logs v,
    create_post L W C self title content link tags status st =
    ({| published_items := published_items st;
        history :=
          (history st ++ [Call_create_post title content link tags status;
                          HttpPost (api_base self ++ lit "/posts") (auth_header self) data])
            ++ logs ++ [Return_create_post link v] |}, Ok v)
    /\ create_post_dict L C self title content link tags status st = (st, Ok data)
    /\ match http_reply W
               (history st ++ [Call_create_post title content link tags status;
                               HttpPost (api_base self ++ lit "/posts") (auth_header self)
                                 data]) with
       | Responded r =>
           if (status_code r =? 401)%Z then
             v = JNull
             /\ logs = [Log ERROR AuthFailedCreatingPost; Log ERROR (ResponseText (text r))]
           else if ((400 <=? status_code r) && (status_code r <? 600))%Z then
             v = JNull
             /\ logs = [Log ERROR (ErrorCreatingPost (HTTPError r));
                        Log ERROR (ResponseText (text r))]
           else
             match json_body r with
             | Some j => v = j /\ logs = []
             | None =>
                 v = JNull
                 /\ logs = [Log ERROR (ErrorCreatingPost (JSONDecodeError (text r)))]
             end
       | Failed msg None =>
           v = JNull /\ logs = [Log ERROR (ErrorCreatingPost (TransportError msg None))]
       | Failed msg (Some r) =>
           v = JNull
           /\ logs = [Log ERROR (ErrorCreatingPost (TransportError msg (Some r)));
                      Log ERROR (ResponseText (text r))]
       end.
Proof.
  rewrite create_post_eq, create_post_dict_eq. cbn zeta.
  exists {| pd_title := title;
            pd_content :=
              content_with_source title
                (markdown_markdown L (blockquote_markdown (urlize (unicode_alnum L) content)))
                link (join (lit " ") (tag_htmls C tags));
            pd_status := status |}.
  cbn [app].
  match goal with
  | |- context [http_reply W ?h] => destruct (http_reply W h) as [r|msg [r|]]
  end; cbn [post_outcome].
  - destruct (status_code r =? 401)%Z.
    { do 2 eexists. split; [reflexivity|]. split; [reflexivity|]. split; reflexivity. }
    destruct ((400 <=? status_code r) && (status_code r <? 600))%Z.
    { do 2 eexists. split; [reflexivity|]. split; [reflexivity|]. split; reflexivity. }
    destruct (json_body r);
      do 2 eexists; (split; [reflexivity|]); (split; [reflexivity|]); split; reflexivity.
  - do 2 eexists. split; [reflexivity|]. split; [reflexivity|]. split; reflexivity.
  - do 2 eexists. split; [reflexivity|]. split; [reflexivity|]. split; reflexivity.
Qed.

(** C5.  When the "who am I" request is answered by 401 or fails in
    transport, [main] ends without having fetched the feed or published
    anything, and leaves the table as it was. *)
Theorem rejected_credentials_abort_startup L W C st :
  rejected (http_reply W (history st ++ [SqlCreateTable; Log INFO DatabaseInitialized;
                                         whoami_request L C])) ->
  exists evs,
    main L W C st =
    ({| published_items := published_items st; history := history st ++ evs |}, Ok tt)
    /\ forallb (fun e => negb (is_fetch_or_publish e)) evs = true.
Proof.
  intros Hrej. unfold main, try_except. unfold bind at 1. rewrite __init___eq.
  destruct (create_auth_header L (USERNAME C) (APP_PASSWORD C)) as [header|x].
  2:{ unfold bind, emit. cbn [history published_items].
      eexists. rewrite <- !app_assoc. split; reflexivity. }
  cbn zeta.
  destruct (sqlite_fault W (history st ++ [SqlCreateTable])) as [msg|].
  { unfold bind, emit. cbn [history published_items].
    eexists. rewrite <- !app_assoc. split; reflexivity. }
  rewrite <- app_assoc. cbn [app].
  unfold rejected in Hrej.
  destruct (http_reply W _) as [r|msg [r|]] eqn:Hr; cbn [verify_outcome].
  - rewrite Hrej. unfold bind, emit. cbn [Z.eqb Pos.eqb history published_items].
    eexists. rewrite <- ?app_assoc. split; reflexivity.
  - unfold bind, emit. cbn [history published_items].
    eexists. rewrite <- ?app_assoc. split; reflexivity.
  - unfold bind, emit. cbn [history published_items].
    eexists. rewrite <- ?app_assoc. split; reflexivity.
Qed.

(** C10 (as amended).  When the [SELECT] of the already-published check
    fails, [_is_item_published] logs the error and returns [False] whatever
    the table holds, and the turn of the loop goes on as for an entry that was
    never published and does not raise the error of the database: it submits
    the entry to [create_post] when the text of the entry decodes, and raises
    [ValueError] without a call when it does not. *)
Theorem read_failure_reports_unpublished L W C self link st msg :
  sqlite_fault W (history st ++ [SqlSelect link]) = Some msg ->
  _is_item_published W self link st =
  ({| published_items := published_items st;
      history := history st ++ [SqlSelect link;
                                Log ERROR (DatabaseQueryError (SqliteError msg))] |},
   Ok false)
  /\ forall status e,
       entry_link e = link ->
       process_entry L W C self status e st =
       publish_entry L W C self status e link
         {| published_items := published_items st;
            history := history st ++ [SqlSelect link;
                                      Log ERROR (DatabaseQueryError (SqliteError msg))] |}
       /\ forall st' r,
            process_entry L W C self status e st = (st', r) ->
            exists evs,
              history st' = history st ++ evs
              /\ r <> Raise (SqliteError msg)
              /\ match _clean_content L (entry_content e) with
                 | Ok _ => calls evs = [submission L status e]
                 | Raise _ => calls evs = [] /\ r = Raise ValueError
                 end.
Proof.
  intros Hf. split.
  - rewrite _is_item_published_eq. cbn zeta. rewrite Hf, <- app_assoc. reflexivity.
  - intros status e <-.
    assert (E : process_entry L W C self status e st =
                publish_entry L W C self status e (entry_link e)
                  {| published_items := published_items st;
                     history := history st ++
                       [SqlSelect (entry_link e);
                        Log ERROR (DatabaseQueryError (SqliteError msg))] |}).
    { rewrite process_entry_eq, Hf. reflexivity. }
    split; [exact E|].
    intros st' r Hrun.
    assert (Hne : r <> Raise (SqliteError msg)).
    { intros ->. rewrite E in Hrun. apply publish_entry_raises in Hrun.
      destruct Hrun as [H|[H|[H|[H|H]]]]; discriminate. }
    rewrite E in Hrun. apply publish_entry_calls in Hrun.
    destruct Hrun as (evs & Hh & Hcalls). cbn [history] in Hh.
    exists ([SqlSelect (entry_link e); Log ERROR (DatabaseQueryError (SqliteError msg))]
              ++ evs).
    split; [rewrite Hh, <- app_assoc; reflexivity|]. split; [exact Hne|].
    rewrite calls_app. exact Hcalls.
Qed.

Lemma tag_htmls_map C tags : tag_htmls C tags = map (tag_link C) tags.
Proof.
  unfold tag_htmls.
  assert (H : forall acc, fold_left (fun acc tag => acc ++ [tag_link C tag]) tags acc
                          = acc ++ map (tag_link C) tags).
  { induction tags as [|t tags IH]; intros acc; cbn [fold_left map].
    - rewrite app_nil_r. reflexivity.
    - rewrite IH, <- app_assoc. reflexivity. }
  apply (H []).
Qed.

(** C8.  With the prefix [P] configured, the content of the post ends with the
    line "Tags: " followed by the anchors of the tags, in the order of the tag
    list and separated by single spaces; each anchor points to [P/t:tag] and
    shows the tag; an empty list leaves the label with nothing after it. *)
Theorem tag_links_in_post_content L C self title content link tags status st P :
  TAG_PREFIX C = Some P ->
  exists data before,
    create_post_dict L C self title content link tags status st = (st, Ok data)
    /\ pd_content data =
       before ++ lit "<p class=" ++ [dq] ++ lit "taglist" ++ [dq] ++ lit ">Tags: "
         ++ join (lit " ") (map (tag_anchor P) tags) ++ lit "</p></li></ul>"
    /\ (tags = [] -> join (lit " ") (map (tag_anchor P) tags) = []).
Proof.
  intros HP. rewrite create_post_dict_eq. eexists. eexists.
  split; [reflexivity|]. cbn [pd_content]. split.
  - unfold content_with_source. rewrite tag_htmls_map.
    assert (E : map (tag_link C) tags = map (tag_anchor P) tags).
    { apply map_ext. intros t. unfold tag_link, tag_anchor, anchor. rewrite HP. cbn [fmt].
      rewrite <- !app_assoc. reflexivity. }
    rewrite E.
    repeat rewrite (app_assoc _ _ (lit "<p class=" ++ _)).
    reflexivity.
  - intros ->. reflexivity.
Qed.

(** When the feed cannot be fetched or parsed, the run ends there: nothing
    is published and the table is left as it was. *)
Theorem failed_fetch_ends_run L W C self url status st :
  match feed_reply W (history st ++ [FeedParse url]) with
  | inl _ => True
  | inr f => bozo f = true
  end ->
  exists m,
    post_feed_items L W C self url status st =
    ({| published_items := published_items st;
        history := history st ++ [FeedParse url; Log ERROR m] |}, Ok tt).
Proof.
  intros Hf. unfold post_feed_items, bind. rewrite fetch_rss_feed_eq. cbn zeta.
  destruct (feed_reply W (history st ++ [FeedParse url])) as [msg|f].
  - eexists. rewrite <- app_assoc. reflexivity.
  - rewrite Hf. eexists. rewrite <- app_assoc. reflexivity.
Qed.


(** ** The matcher and the preferred match *)

Lemma first_some_app {X} (k : str -> option X) l1 l2 :
  first_some k (l1 ++ l2) =
  match first_some k l1 with Some y => Some y | None => first_some k l2 end.
Proof.
  induction l1 as [|x l1 IH]; [reflexivity|].
  cbn [app first_some]. destruct (k x); [reflexivity|exact IH].
Qed.

Lemma first_some_flat_map {X} (k : str -> option X) (f : str -> list str) l :
  first_some k (flat_map f l) = first_some (fun x => first_some k (f x)) l.
Proof.
  induction l as [|x l IH]; [reflexivity|].
  cbn [flat_map first_some]. rewrite first_some_app, IH. reflexivity.
Qed.

Lemma first_some_ext {X} (k k' : str -> option X) l :
  (forall x, k x = k' x) -> first_some k l = first_some k' l.
Proof.
  intros H. induction l as [|x l IH]; [reflexivity|].
  cbn [first_some]. rewrite H, IH. reflexivity.
Qed.

Lemma first_some_Some l : first_some Some l = hd_error l.
Proof. destruct l; reflexivity. Qed.

Lemma rep_match_parses {X} p lo hi s (k : str -> option X) :
  rep_match p lo hi s k = first_some k (rep_parses p lo hi s).
Proof.
  revert lo hi; induction s as [|c s IH]; intros lo hi; cbn [rep_match rep_parses].
  - destruct lo; cbn [first_some]; [destruct (k [])|]; reflexivity.
  - assert (Hstop : match lo with O => k (c :: s) | S _ => None end
                    = first_some k match lo with O => [c :: s] | S _ => [] end).
    { destruct lo; cbn [first_some]; [destruct (k (c :: s))|]; reflexivity. }
    destruct (p c && below hi); [|exact Hstop].
    rewrite first_some_app, IH, Hstop. reflexivity.
Qed.

(** The matcher runs the rest of the pattern on the parses in their order
    and takes the first that succeeds. *)
Lemma re_match_parses {X} r s (k : str -> option X) :
  re_match r s k = first_some k (parses r s).
Proof.
  revert s k; induction r as [|p|a IHa b IHb|a IHa b IHb|a IHa|p lo hi]; intros s k;
    cbn [re_match parses].
  - cbn. destruct (k s); reflexivity.
  - destruct s as [|c s]; [reflexivity|]. destruct (p c); [|reflexivity].
    cbn. destruct (k s); reflexivity.
  - rewrite IHa, first_some_flat_map. apply first_some_ext. intros x. apply IHb.
  - rewrite first_some_app, IHa, IHb. reflexivity.
  - rewrite first_some_app, IHa. cbn. destruct (first_some k (parses a s)); [reflexivity|].
    destruct (k s); reflexivity.
  - apply rep_match_parses.
Qed.

Lemma match_len_preferred r s :
  match_len r s = option_map (fun rest => (length s - length rest)%nat) (preferred r s).
Proof.
  unfold match_len, preferred. rewrite re_match_parses, first_some_Some. reflexivity.
Qed.

(** The preferred match is a match. *)
Lemma preferred_matches r s rest :
  preferred r s = Some rest -> exists u, s = u ++ rest /\ matches r u.
Proof.
  unfold preferred. rewrite <- first_some_Some, <- re_match_parses. intros H.
  apply re_match_sound in H. destruct H as (u & v & -> & Hu & [= ->]). eauto.
Qed.

(** A pattern that matches somewhere at the start of [s] has a preferred
    match there. *)
Lemma preferred_none r s :
  preferred r s = None -> forall u v, s = u ++ v -> ~ matches r u.
Proof.
  intros H. apply match_len_none. rewrite match_len_preferred, H. reflexivity.
Qed.

(** [re.sub] replaces the preferred matches. *)
Lemma re_sub_substituted r repl :
  nullable r = false ->
  forall s, substituted r repl s (re_sub (match_len r) repl s).
Proof.
  intros Hn s.
  remember (length s) as n eqn:Hlen. revert s Hlen.
  induction n as [n IH] using lt_wf_ind. intros s Hlen.
  destruct s as [|c s]; [constructor|].
  destruct (preferred r (c :: s)) as [rest|] eqn:Hp.
  - destruct (preferred_matches _ _ _ Hp) as (u & E & Hu).
    assert (Hne : u <> []) by (apply (nullable_false r); assumption).
    assert (Hm : match_len r (c :: s) = Some (length u)).
    { rewrite match_len_preferred, Hp. cbn [option_map]. f_equal.
      rewrite E, length_app. lia. }
    destruct u as [|d u]; [congruence|]. cbn [length] in Hm.
    rewrite (re_sub_hit _ _ _ (length u)) by (congruence || assumption).
    assert (Hf : firstn (S (length u)) (c :: s) = d :: u).
    { rewrite E. change (S (length u)) with (length (d :: u)).
      rewrite firstn_app, Nat.sub_diag, firstn_all. cbn [firstn]. apply app_nil_r. }
    assert (Hs : skipn (S (length u)) (c :: s) = rest).
    { rewrite E. change (S (length u)) with (length (d :: u)).
      rewrite skipn_app, Nat.sub_diag, skipn_all. reflexivity. }
    rewrite Hf, Hs, E. constructor.
    + discriminate.
    + rewrite <- E. exact Hp.
    + apply (IH (length rest)); [|reflexivity].
      subst n. rewrite E, length_app. cbn. lia.
  - rewrite re_sub_miss by (left; rewrite match_len_preferred, Hp; reflexivity).
    constructor; [exact Hp|].
    apply (IH (length s)); [subst n; cbn; lia|reflexivity].
Qed.

(** The pass has one result. *)
Lemma substituted_unique r repl s out :
  substituted r repl s out -> forall out', substituted r repl s out' -> out = out'.
Proof.
  induction 1 as [|u v out Hne Hp _ IH|c v out Hp _ IH]; intros out' H'.
  - inversion H' as [|u' v' o' Hne' Hp' H'' E|]; subst; [reflexivity|].
    destruct u'; [congruence|discriminate E].
  - remember (u ++ v) as s eqn:Es.
    destruct H' as [|u' v' o' Hne' Hp' H''|c' v' o' Hp' H''].
    + destruct u; [congruence|discriminate Es].
    + rewrite Hp in Hp'. injection Hp' as <-.
      apply app_inv_tail in Es. subst u'. f_equal. apply IH. exact H''.
    + congruence.
  - remember (c :: v) as s eqn:Es.
    destruct H' as [|u' v' o' Hne' Hp' H''|c' v' o' Hp' H''].
    + discriminate.
    + congruence.
    + injection Es as -> ->. f_equal. apply IH. exact H''.
Qed.

(** [contains] decides [occurs]. *)
Lemma starts_with_app p b : starts_with p (p ++ b) = true.
Proof.
  induction p as [|c p IH]; [reflexivity|].
  cbn [app starts_with]. rewrite N.eqb_refl, IH. reflexivity.
Qed.

Lemma contains_occurs p s : contains p s = false -> ~ occurs p s.
Proof.
  intros H (a & b & ->). revert H. induction a as [|c a IH].
  - cbn [app]. destruct (p ++ b) eqn:E; cbn [contains];
      rewrite <- E, starts_with_app; discriminate.
  - cbn [app contains]. intros H. apply orb_false_iff in H. destruct H as [_ H]. auto.
Qed.


(** ** The claims about the transformation of the content *)

Lemma matches_Lit p u : matches (Lit p) u <-> u = p.
Proof.
  revert u; induction p as [|c p IH]; intros u; cbn [Lit fold_right]; split.
  - intros H. inversion H. reflexivity.
  - intros ->. constructor.
  - intros H. inversion H as [| |a b u1 u2 H1 H2| | | | |]; subst.
    inversion H1 as [|q d Hd| | | | | |]; subst. apply N.eqb_eq in Hd. subst d.
    apply IH in H2. subst. reflexivity.
  - intros ->. change (c :: p) with ([c] ++ p). constructor.
    + constructor. apply N.eqb_refl.
    + apply IH. reflexivity.
Qed.

Lemma nullable_Lit p : p <> [] -> nullable (Lit p) = false.
Proof. destruct p; [congruence|reflexivity]. Qed.

Lemma rewritten_replaced_all pat rep s out :
  rewritten (Lit pat) (fun _ => rep) s out -> replaced_all pat rep s out.
Proof.
  induction 1 as [|u v out Hne Hu _ IH|c v out Hmiss _ IH].
  - constructor.
  - apply matches_Lit in Hu. subst u. constructor. assumption.
  - constructor; [|assumption]. intros w E. apply (Hmiss pat w E). apply matches_Lit.
    reflexivity.
Qed.

Lemma unescape_without_ampersand html5 s :
  ~ In 38 s -> unescape html5 s = Some s.
Proof.
  intros H. unfold unescape.
  destruct (existsb (N.eqb 38) s) eqn:E; [|reflexivity].
  exfalso. apply H. apply existsb_exists in E as (c & Hc & Ec).
  apply N.eqb_eq in Ec. subst c. assumption.
Qed.

(** A numeric reference to the ampersand shows that decoding twice differs
    from decoding once whatever the table of names holds. *)
Lemma decoding_twice_differs L :
  _clean_content L (lit "&#38;#38;") = Ok (lit "&#38;")
  /\ _clean_content L (lit "&#38;") = Ok (lit "&").
Proof. split; reflexivity. Qed.

Lemma re_sub_without_match m repl s :
  (forall a b, s = a ++ b -> m b = None) -> re_sub m repl s = s.
Proof.
  induction s as [|c s IH]; intros H; [reflexivity|].
  rewrite re_sub_miss by (left; apply (H [] (c :: s)); reflexivity).
  f_equal. apply IH. intros a b ->. apply (H (c :: a) b). reflexivity.
Qed.





(** ** The autolinking pass *)

(** Where the scan arrives at a text [u] that is the preferred match there,
    after a stretch [pre] in which no match starts, [u] is wrapped. *)
Lemma re_sub_reaches r repl pre u v :
  (forall a b, pre = a ++ b -> b <> [] -> preferred r (b ++ u ++ v) = None) ->
  u <> [] -> preferred r (u ++ v) = Some v ->
  re_sub (match_len r) repl (pre ++ u ++ v)
  = pre ++ repl u ++ re_sub (match_len r) repl v.
Proof.
  intros Hpre Hu Hp. unfold re_sub.
  induction pre as [|c pre IH].
  - cbn [app]. destruct u as [|c u]; [congruence|]. cbn [app] in *.
    cbn [sub_scan]. rewrite match_len_preferred, Hp. cbn [option_map].
    replace (length (c :: u ++ v) - length v)%nat with (S (length u))
      by (cbn [length]; rewrite length_app; lia).
    cbn [firstn app]. rewrite firstn_app, firstn_all, Nat.sub_diag. cbn [firstn].
    rewrite app_nil_r. f_equal.
    clear Hp Hu Hpre. induction u as [|d u IHu]; [reflexivity|].
    cbn [app length sub_scan]. exact IHu.
  - cbn [app sub_scan]. rewrite match_len_preferred.
    pose proof (Hpre [] (c :: pre) eq_refl ltac:(discriminate)) as Hn.
    cbn [app] in Hn. rewrite Hn. cbn [option_map].
    f_equal. apply IH. intros a b -> Hb. apply (Hpre (c :: a) b); [reflexivity|assumption].
Qed.

(** C7 (as amended).  The autolinking pass is one scan from the left with the
    URL pattern: where the pattern matches at the position of the scan, the
    match the engine prefers is wrapped in angle brackets and the scan resumes
    after it, every other character is copied, and this fixes the result.  So
    a token is wrapped whole where the scan arrives at its first character and
    the preferred match there is the token.  On the example of the
    specification the bracketed URL is in the text handed to the markdown
    renderer. *)
Theorem autolink_wraps_preferred_matches (alnum : char -> bool) :
  (forall content,
     substituted (urlfinder alnum) (fun m => lit "<" ++ m ++ lit ">") content
       (urlize alnum content))
  /\ (forall content out,
        substituted (urlfinder alnum) (fun m => lit "<" ++ m ++ lit ">") content out ->
        out = urlize alnum content)
  /\ (forall pre u v,
        (forall a b, pre = a ++ b -> b <> [] ->
           preferred (urlfinder alnum) (b ++ u ++ v) = None) ->
        u <> [] ->
        preferred (urlfinder alnum) (u ++ v) = Some v ->
        urlize alnum (pre ++ u ++ v)
        = pre ++ lit "<" ++ u ++ lit ">" ++ urlize alnum v)
  /\ (forall s v,
        preferred (urlfinder alnum) s = Some v ->
        exists u, s = u ++ v /\ matches (urlfinder alnum) u)
  /\ urlize alnum (lit "Check http://example.com/page?x=1 now")
     = lit "Check <http://example.com/page?x=1> now"
  /\ occurs (lit "<http://example.com/page?x=1>")
       (blockquote_markdown (urlize alnum (lit "Check http://example.com/page?x=1 now"))).
Proof.
  split; [|split; [|split; [|split; [|split]]]].
  - intros content. apply (re_sub_substituted (urlfinder alnum)). reflexivity.
  - intros content out H. apply (substituted_unique _ _ _ _ H).
    apply (re_sub_substituted (urlfinder alnum)). reflexivity.
  - intros pre u v Hpre Hu Hp. unfold urlize.
    rewrite (re_sub_reaches _ _ pre u v Hpre Hu Hp).
    cbn [lit app]. rewrite <- !app_assoc. reflexivity.
  - intros s v. apply preferred_matches.
  - vm_compute. reflexivity.
  - exists (lit "Check "), (lit " now"). vm_compute. reflexivity.
Qed.

(** C7 as stated fails: a URL that follows a word and a colon is split, the
    brackets closing inside its scheme, and of an address whose user part
    holds a full stop only the end is wrapped. *)
Lemma url_after_colon_is_split :
  urlize (unicode_alnum lib0) (lit "see:http://x.com") = lit "<see:http>://x.com"
  /\ ~ occurs (lit "<http://x.com>")
         (urlize (unicode_alnum lib0) (lit "see:http://x.com"))
  /\ urlize (unicode_alnum lib0) (lit "first.last@example.com")
     = lit "first.<last@example.com>"
  /\ ~ occurs (lit "<first.last@example.com>")
         (urlize (unicode_alnum lib0) (lit "first.last@example.com")).
Proof.
  split; [vm_compute; reflexivity|].
  split; [apply contains_occurs; vm_compute; reflexivity|].
  split; [vm_compute; reflexivity|].
  apply contains_occurs. vm_compute. reflexivity.
Qed.


(** A text up to its first ["<"] is copied by the replacement. *)
Lemma replaced_all_keeps_prefix pat' rep' s out :
  replaced_all (60 :: pat') (60 :: rep') s out ->
  forall q b, out = q ++ b -> ~ In 60 q -> exists b', s = q ++ b'.
Proof.
  induction 1 as [|v out _ IH|c v out Hmiss _ IH]; intros q b E Hq.
  - destruct q; [|discriminate]. exists []. reflexivity.
  - destruct q as [|y q]; [eexists; reflexivity|].
    cbn in E. injection E as <- _. exfalso. apply Hq. left. reflexivity.
  - destruct q as [|y q]; [eexists; reflexivity|].
    cbn in E. injection E as <- E.
    destruct (IH q b E) as [b' ->]; [intros Hin; apply Hq; right; assumption|].
    exists b'. reflexivity.
Qed.

Lemma app_after_prefix (a r rest out : str) :
  a ++ 60 :: rest = r ++ out -> ~ In 60 r -> exists a', a = r ++ a'.
Proof.
  intros E Hr. apply app_eq_app in E as [m [[E1 E2]|[E1 E2]]].
  - exists m. assumption.
  - destruct m as [|x m].
    + exists []. rewrite app_nil_r in E1. rewrite E1, app_nil_r. reflexivity.
    + injection E2 as <- _. exfalso. apply Hr. rewrite E1. apply in_or_app. right. left.
      reflexivity.
Qed.

(** When neither the pattern nor the replacement holds a second ["<"], and
    the replacement does not start with the pattern, no occurrence of the
    pattern is left. *)
Lemma replaced_all_leaves_none pat' rep' s out :
  ~ In 60 pat' -> ~ In 60 rep' ->
  (forall b w, pat' ++ b <> rep' ++ w) ->
  replaced_all (60 :: pat') (60 :: rep') s out ->
  ~ occurs (60 :: pat') out.
Proof.
  intros Hpat Hrep Hne.
  induction 1 as [|v out Hrw IH|c v out Hmiss Hrw IH]; intros (a & b & E).
  - destruct a; discriminate.
  - destruct a as [|x a]; cbn [app] in E.
    + injection E as E. symmetry in E. exact (Hne _ _ E).
    + injection E as _ E. symmetry in E.
      destruct (app_after_prefix _ _ _ _ E Hrep) as [a' ->].
      rewrite <- app_assoc in E. apply app_inv_head in E.
      apply IH. exists a', b. symmetry. exact E.
  - destruct a as [|x a]; cbn [app] in E.
    + injection E as -> E.
      destruct (replaced_all_keeps_prefix _ _ _ _ Hrw pat' b E Hpat) as [b' ->].
      apply (Hmiss b'). reflexivity.
    + injection E as _ E. apply IH. exists a, b. exact E.
Qed.

(** After the replacement no [<blockquote>] is left. *)
Lemma no_plain_blockquote_left s out :
  replaced_all blockquote_open blockquote_open_markdown s out ->
  ~ occurs blockquote_open out.
Proof.
  apply (replaced_all_leaves_none (lit "blockquote>")
           (lit "blockquote markdown=" ++ [dq] ++ lit "1" ++ [dq] ++ lit ">")).
  - vm_compute. intros Hin.
    repeat (destruct Hin as [Hin|Hin]; [discriminate Hin|]). exact Hin.
  - vm_compute. intros Hin.
    repeat (destruct Hin as [Hin|Hin]; [discriminate Hin|]). exact Hin.
  - intros b w E. vm_compute in E. discriminate.
Qed.

(** What the pass does: every occurrence of the exact text [<blockquote>],
    found from the left, is rewritten to [<blockquote markdown="1">], every
    other character is kept, and no [<blockquote>] is left in the result. *)
Lemma plain_blockquote_tags_get_marker content :
  replaced_all blockquote_open blockquote_open_markdown content
    (blockquote_markdown content)
  /\ ~ occurs blockquote_open (blockquote_markdown content).
Proof.
  assert (H : replaced_all blockquote_open blockquote_open_markdown content
                (blockquote_markdown content)).
  { apply rewritten_replaced_all. unfold blockquote_markdown.
    apply re_sub_rewritten. reflexivity. }
  split; [exact H|]. apply (no_plain_blockquote_left content). exact H.
Qed.

(** C9.  The code misses what its comment announces: an opening tag with an
    attribute, or in capitals, is left as it is, without the marker. *)
Theorem blockquote_with_attribute_is_left_alone :
  blockquote_markdown
    (lit "<blockquote class=" ++ [dq] ++ lit "q" ++ [dq] ++ lit ">text</blockquote>")
  = lit "<blockquote class=" ++ [dq] ++ lit "q" ++ [dq] ++ lit ">text</blockquote>"
  /\ blockquote_markdown (lit "<BLOCKQUOTE>text</BLOCKQUOTE>")
     = lit "<BLOCKQUOTE>text</BLOCKQUOTE>".
Proof. split; vm_compute; reflexivity. Qed.


(** ** The theorems at concrete inputs *)

Lemma no_fault_never_faults_on_select reply es :
  never_faults_on_select (world_of no_fault reply es).
Proof. intros h l. reflexivity. Qed.

Lemma no_fault_never_faults_on_insert reply es :
  never_faults_on_insert (world_of no_fault reply es).
Proof. intros h l t p i. reflexivity. Qed.

(** The feed holds E2 and E1, and E1 has a row: E1 is skipped at the
    [SELECT] and never submitted. *)
Lemma published_link_is_skipped_witness :
  process_entry lib0 (world_of no_fault always_created [E2; E1]) cfg0 self0 (lit "publish") E1
    (state_of [row1])
  = ({| published_items := [row1]; history := [SqlSelect (entry_link E1)] |}, Ok tt)
  /\ ~ In (submission lib0 (lit "publish") E1)
         (history (fst (run (world_of no_fault always_created [E2; E1]) [row1]))).
Proof.
  destruct (published_link_is_skipped lib0 (world_of no_fault always_created [E2; E1]) cfg0
              self0 (lit "publish") (state_of [row1]) (entry_link E1)
              (or_introl eq_refl)) as [Hskip Hrun].
  split.
  - apply (Hskip eq_refl E1 eq_refl).
  - destruct (Hrun (RSS_FEED_URL cfg0) _ _
                (surjective_pairing (run (world_of no_fault always_created [E2; E1]) [row1])))
      as (evs & new & Hh & _ & _ & _ & Hno).
    cbn [state_of history app] in Hh. rewrite Hh.
    apply Hno. apply no_fault_never_faults_on_select.
Defined.

(** C1 as stated fails: with the table unreadable, the entry whose link has
    a row is submitted again (and its [INSERT] is refused by the primary key). *)
Lemma unreadable_table_resubmits :
  has_link (entry_link E1) [row1] = true
  /\ calls (history (fst (run (world_of locked_on_select always_created [E1]) [row1])))
     = [submission lib0 (lit "publish") E1]
  /\ published_items (fst (run (world_of locked_on_select always_created [E1]) [row1]))
     = [row1].
Proof. repeat split; vm_compute; reflexivity. Qed.

(** The server refuses the post of E2 and accepts those of E1 and E3: E3 has
    a row after the run and E2 has none. *)
Lemma rows_follow_successful_publish_witness :
  In (entry_link E3) (links (fst (run (world_of no_fault refuses_two [E3; E2; E1]) [])))
  /\ ~ In (entry_link E2) (links (fst (run (world_of no_fault refuses_two [E3; E2; E1]) []))).
Proof.
  destruct (rows_follow_successful_publish lib0 (world_of no_fault refuses_two [E3; E2; E1])
              cfg0 self0 (RSS_FEED_URL cfg0) (lit "publish") (state_of []) _ _
              (surjective_pairing (run (world_of no_fault refuses_two [E3; E2; E1]) [])))
    as (evs & new & Hh & _ & _ & _ & Hfail & Hrec).
  cbn [state_of history app] in Hh. split.
  - apply (Hrec (no_fault_never_faults_on_insert _ _) (entry_link E3)
             (JObj [(lit "id", JInt 7)])); [|reflexivity].
    rewrite <- Hh. vm_compute. repeat (first [left; reflexivity | right]).
  - apply Hfail; [intros []|].
    intros v Hin. rewrite <- Hh in Hin. vm_compute in Hin.
    repeat (destruct Hin as [Hin|Hin]; [try discriminate Hin|]); [|contradiction].
    injection Hin as <-. reflexivity.
Defined.

(** C2 as stated fails: with the table unwritable, the posts of E1 and E3
    are created and none is recorded. *)
Lemma unwritable_table_loses_record :
  flow (history (fst (run (world_of full_on_insert refuses_two [E3; E2; E1]) [])))
  = [submission lib0 (lit "publish") E1;
     Return_create_post (entry_link E1) (JObj [(lit "id", JInt 7)]);
     SqlInsert (entry_link E1) (lit "one") (lit "2024-05-01T10:00:00") (JInt 7);
     submission lib0 (lit "publish") E2;
     Return_create_post (entry_link E2) JNull;
     submission lib0 (lit "publish") E3;
     Return_create_post (entry_link E3) (JObj [(lit "id", JInt 7)]);
     SqlInsert (entry_link E3) (lit "three") (lit "2024-05-01T10:00:00") (JInt 7)]
  /\ truthy (JObj [(lit "id", JInt 7)]) = true
  /\ published_items (fst (run (world_of full_on_insert refuses_two [E3; E2; E1]) [])) = [].
Proof. repeat split; vm_compute; reflexivity. Qed.


(** The server answers 401 to everything: [main] ends after the "who am I"
    request. *)
Lemma rejected_credentials_abort_startup_witness :
  exists evs,
    main lib0 (world_of no_fault unauthorized [E1]) cfg0 (state_of [])
    = ({| published_items := []; history := evs |}, Ok tt)
    /\ forallb (fun e => negb (is_fetch_or_publish e)) evs = true.
Proof.
  apply (rejected_credentials_abort_startup lib0 (world_of no_fault unauthorized [E1]) cfg0
           (state_of [])).
  reflexivity.
Defined.

(** The table holds the row of E1 and cannot be read: the check answers
    [False], and the turn of E1 submits it. *)
Lemma read_failure_reports_unpublished_witness :
  has_link (entry_link E1) [row1] = true
  /\ _is_item_published (world_of locked_on_select always_created [E1]) self0
       (entry_link E1) (state_of [row1])
     = ({| published_items := [row1];
           history := [SqlSelect (entry_link E1);
                       Log ERROR (DatabaseQueryError
                                    (SqliteError (lit "database is locked")))] |},
        Ok false)
  /\ exists evs,
       history (fst (process_entry lib0 (world_of locked_on_select always_created [E1]) cfg0
                       self0 (lit "publish") E1 (state_of [row1])))
       = evs
       /\ calls evs = [submission lib0 (lit "publish") E1].
Proof.
  split; [reflexivity|].
  destruct (read_failure_reports_unpublished lib0
              (world_of locked_on_select always_created [E1]) cfg0 self0 (entry_link E1)
              (state_of [row1]) (lit "database is locked") eq_refl) as [Hsel Hturn].
  split; [exact Hsel|].
  destruct (Hturn (lit "publish") E1 eq_refl) as [_ Hcalls].
  destruct (Hcalls _ _ (surjective_pairing _)) as (evs & Hh & _ & Hc).
  exists evs. split; [exact Hh|exact Hc].
Defined.

(** C10 as stated fails: the description of E4 holds a character reference
    of 4301 digits, which [html.unescape] does not decode.  With the table
    unreadable the check answers [False], and the turn of E4 raises
    [ValueError] before [create_post] is called: the entry is not submitted
    and the run ends. *)
Lemma undecodable_entry_is_not_resubmitted :
  snd (_is_item_published (world_of locked_on_select always_created [E4]) self0
         (entry_link E4) (state_of []))
  = Ok false
  /\ calls (history (fst (run (world_of locked_on_select always_created [E4]) []))) = []
  /\ snd (run (world_of locked_on_select always_created [E4]) []) = Raise ValueError.
Proof. repeat split; vm_compute; reflexivity. Qed.

(** The example of the specification: tags [rust] and [go] under the prefix
    [https://x.example]. *)
Lemma tag_links_in_post_content_witness :
  exists data before,
    create_post_dict lib0 cfg0 self0 (lit "one") (lit "first") (lit "https://a.example/1")
      [lit "rust"; lit "go"] (lit "publish") (state_of [])
    = (state_of [], Ok data)
    /\ pd_content data =
       before ++ lit "<p class=" ++ [dq] ++ lit "taglist" ++ [dq] ++ lit ">Tags: "
         ++ (lit "<a class=" ++ [dq] ++ lit "delicioustag" ++ [dq] ++ lit " href=" ++ [dq]
               ++ lit "https://x.example/t:rust" ++ [dq] ++ lit ">rust</a>"
               ++ lit " "
               ++ lit "<a class=" ++ [dq] ++ lit "delicioustag" ++ [dq] ++ lit " href=" ++ [dq]
               ++ lit "https://x.example/t:go" ++ [dq] ++ lit ">go</a>")
         ++ lit "</p></li></ul>".
Proof.
  destruct (tag_links_in_post_content lib0 cfg0 self0 (lit "one") (lit "first")
              (lit "https://a.example/1") [lit "rust"; lit "go"] (lit "publish")
              (state_of []) (lit "https://x.example") eq_refl)
    as (data & before & Hrun & Hcontent & _).
  exists data, before. split; [exact Hrun|]. rewrite Hcontent. reflexivity.
Defined.


(** C4 as stated fails: a response with status 300 and a JSON body is not a
    success, and [create_post] returns its body and logs nothing; [if result:]
    then takes the post for created. *)
Lemma status_300_is_returned_as_success :
  snd (create_post lib0 (world_of no_fault undecided []) cfg0 self0 (lit "one") (lit "first")
         (lit "https://a.example/1") [] (lit "publish") (state_of []))
  = Ok (JObj [(lit "code", JStr (lit "multiple_choices"))])
  /\ existsb is_log
       (history (fst (create_post lib0 (world_of no_fault undecided []) cfg0 self0 (lit "one")
                        (lit "first") (lit "https://a.example/1") [] (lit "publish")
                        (state_of []))))
     = false
  /\ truthy (JObj [(lit "code", JStr (lit "multiple_choices"))]) = true.
Proof. repeat split; vm_compute; reflexivity. Qed.

(** A feed that does not parse. *)
Lemma failed_fetch_ends_run_witness :
  exists m,
    run unparsed_feed [row1]
    = ({| published_items := [row1];
          history := [FeedParse (RSS_FEED_URL cfg0); Log ERROR m] |}, Ok tt).
Proof.
  exact (failed_fetch_ends_run lib0 unparsed_feed cfg0 self0 (RSS_FEED_URL cfg0)
           (lit "publish") (state_of [row1]) I).
Defined.


(** ** Base64 and UTF-8 *)

Lemma div_mul_add x k y : k <> 0 -> y < k -> (x * k + y) / k = x.
Proof.
  intros Hk Hy. rewrite N.div_add_l by assumption. rewrite N.div_small by assumption.
  apply N.add_0_r.
Qed.

Lemma mod_mul_add x k y : k <> 0 -> y < k -> (x * k + y) mod k = y.
Proof.
  intros Hk Hy. rewrite N.add_comm, N.Div0.mod_add. apply N.mod_small. assumption.
Qed.

Lemma div_bound x k n : k <> 0 -> x < k * n -> x / k < n.
Proof. intros Hk Hx. apply N.Div0.div_lt_upper_bound. assumption. Qed.

Lemma split_byte x k : k <> 0 -> (x / k) * k + x mod k = x.
Proof. intros Hk. rewrite N.mul_comm. symmetry. apply N.div_mod. assumption. Qed.

Lemma sextets a b c :
  a < 256 -> b < 256 -> c < 256 ->
  (a / 4) * 4 + ((a mod 4) * 16 + b / 16) / 16 = a
  /\ (((a mod 4) * 16 + b / 16) mod 16) * 16 + ((b mod 16) * 4 + c / 64) / 4 = b
  /\ (((b mod 16) * 4 + c / 64) mod 4) * 64 + c mod 64 = c
  /\ a / 4 < 64 /\ (a mod 4) * 16 + b / 16 < 64
  /\ (b mod 16) * 4 + c / 64 < 64 /\ c mod 64 < 64.
Proof.
  intros Ha Hb Hc.
  assert (Hb16 : b / 16 < 16) by (apply div_bound; lia).
  assert (Hc64 : c / 64 < 4) by (apply div_bound; lia).
  assert (Ha4 : a / 4 < 64) by (apply div_bound; lia).
  assert (Ham : a mod 4 < 4) by (apply N.mod_lt; lia).
  assert (Hbm : b mod 16 < 16) by (apply N.mod_lt; lia).
  assert (Hcm : c mod 64 < 64) by (apply N.mod_lt; lia).
  rewrite !div_mul_add, !mod_mul_add by lia.
  pose proof (split_byte a 4). pose proof (split_byte b 16). pose proof (split_byte c 64).
  repeat split; lia.
Qed.

Lemma below_64 (P : N -> bool) :
  forallb P (map N.of_nat (seq 0 64)) = true -> forall i, i < 64 -> P i = true.
Proof.
  intros H i Hi. rewrite forallb_forall in H. apply H.
  rewrite <- (N2Nat.id i). apply in_map. apply in_seq. lia.
Qed.

Lemma b64_index_char i : i < 64 -> b64_index (b64_char i) = Some i.
Proof.
  intros Hi.
  apply (below_64 (fun i => match b64_index (b64_char i) with
                            | Some j => j =? i
                            | None => false
                            end)) in Hi; [|vm_compute; reflexivity].
  destruct (b64_index (b64_char i)); [|discriminate]. apply N.eqb_eq in Hi. congruence.
Qed.

Lemma b64_char_not_pad i : i < 64 -> (b64_char i =? 61) = false.
Proof.
  intros Hi. apply (below_64 (fun i => negb (b64_char i =? 61))) in Hi;
    [|vm_compute; reflexivity].
  apply negb_true_iff. assumption.
Qed.

(** Decoding what was encoded gives the bytes back. *)
Lemma b64decode_encode bs :
  Forall (fun b => b < 256) bs -> b64decode (b64encode_bytes bs) = Some bs.
Proof.
  remember (length bs) as n eqn:Hn. revert bs Hn.
  induction n as [n IH] using lt_wf_ind. intros bs Hn Hall.
  destruct bs as [|a [|b [|c r]]].
  - reflexivity.
  - inversion Hall as [|? ? Ha _]; subst.
    destruct (sextets a 0 0 Ha) as (E1 & _ & _ & Hs1 & Hs2 & _); [lia|lia|].
    cbn [b64encode_bytes b64decode].
    change (0 / 16) with 0 in *. rewrite N.add_0_r in *.
    rewrite !b64_index_char by assumption. cbn. rewrite E1. reflexivity.
  - inversion Hall as [|? ? Ha Hall1]; subst. inversion Hall1 as [|? ? Hb _]; subst.
    destruct (sextets a b 0 Ha Hb) as (E1 & E2 & _ & Hs1 & Hs2 & Hs3 & _); [lia|].
    cbn [b64encode_bytes b64decode].
    change (0 / 64) with 0 in *. rewrite N.add_0_r in *.
    rewrite !b64_index_char by assumption.
    rewrite (b64_char_not_pad _ Hs3). cbn [andb].
    rewrite N.eqb_refl, E1, E2. reflexivity.
  - inversion Hall as [|? ? Ha Hall1]; subst. inversion Hall1 as [|? ? Hb Hall2]; subst.
    inversion Hall2 as [|? ? Hc Hall3]; subst.
    destruct (sextets a b c Ha Hb Hc) as (E1 & E2 & E3 & Hs1 & Hs2 & Hs3 & Hs4).
    cbn [b64encode_bytes b64decode].
    rewrite !b64_index_char by assumption.
    rewrite (b64_char_not_pad _ Hs3), (b64_char_not_pad _ Hs4). cbn [andb].
    rewrite (IH (length r)); [|cbn; lia|reflexivity|assumption].
    rewrite E1, E2, E3. reflexivity.
Qed.

Lemma Some_eq {A} (x y : A) : Some x = Some y -> x = y.
Proof. congruence. Qed.

(** The UTF-8 encoding only produces bytes. *)
Lemma utf8_char_bytes c bs : utf8_char c = Some bs -> Forall (fun b => b < 256) bs.
Proof.
  unfold utf8_char.
  destruct (c <? 0x80) eqn:H1.
  { intros E. apply Some_eq in E. subst bs. apply N.ltb_lt in H1. repeat constructor. lia. }
  destruct (c <? 0x800) eqn:H2.
  { intros E. apply Some_eq in E. subst bs. apply N.ltb_lt in H2.
    assert (c / 64 < 32) by (apply div_bound; lia).
    assert (c mod 64 < 64) by (apply N.mod_lt; lia).
    repeat constructor. all: lia. }
  destruct (c <? 0x10000) eqn:H3.
  { destruct (in_range 0xD800 0xDFFF c); [discriminate|].
    intros E. apply Some_eq in E. subst bs. apply N.ltb_lt in H3.
    assert (c / 4096 < 16) by (apply div_bound; lia).
    assert ((c / 64) mod 64 < 64) by (apply N.mod_lt; lia).
    assert (c mod 64 < 64) by (apply N.mod_lt; lia).
    repeat constructor. all: lia. }
  destruct (c <? 0x110000) eqn:H4; [|discriminate].
  intros E. apply Some_eq in E. subst bs. apply N.ltb_lt in H4.
  assert (c / 262144 < 5) by (apply div_bound; lia).
  assert ((c / 4096) mod 64 < 64) by (apply N.mod_lt; lia).
  assert ((c / 64) mod 64 < 64) by (apply N.mod_lt; lia).
  assert (c mod 64 < 64) by (apply N.mod_lt; lia).
  repeat constructor. all: lia.
Qed.

Lemma utf8_encode_bytes s bs : utf8_encode s = Some bs -> Forall (fun b => b < 256) bs.
Proof.
  revert bs; induction s as [|c s IH]; intros bs; cbn [utf8_encode].
  - intros [= <-]. constructor.
  - destruct (utf8_char c) as [b|] eqn:Hc; [|discriminate].
    destruct (utf8_encode s) as [bs'|]; [|discriminate].
    intros [= <-]. apply Forall_app. split; [eapply utf8_char_bytes; eassumption|auto].
Qed.

(** An ASCII string is its own UTF-8 encoding. *)
Lemma utf8_encode_ascii s : Forall (fun c => c < 128) s -> utf8_encode s = Some s.
Proof.
  induction 1 as [|c s Hc _ IH]; [reflexivity|].
  cbn [utf8_encode]. unfold utf8_char.
  apply N.ltb_lt in Hc. rewrite Hc, IH. reflexivity.
Qed.


(** ** The authorization header *)

(** When the credentials have a UTF-8 encoding, the token of the
    [Authorization] header is the base64 text of the bytes of
    [username:password]: decoding it gives these bytes back, and for ASCII
    credentials the very characters. *)
Theorem authorization_header_decodes_to_credentials L u p bytes :
  utf8_encode (u ++ lit ":" ++ p) = Some bytes ->
  b64encode L bytes = b64encode_bytes bytes ->
  exists token,
    create_auth_header L u p =
    Ok [(lit "Authorization", lit "Basic " ++ token);
        (lit "Content-Type", lit "application/json")]
    /\ b64decode token = utf8_encode (u ++ lit ":" ++ p)
    /\ (Forall (fun c => c < 128) (u ++ p) ->
        b64decode token = Some (u ++ lit ":" ++ p)).
Proof.
  intros Hbs H. exists (b64encode L bytes).
  split; [unfold create_auth_header; rewrite Hbs; reflexivity|].
  rewrite H.
  assert (Hd : b64decode (b64encode_bytes bytes) = Some bytes).
  { apply b64decode_encode. eapply utf8_encode_bytes. eassumption. }
  split; [congruence|].
  intros Hascii. rewrite Hd, <- Hbs. apply utf8_encode_ascii.
  apply Forall_app in Hascii. destruct Hascii as [Hu Hp].
  apply Forall_app. split; [assumption|].
  apply Forall_app. split; [|assumption].
  repeat constructor.
Qed.

Lemma authorization_header_decodes_to_credentials_witness :
  exists token,
    create_auth_header lib_py (lit "editor") (lit "secret") =
    Ok [(lit "Authorization", lit "Basic " ++ token);
        (lit "Content-Type", lit "application/json")]
    /\ b64decode token = utf8_encode (lit "editor" ++ lit ":" ++ lit "secret")
    /\ (Forall (fun c => c < 128) (lit "editor" ++ lit "secret") ->
        b64decode token = Some (lit "editor" ++ lit ":" ++ lit "secret")).
Proof.
  apply (authorization_header_decodes_to_credentials lib_py (lit "editor") (lit "secret")
           (lit "editor:secret")); vm_compute; reflexivity.
Defined.

(** ** Tags *)

Lemma split_from_words cur s :
  forallb (fun c => negb (isspace c)) cur = true ->
  Forall (fun t => is_word t = true) (split_from cur s).
Proof.
  revert cur; induction s as [|c s IH]; intros cur Hcur; cbn [split_from].
  - destruct cur; constructor; [assumption|constructor].
  - destruct (isspace c) eqn:Hc.
    + destruct cur; [apply IH; reflexivity|].
      constructor; [assumption|apply IH; reflexivity].
    + apply IH. rewrite forallb_app, Hcur. cbn. rewrite Hc. reflexivity.
Qed.

Lemma split_words s : Forall (fun t => is_word t = true) (split s).
Proof. apply split_from_words. reflexivity. Qed.

Lemma extend_tags_spec topics tags :
  exists pre,
    fst (extend_tags topics tags) = tags ++ flat_map topic_words pre
    /\ match snd (extend_tags topics tags) with
       | None => pre = topics
       | Some e => e = AttributeError /\ exists post, topics = pre ++ Term None :: post
       end
    /\ ~ In (Term None) pre.
Proof.
  revert tags; induction topics as [|t topics IH]; intros tags.
  - exists []. cbn. rewrite app_nil_r. auto.
  - destruct t as [|[s|]]; cbn [extend_tags].
    + destruct (IH tags) as (pre & H1 & H2 & H3). exists (NoTerm :: pre).
      cbn [flat_map topic_words app]. split; [assumption|]. split.
      * destruct (snd (extend_tags topics tags)); [|congruence].
        destruct H2 as (-> & post & ->). split; [reflexivity|]. exists post. reflexivity.
      * intros [Hx|Hx]; [discriminate|auto].
    + destruct (IH (tags ++ split s)) as (pre & H1 & H2 & H3).
      exists (Term (Some s) :: pre).
      cbn [flat_map topic_words]. rewrite H1, <- app_assoc. split; [reflexivity|]. split.
      * destruct (snd (extend_tags topics (tags ++ split s))); [|congruence].
        destruct H2 as (-> & post & ->). split; [reflexivity|]. exists post. reflexivity.
      * intros [Hx|Hx]; [discriminate|auto].
    + exists []. cbn. rewrite app_nil_r. repeat split; eauto.
Qed.

Lemma flat_map_words l : Forall (fun t => is_word t = true) (flat_map topic_words l).
Proof.
  induction l as [|t l IH]; [constructor|].
  cbn [flat_map]. apply Forall_app. split; [|assumption].
  destruct t as [|[s|]]; cbn; try constructor. apply split_words.
Qed.

Lemma is_none_term_In topics :
  existsb is_none_term topics = true <-> In (Term None) topics.
Proof.
  rewrite existsb_exists. split.
  - intros (t & Hin & Ht). destruct t as [|[s|]]; try discriminate. assumption.
  - intros Hin. exists (Term None). split; [assumption|reflexivity].
Qed.

(** [_extract_tags_from_rss] never raises and leaves the table alone.
    Its tags are the words of the terms that come before the first term
    that is [None], each of them non-empty and free of white space; it logs
    one warning when there is such a term, and nothing otherwise. *)
Theorem extracted_tags_are_the_words_of_the_terms e st :
  exists pre,
    _extract_tags_from_rss e st =
    ({| published_items := published_items st;
        history :=
          history st ++
          (if existsb is_none_term (e_tags e)
           then [Log WARNING (ErrorExtractingTags AttributeError)] else []) |},
     Ok (flat_map topic_words pre))
    /\ Forall (fun t => is_word t = true) (flat_map topic_words pre)
    /\ existsb is_none_term pre = false
    /\ (if existsb is_none_term (e_tags e)
        then exists post, e_tags e = pre ++ Term None :: post
        else pre = e_tags e).
Proof.
  destruct (extend_tags_spec (e_tags e) []) as (pre & H1 & H2 & H3).
  exists pre. unfold _extract_tags_from_rss.
  destruct (extend_tags (e_tags e) []) as [tags failure]. cbn [fst snd app] in *. subst tags.
  assert (Hpre : existsb is_none_term pre = false).
  { destruct (existsb is_none_term pre) eqn:Hx; [|reflexivity].
    apply is_none_term_In in Hx. contradiction. }
  destruct failure as [x|].
  - destruct H2 as (-> & post & Hpost).
    assert (Hex : existsb is_none_term (e_tags e) = true).
    { apply is_none_term_In. rewrite Hpost. apply in_or_app. right. left. reflexivity. }
    rewrite Hex. repeat split; [apply flat_map_words|assumption|].
    exists post. assumption.
  - subst pre. rewrite Hpre. repeat split; [|apply flat_map_words].
    unfold bind, ret. destruct st. cbn. rewrite app_nil_r. reflexivity.
Qed.


Lemma split_from_word cur w rest :
  forallb (fun c => negb (isspace c)) w = true ->
  split_from cur (w ++ rest) = split_from (cur ++ w) rest.
Proof.
  revert cur; induction w as [|c w IH]; intros cur Hw.
  - rewrite app_nil_r. reflexivity.
  - cbn in Hw. apply andb_true_iff in Hw. destruct Hw as [Hc Hw].
    apply negb_true_iff in Hc. cbn [app split_from]. rewrite Hc.
    rewrite IH by assumption. rewrite <- app_assoc. reflexivity.
Qed.

Lemma is_word_chars w :
  is_word w = true -> w <> [] /\ forallb (fun c => negb (isspace c)) w = true.
Proof. destruct w; [discriminate|]. intros H. split; [discriminate|exact H]. Qed.

Lemma split_join ws :
  Forall (fun t => is_word t = true) ws -> split (join (lit " ") ws) = ws.
Proof.
  unfold split. induction 1 as [|w ws Hw Hws IH]; [reflexivity|].
  apply is_word_chars in Hw. destruct Hw as [Hne Hw].
  cbn [join]. destruct ws as [|w' ws].
  - pose proof (split_from_word [] w [] Hw) as Hs. rewrite app_nil_r in Hs.
    rewrite Hs. cbn. destruct w; [congruence|reflexivity].
  - rewrite split_from_word by assumption.
    cbn [app lit]. change (lit " " ++ join (lit " ") (w' :: ws))
      with (32 :: join (lit " ") (w' :: ws)).
    cbn [split_from]. change (isspace 32) with true. cbn iota.
    rewrite IH. destruct w; [congruence|reflexivity].
Qed.

(** A term that holds tags separated by single spaces gives exactly
    these tags, in their order, and logs nothing. *)
Theorem space_separated_term_gives_its_tags e ws st :
  Forall (fun t => is_word t = true) ws ->
  e_tags e = [Term (Some (join (lit " ") ws))] ->
  _extract_tags_from_rss e st = (st, Ok ws).
Proof.
  intros Hws He. unfold _extract_tags_from_rss. rewrite He. cbn [extend_tags app].
  rewrite split_join by assumption. reflexivity.
Qed.

Lemma space_separated_term_gives_its_tags_witness :
  _extract_tags_from_rss E1 (state_of []) = (state_of [], Ok [lit "rust"; lit "go"]).
Proof.
  apply (space_separated_term_gives_its_tags E1 [lit "rust"; lit "go"] (state_of [])).
  - repeat constructor.
  - reflexivity.
Defined.

(** ** The address of the site *)

Lemma rstrip_char_all x n : rstrip_char x (repeat x n) = [].
Proof.
  induction n as [|n IH]; [reflexivity|].
  cbn [repeat rstrip_char]. rewrite IH, N.eqb_refl. reflexivity.
Qed.

Lemma rstrip_char_repeat x s n : rstrip_char x (s ++ repeat x n) = rstrip_char x s.
Proof.
  induction s as [|c s IH].
  - cbn [app]. rewrite rstrip_char_all. reflexivity.
  - cbn [app rstrip_char]. rewrite IH. reflexivity.
Qed.

Lemma rstrip_char_no_tail x s t : rstrip_char x s <> t ++ [x].
Proof.
  revert t; induction s as [|c s IH]; intros t; cbn [rstrip_char].
  - destruct t; discriminate.
  - destruct (rstrip_char x s) as [|d r] eqn:Hr.
    + destruct (c =? x) eqn:Hc.
      * destruct t; discriminate.
      * destruct t as [|a [|b t]]; cbn; try discriminate.
        intros [= ->]. rewrite N.eqb_refl in Hc. discriminate.
    + destruct t as [|a t]; cbn; [discriminate|].
      intros [= _ Ht]. exact (IH t Ht).
Qed.

Lemma rstrip_char_prefix x s : exists n, s = rstrip_char x s ++ repeat x n.
Proof.
  induction s as [|c s [n IH]]; [exists O; reflexivity|].
  cbn [rstrip_char]. destruct (rstrip_char x s) as [|d r] eqn:Hr.
  - destruct (c =? x) eqn:Hc.
    + apply N.eqb_eq in Hc. subst c. exists (S n). cbn in *. congruence.
    + exists n. cbn in *. congruence.
  - exists n. cbn in *. congruence.
Qed.

(** Slashes at the end of [WORDPRESS_URL] do not matter: a run with
    more of them is the same run.  The publisher keeps the address without
    them, so the address of the API never has two slashes before [wp-json]. *)
Theorem trailing_slashes_of_the_site_are_dropped L W C n st :
  main L W (with_url C (WORDPRESS_URL C ++ repeat 47 n)) st = main L W C st
  /\ (exists k, WORDPRESS_URL C = rstrip_char 47 (WORDPRESS_URL C) ++ repeat 47 k)
  /\ forall self st',
       __init__ L W (WORDPRESS_URL C) (USERNAME C) (APP_PASSWORD C) (DB_PATH C) st
       = (st', Ok self) ->
       api_base self = wordpress_url self ++ lit "/wp-json/wp/v2"
       /\ wordpress_url self = rstrip_char 47 (WORDPRESS_URL C)
       /\ forall t, api_base self <> t ++ lit "//wp-json/wp/v2".
Proof.
  split; [|split].
  - unfold main, __init__. cbn [with_url WORDPRESS_URL USERNAME APP_PASSWORD DB_PATH
                               RSS_FEED_URL].
    rewrite rstrip_char_repeat. reflexivity.
  - apply rstrip_char_prefix.
  - intros self st'. rewrite __init___eq.
    destruct (create_auth_header L (USERNAME C) (APP_PASSWORD C)); [|discriminate].
    cbn zeta. destruct (sqlite_fault W _); [discriminate|].
    destruct (verify_outcome _) as [logs [e|]]; [discriminate|].
    intros [= _ <-]. unfold publisher_of. cbn [api_base wordpress_url].
    split; [reflexivity|]. split; [reflexivity|].
    intros t Ht.
    change (t ++ lit "//wp-json/wp/v2") with (t ++ [47] ++ lit "/wp-json/wp/v2") in Ht.
    rewrite app_assoc in Ht. apply app_inv_tail in Ht.
    exact (rstrip_char_no_tail _ _ _ Ht).
Qed.


(** ** Start-up *)





Section Whole.
Variable L : Lib.
Variable W : World.
Variable C : Config.

(** A pass over the feed starts with the fetch, only appends to the
    history, only adds rows, and adds no row for a link that is there. *)
Lemma post_feed_items_grows self url status st st' r :
  post_feed_items L W C self url status st = (st', r) ->
  exists evs new,
    history st' = history st ++ FeedParse url :: evs
    /\ published_items st' = published_items st ++ new
    /\ (forall row, In row new -> has_link (r_link row) (published_items st) = false)
    /\ (NoDup (links st) -> NoDup (links st')).
Proof.
  intros H. apply post_feed_items_run in H.
  destruct H as [(Hrows & _ & (m & Hh) & _)|(f & Hf & Hb & Hloop)].
  - exists [Log ERROR m], []. rewrite app_nil_r. repeat split; try assumption.
    + intros row [].
    + unfold links. rewrite Hrows. auto.
  - destruct (loop_extends _ _ _ _ _ _ _ Hloop) as (evs & new & Hh & Hrows).
    cbn [history published_items] in Hh, Hrows.
    exists evs, new. split; [rewrite Hh, <- app_assoc; reflexivity|].
    split; [assumption|]. split.
    + intros row Hin.
      destruct (loop_new_rows _ _ _ _ _ _ _ Hloop evs new Hh Hrows row Hin) as (Hl & _).
      exact Hl.
    + intros Hnd. exact (loop_nodup L W status _ _ _ _ Hloop Hnd).
Qed.
End Whole.

(** With credentials that have a UTF-8 encoding and a database that opens,
    when the site answers the start-up request with any status from 400 to
    599, or does not answer, the program logs it and returns: the feed is not
    fetched, nothing is published and the table is as before. *)
Theorem refused_startup_request_ends_the_run L W C st :
  utf8_encode (USERNAME C ++ lit ":" ++ APP_PASSWORD C) <> None ->
  sqlite_fault W (history st ++ [SqlCreateTable]) = None ->
  refused (http_reply W (history st ++ [SqlCreateTable; Log INFO DatabaseInitialized;
                                        whoami_request L C])) = true ->
  exists logs e,
    main L W C st =
    ({| published_items := published_items st;
        history := history st ++
          [SqlCreateTable; Log INFO DatabaseInitialized; whoami_request L C]
          ++ logs ++ [PrintTraceback e; Log ERROR (FailedToInitialize e)] |}, Ok tt)
    /\ forallb (fun ev => negb (is_fetch_or_publish ev)) logs = true
    /\ logs <> [].
Proof.
  intros Henc Hf Hr.
  destruct (create_auth_header_returns L _ _ Henc) as [header Hheader].
  unfold main, try_except. unfold bind at 1. rewrite __init___eq, Hheader. cbn zeta.
  rewrite Hf. rewrite <- app_assoc. cbn [app].
  apply verify_outcome_refused in Hr.
  pose proof (verify_outcome_quiet
    (http_reply W (history st ++ [SqlCreateTable; Log INFO DatabaseInitialized;
                                  whoami_request L C]))) as Hq.
  assert (Hne : fst (verify_outcome
    (http_reply W (history st ++ [SqlCreateTable; Log INFO DatabaseInitialized;
                                  whoami_request L C]))) <> []).
  { destruct (http_reply W _) as [r|msg r]; cbn; [|discriminate].
    destruct (status_code r =? 401)%Z; [discriminate|].
    destruct ((400 <=? status_code r) && (status_code r <? 600))%Z; discriminate. }
  destruct (verify_outcome _) as [logs [e|]]; cbn [fst snd] in *; [|congruence].
  exists logs, e. unfold bind, emit. cbn [history published_items].
  rewrite <- !app_assoc. cbn [app]. auto.
Qed.

(** With credentials that have a UTF-8 encoding and a database that opens,
    any other answer to the start-up request counts as a successful login,
    whatever its body: the publisher is built from the configuration and the
    program goes on to fetch the configured feed. *)
Theorem accepted_startup_request_fetches_the_feed L W C st :
  utf8_encode (USERNAME C ++ lit ":" ++ APP_PASSWORD C) <> None ->
  sqlite_fault W (history st ++ [SqlCreateTable]) = None ->
  refused (http_reply W (history st ++ [SqlCreateTable; Log INFO DatabaseInitialized;
                                        whoami_request L C])) = false ->
  __init__ L W (WORDPRESS_URL C) (USERNAME C) (APP_PASSWORD C) (DB_PATH C) st =
  ({| published_items := published_items st;
      history := history st ++
        [SqlCreateTable; Log INFO DatabaseInitialized; whoami_request L C;
         Log INFO AuthSuccessful] |}, Ok (publisher_of L C))
  /\ exists evs,
       history (fst (main L W C st)) =
       history st ++
         [SqlCreateTable; Log INFO DatabaseInitialized; whoami_request L C;
          Log INFO AuthSuccessful; FeedParse (RSS_FEED_URL C)] ++ evs.
Proof.
  intros Henc Hf Hr.
  destruct (create_auth_header_returns L _ _ Henc) as [header Hheader].
  assert (E : __init__ L W (WORDPRESS_URL C) (USERNAME C) (APP_PASSWORD C) (DB_PATH C) st =
    ({| published_items := published_items st;
        history := history st ++
          [SqlCreateTable; Log INFO DatabaseInitialized; whoami_request L C;
           Log INFO AuthSuccessful] |}, Ok (publisher_of L C))).
  { rewrite __init___eq, Hheader. cbn zeta. rewrite Hf. rewrite <- app_assoc. cbn [app].
    destruct (http_reply W _) as [r|msg r]; [|discriminate]. cbn in Hr. cbn [verify_outcome].
    destruct (status_code r =? 401)%Z eqn:H401.
    { apply Z.eqb_eq in H401. rewrite H401 in Hr. discriminate. }
    rewrite Hr. rewrite <- app_assoc. reflexivity. }
  split; [exact E|].
  unfold main, try_except. unfold bind at 1. rewrite E.
  destruct (post_feed_items L W C (publisher_of L C) (RSS_FEED_URL C) (lit "publish") _)
    as [st' r] eqn:Hp.
  apply post_feed_items_grows in Hp. destruct Hp as (evs & new & Hh & _).
  cbn [history] in Hh.
  destruct r as [[]|x].
  - exists evs. cbn [fst]. rewrite Hh, <- app_assoc. reflexivity.
  - exists (evs ++ [PrintTraceback x; Log ERROR (FailedToInitialize x)]).
    unfold bind, emit. cbn [fst history]. rewrite Hh, <- !app_assoc. reflexivity.
Qed.

(** [main] never raises.  Whatever the site, the feed and the database
    do, a run only appends to what has happened and only adds rows: no row
    is changed or removed, no row is added for a link that was recorded, and
    links stay unique. *)
Theorem main_returns_and_the_table_only_grows L W C st :
  exists st' evs new,
    main L W C st = (st', Ok tt)
    /\ history st' = history st ++ evs
    /\ published_items st' = published_items st ++ new
    /\ (forall row, In row new -> ~ In (r_link row) (links st))
    /\ (NoDup (links st) -> NoDup (links st')).
Proof.
  unfold main, try_except. unfold bind at 1. rewrite __init___eq.
  destruct (create_auth_header L (USERNAME C) (APP_PASSWORD C)) as [header|x].
  2: { unfold bind, emit. cbn [history published_items].
    do 2 eexists. exists []. split; [reflexivity|]. cbn [history published_items].
    split; [rewrite <- !app_assoc; reflexivity|].
    split; [symmetry; apply app_nil_r|].
    split; [intros row []|auto]. }
  cbn zeta.
  destruct (sqlite_fault W (history st ++ [SqlCreateTable])) as [msg|].
  { unfold bind, emit. cbn [history published_items].
    do 2 eexists. exists []. split; [reflexivity|]. cbn [history published_items].
    split; [rewrite <- !app_assoc; reflexivity|].
    split; [symmetry; apply app_nil_r|].
    split; [intros row []|auto]. }
  destruct (verify_outcome _) as [logs [e|]].
  { unfold bind, emit. cbn [history published_items].
    do 2 eexists. exists []. split; [reflexivity|]. cbn [history published_items].
    split; [rewrite <- !app_assoc; reflexivity|].
    split; [symmetry; apply app_nil_r|].
    split; [intros row []|auto]. }
  destruct (post_feed_items L W C (publisher_of L C) (RSS_FEED_URL C) (lit "publish") _)
    as [st' r] eqn:Hp.
  apply post_feed_items_grows in Hp. destruct Hp as (evs & new & Hh & Hrows & Hnew & Hnd).
  cbn [history published_items] in Hh, Hrows, Hnew.
  assert (Hfresh : forall row, In row new -> ~ In (r_link row) (links st)).
  { intros row Hin Hl. apply has_link_In in Hl. rewrite (Hnew row Hin) in Hl. discriminate. }
  destruct r as [[]|x].
  - do 3 eexists. split; [reflexivity|]. rewrite Hh, <- !app_assoc.
    split; [reflexivity|]. split; [exact Hrows|]. split; [assumption|].
    intros H. apply Hnd. exact H.
  - unfold bind, emit. cbn [history published_items].
    do 3 eexists. split; [reflexivity|]. cbn [history published_items].
    rewrite Hh, <- !app_assoc.
    split; [reflexivity|]. split; [exact Hrows|]. split; [assumption|].
    intros H. unfold links. cbn [published_items]. apply Hnd. exact H.
Qed.

(** ** The table of published items *)





(** ** Turns of the loop *)

Section Turn.
Variable L : Lib.
Variable W : World.
Variable C : Config.

Lemma subscript_id_raises v st :
  id_of v = None ->
  exists x, subscript v (lit "id") st = (st, Raise x)
            /\ (x = KeyError (lit "id") \/ x = TypeError).
Proof.
  unfold subscript, id_of. intros H.
  destruct v; try (eexists; split; [reflexivity|right; reflexivity]).
  rewrite H. eexists; split; [reflexivity|left; reflexivity].
Qed.

Lemma _clean_content_raises s x : _clean_content L s = Raise x -> x = ValueError.
Proof. unfold _clean_content. destruct (unescape _ _); congruence. Qed.

(** A turn whose text decodes, up to the return of [create_post], and the
    rest of the turn. *)
Lemma publish_entry_submits self status e st text :
  _clean_content L (entry_content e) = Ok text ->
  exists pre v,
    flow pre = [submission L status e]
    /\ publish_entry L W C self status e (entry_link e) st =
       (if truthy v then
          (emit (Log INFO (CreatedPost (get_default (e_title e) []))) ;;
           post_id <- subscript v (lit "id") ;;
           _record_published_item W self (entry_link e) (get_default (e_title e) [])
             (get_default (e_published e) (datetime_now_isoformat W (history st)))
             post_id)%py
        else emit (Log ERROR (FailedToCreatePost (get_default (e_title e) []))))
         {| published_items := published_items st;
            history := history st ++ pre ++ [Return_create_post (entry_link e) v] |}.
Proof.
  intros Hdec. rewrite publish_entry_eq. cbn zeta. rewrite Hdec.
  assert (Htag : flow (tag_log e) = []).
  { unfold tag_log. destruct (snd (extend_tags (e_tags e) [])); reflexivity. }
  match goal with
  | |- context [post_outcome ?o] =>
      pose proof (post_outcome_flow o) as Hlogs; destruct (post_outcome o) as [logs v]
  end.
  cbn [fst snd] in *.
  exists (tag_log e ++
            [Log INFO (ExtractedTags (get_default (e_title e) [])
                         (fst (extend_tags (e_tags e) [])));
             Log INFO (CreatingPost (get_default (e_title e) []));
             Call_create_post (get_default (e_title e) []) text (entry_link e)
               (fst (extend_tags (e_tags e) [])) status;
             HttpPost (api_base self ++ lit "/posts") (auth_header self)
               (post_of L C (get_default (e_title e) []) text (entry_link e)
                  (fst (extend_tags (e_tags e) [])) status)] ++ logs), v.
  split.
  - rewrite !flow_app, Htag, Hlogs.
    unfold submission, decoded. rewrite Hdec. reflexivity.
  - rewrite <- !app_assoc. cbn [app]. reflexivity.
Qed.

(** A turn whose text does not decode ends after the log of the tags. *)
Lemma publish_entry_undecodable self status e st x :
  _clean_content L (entry_content e) = Raise x ->
  publish_entry L W C self status e (entry_link e) st =
  ({| published_items := published_items st;
      history := history st ++ tag_log e ++
        [Log INFO (ExtractedTags (get_default (e_title e) [])
                     (fst (extend_tags (e_tags e) [])))] |}, Raise x).
Proof. intros Hdec. rewrite publish_entry_eq. cbn zeta. rewrite Hdec. reflexivity. Qed.

(** When [_record_published_item] returns for an id that cannot be bound,
    an error of the database came before the binding. *)
Lemma record_returns_unbound self link title pd id st st' x :
  _record_published_item W self link title pd id st = (st', Ok tt) ->
  bind_error id = Some x -> is_sqlite3_Error x = false ->
  exists h msg, sqlite_fault W h = Some msg /\ sqlite_fault_early W h = true.
Proof.
  rewrite _record_published_item_eq. cbn zeta. intros H Hb Hs. rewrite Hb, Hs in H.
  destruct (sqlite_fault W (history st ++ [SqlInsert link title pd id])) as [msg|] eqn:Hf;
    [|discriminate].
  destruct (sqlite_fault_early W _) eqn:He; [eauto|discriminate].
Qed.

Lemma return_in_flow evs c l v0 ins l' v :
  flow evs = [c; Return_create_post l v0] ++ ins ->
  is_call c = true ->
  (ins = [] \/ exists a b p i, ins = [SqlInsert a b p i]) ->
  In (Return_create_post l' v) evs -> l' = l /\ v = v0.
Proof.
  intros Hfl Hc Hins Hin.
  assert (Hi : In (Return_create_post l' v) (flow evs)).
  { apply In_flow. split; [assumption|reflexivity]. }
  rewrite Hfl in Hi. cbn in Hi. destruct Hi as [Hi|[Hi|Hi]].
  - rewrite Hi in Hc. discriminate.
  - injection Hi as H1 H2. subst. auto.
  - destruct Hins as [->|(a & b & p & i & ->)]; [destruct Hi|].
    destruct Hi as [Hi|[]]. discriminate.
Qed.

Lemma unrecordable v :
  id_of v = None \/ (exists i, id_of v = Some i /\ bindable i = false) ->
  recordable v = false.
Proof.
  intros [H|(i & H & Hb)]; destruct v; cbn in *; try reflexivity; try discriminate;
    rewrite H; auto.
Qed.


(** A turn returns, or raises because the text of the entry cannot be
    decoded, or raises because [create_post] returned a true value that
    cannot be recorded. *)
Lemma process_entry_result self status e st st' r :
  process_entry L W C self status e st = (st', r) ->
  exists evs,
    history st' = history st ++ evs
    /\ ((r = Ok tt
         /\ (forall l v, In (Return_create_post l v) evs ->
               l = entry_link e
               /\ (truthy v = false ->
                   published_items st' = published_items st
                   /\ exists pre,
                        evs = pre ++ [Return_create_post (entry_link e) v;
                                      Log ERROR (FailedToCreatePost
                                                   (get_default (e_title e) []))])
               /\ (truthy v = true ->
                   exists i, id_of v = Some i
                     /\ forall x, bind_error i = Some x -> is_sqlite3_Error x = false ->
                          exists h msg, sqlite_fault W h = Some msg
                                        /\ sqlite_fault_early W h = true)))
        \/ (r = Raise ValueError
            /\ _clean_content L (entry_content e) = Raise ValueError
            /\ flow evs = []
            /\ published_items st' = published_items st)
        \/ exists v x,
             r = Raise x
             /\ (forall l' v', In (Return_create_post l' v') evs ->
                   l' = entry_link e /\ v' = v)
             /\ In (Return_create_post (entry_link e) v) evs
             /\ truthy v = true
             /\ published_items st' = published_items st
             /\ ((id_of v = None /\ (x = KeyError (lit "id") \/ x = TypeError)
                  /\ forall a b p i, ~ In (SqlInsert a b p i) evs)
                 \/ (exists i, id_of v = Some i /\ bind_error i = Some x
                               /\ is_sqlite3_Error x = false))).
Proof.
  rewrite process_entry_eq.
  assert (Hsub : forall pre0,
    flow pre0 = [] ->
    publish_entry L W C self status e (entry_link e)
      {| published_items := published_items st; history := history st ++ pre0 |}
    = (st', r) ->
    exists evs,
      history st' = history st ++ evs
      /\ ((r = Ok tt
           /\ (forall l v, In (Return_create_post l v) evs ->
                 l = entry_link e
                 /\ (truthy v = false ->
                     published_items st' = published_items st
                     /\ exists pre,
                          evs = pre ++ [Return_create_post (entry_link e) v;
                                        Log ERROR (FailedToCreatePost
                                                     (get_default (e_title e) []))])
                 /\ (truthy v = true ->
                     exists i, id_of v = Some i
                       /\ forall x, bind_error i = Some x -> is_sqlite3_Error x = false ->
                            exists h msg, sqlite_fault W h = Some msg
                                          /\ sqlite_fault_early W h = true)))
          \/ (r = Raise ValueError
              /\ _clean_content L (entry_content e) = Raise ValueError
              /\ flow evs = []
              /\ published_items st' = published_items st)
          \/ exists v x,
               r = Raise x
               /\ (forall l' v', In (Return_create_post l' v') evs ->
                     l' = entry_link e /\ v' = v)
               /\ In (Return_create_post (entry_link e) v) evs
               /\ truthy v = true
               /\ published_items st' = published_items st
               /\ ((id_of v = None /\ (x = KeyError (lit "id") \/ x = TypeError)
                    /\ forall a b p i, ~ In (SqlInsert a b p i) evs)
                   \/ (exists i, id_of v = Some i /\ bind_error i = Some x
                                 /\ is_sqlite3_Error x = false)))).
  { intros pre0 Hpre0.
    destruct (_clean_content L (entry_content e)) as [text|y] eqn:Hdec.
    2:{ pose proof (_clean_content_raises _ _ Hdec) as ->.
        rewrite (publish_entry_undecodable _ _ _ _ _ Hdec).
        intros [= <- <-]. cbn [history published_items].
        eexists. split; [rewrite <- app_assoc; reflexivity|].
        right; left. split; [reflexivity|]. split; [reflexivity|].
        split; [|reflexivity].
        rewrite !flow_app, Hpre0. unfold tag_log.
        destruct (snd (extend_tags (e_tags e) [])); reflexivity. }
    destruct (publish_entry_submits self status e
                {| published_items := published_items st; history := history st ++ pre0 |}
                text Hdec)
      as (pre1 & v & Hfl & ->).
    cbn [history published_items].
    set (evs1 := pre1 ++ [Return_create_post (entry_link e) v]).
    assert (Hfl1 : flow evs1
                   = [submission L status e; Return_create_post (entry_link e) v]).
    { unfold evs1. rewrite flow_app, Hfl. reflexivity. }
    assert (Hin1 : In (Return_create_post (entry_link e) v) evs1).
    { unfold evs1. apply in_or_app. right. left. reflexivity. }
    destruct (truthy v) eqn:Ht.
    - unfold bind at 1. unfold emit at 1. cbn [history published_items].
      unfold bind at 1.
      match goal with
      | |- context [subscript v ?k ?s] =>
          destruct (subscript_id_cases v s) as [(i & Hid & Es)|(Hid & _)]
      end.
      + rewrite Es.
        match goal with
        | |- _record_published_item W self ?l ?t ?p ?i ?s = _ -> _ =>
            destruct (record_spec W self l t p i s)
              as (st2 & r2 & evs2 & E & Hhist & Hfl2 & Hrows2 & _)
        end.
        rewrite E. intros [= <- <-]. cbn [history published_items] in Hhist, Hrows2.
        exists (pre0 ++ evs1 ++ [Log INFO (CreatedPost (get_default (e_title e) []))]
                  ++ evs2).
        split; [rewrite Hhist, <- !app_assoc; reflexivity|].
        assert (Hflow : flow (pre0 ++ evs1 ++
                                [Log INFO (CreatedPost (get_default (e_title e) []))]
                                ++ evs2)
                        = [submission L status e; Return_create_post (entry_link e) v]
                            ++ [SqlInsert (entry_link e) (get_default (e_title e) [])
                                  (get_default (e_published e)
                                     (datetime_now_isoformat W (history st ++ pre0))) i]).
        { rewrite !flow_app, Hpre0, Hfl1, Hfl2. reflexivity. }
        assert (Huniq : forall l' v', In (Return_create_post l' v')
                  (pre0 ++ evs1 ++ [Log INFO (CreatedPost (get_default (e_title e) []))]
                     ++ evs2) -> l' = entry_link e /\ v' = v).
        { intros l' v' Hin. eapply return_in_flow; [exact Hflow|reflexivity| |exact Hin].
          right. eauto. }
        destruct r2 as [[]|x].
        * left. split; [reflexivity|]. intros l v' Hin.
          destruct (Huniq l v' Hin) as [-> ->]. split; [reflexivity|].
          split; [congruence|]. intros _. exists i. split; [exact Hid|].
          intros x Hx Hs. exact (record_returns_unbound _ _ _ _ _ _ _ _ E Hx Hs).
        * right; right. apply record_raises in E. destruct E as (Hb & Hs & -> & _).
          exists v, x. split; [reflexivity|]. split; [exact Huniq|].
          split; [apply in_or_app; right; apply in_or_app; left; exact Hin1|].
          split; [exact Ht|]. split; [reflexivity|].
          right. eauto.
      + match goal with
        | |- context [subscript v ?k ?s] =>
            destruct (subscript_id_raises v s Hid) as (x & Es & Hx); rewrite Es
        end.
        intros [= <- <-]. cbn [history published_items].
        exists (pre0 ++ evs1 ++ [Log INFO (CreatedPost (get_default (e_title e) []))]).
        split; [rewrite <- !app_assoc; reflexivity|].
        assert (Hflow : flow (pre0 ++ evs1 ++
                                [Log INFO (CreatedPost (get_default (e_title e) []))])
                        = [submission L status e; Return_create_post (entry_link e) v]
                            ++ []).
        { rewrite !flow_app, Hpre0, Hfl1. reflexivity. }
        right; right. exists v, x. split; [reflexivity|]. split.
        { intros l' v' Hin. eapply return_in_flow; [exact Hflow|reflexivity| |exact Hin].
          left. reflexivity. }
        split; [apply in_or_app; right; apply in_or_app; left; exact Hin1|].
        split; [exact Ht|]. split; [reflexivity|].
        left. split; [exact Hid|]. split; [exact Hx|].
        intros a b p i Hin.
        assert (Hi' : In (SqlInsert a b p i)
                        (flow (pre0 ++ evs1 ++
                           [Log INFO (CreatedPost (get_default (e_title e) []))]))).
        { apply In_flow. split; [assumption|reflexivity]. }
        rewrite Hflow in Hi'. cbn in Hi'.
        destruct Hi' as [Hi'|[Hi'|[]]]; discriminate.
    - unfold emit. intros [= <- <-]. cbn [history published_items].
      exists (pre0 ++ evs1 ++ [Log ERROR (FailedToCreatePost (get_default (e_title e) []))]).
      split; [rewrite <- !app_assoc; reflexivity|].
      left. split; [reflexivity|]. intros l v' Hin.
      assert (Hflow : flow (pre0 ++ evs1 ++
                [Log ERROR (FailedToCreatePost (get_default (e_title e) []))])
              = [submission L status e; Return_create_post (entry_link e) v] ++ []).
      { rewrite !flow_app, Hpre0, Hfl1. reflexivity. }
      destruct (return_in_flow _ _ _ _ _ _ _ Hflow eq_refl (or_introl eq_refl) Hin)
        as [-> ->].
      split; [reflexivity|]. split; [|congruence].
      intros _. split; [reflexivity|].
      exists (pre0 ++ pre1). unfold evs1. rewrite <- !app_assoc. reflexivity. }
  destruct (sqlite_fault W (history st ++ [SqlSelect (entry_link e)])) as [msg|].
  - intros H. apply Hsub in H; [exact H|reflexivity].
  - destruct (has_link (entry_link e) (published_items st)).
    + intros [= <- <-]. exists [SqlSelect (entry_link e)]. split; [reflexivity|].
      left. split; [reflexivity|]. intros l v [Hin|[]]. discriminate.
    + intros H. apply Hsub in H; [exact H|reflexivity].
Qed.
End Turn.

(** A failed publish does not end the run: when [create_post] returns a false
    value in the turn of an entry, the turn logs the failure as the last thing
    it does, leaves the table as it is and returns, and the loop goes on with
    the next entry. *)
Theorem failed_publish_continues L W C self status e st st' r evs v :
  process_entry L W C self status e st = (st', r) ->
  history st' = history st ++ evs ->
  In (Return_create_post (entry_link e) v) evs ->
  truthy v = false ->
  r = Ok tt
  /\ published_items st' = published_items st
  /\ (exists pre,
        evs = pre ++ [Return_create_post (entry_link e) v;
                      Log ERROR (FailedToCreatePost (get_default (e_title e) []))])
  /\ forall rest,
       for_each (e :: rest) (process_entry L W C self status) st
       = for_each rest (process_entry L W C self status) st'.
Proof.
  intros H Hh Hin Ht.
  pose proof (process_entry_result L W C self status e st st' r H) as Hres.
  destruct Hres as (evs0 & Hh0 & Hres).
  assert (evs0 = evs) by (rewrite Hh in Hh0; apply app_inv_head in Hh0; congruence).
  subst evs0.
  destruct Hres as [(-> & Hok)|[(_ & _ & Hfl & _)|(v0 & x & _ & Huniq & _ & Ht0 & _)]].
  - destruct (Hok _ _ Hin) as (_ & Hfalse & _). destruct (Hfalse Ht) as [Hrows Hpre].
    split; [reflexivity|]. split; [exact Hrows|]. split; [exact Hpre|].
    intros rest. cbn [for_each]. unfold bind. rewrite H. reflexivity.
  - exfalso.
    assert (Hi : In (Return_create_post (entry_link e) v) (flow evs)).
    { apply In_flow. split; [assumption|reflexivity]. }
    rewrite Hfl in Hi. destruct Hi.
  - destruct (Huniq _ _ Hin) as [_ ->]. congruence.
Qed.

Lemma failed_publish_continues_witness :
  snd (process_entry lib0 (world_of no_fault refuses_two [E2]) cfg0 self0 (lit "publish") E2
         (state_of []))
  = Ok tt
  /\ published_items
       (fst (process_entry lib0 (world_of no_fault refuses_two [E2]) cfg0 self0
               (lit "publish") E2 (state_of [])))
     = [].
Proof.
  destruct (failed_publish_continues lib0 (world_of no_fault refuses_two [E2]) cfg0 self0
              (lit "publish") E2 (state_of []) _ _
              (history (fst (process_entry lib0 (world_of no_fault refuses_two [E2]) cfg0
                               self0 (lit "publish") E2 (state_of []))))
              JNull
              (surjective_pairing _) eq_refl) as (Hr & Hrows & _).
  - vm_compute. repeat (first [left; reflexivity|right]).
  - reflexivity.
  - split; [exact Hr|exact Hrows].
Defined.

(** A turn of the loop raises only when the text of the entry cannot be
    decoded ([ValueError], before [create_post] is called) or when
    [create_post] returned a true value that cannot be recorded, and then no
    row is written.  A success answer without an ['id'] makes the turn raise
    [KeyError] (or [TypeError], for a value that is not an object) before any
    [INSERT]; an ['id'] that cannot be bound and is not refused by [sqlite3]
    itself makes it raise [OverflowError] or [UnicodeEncodeError], unless an
    error of the database comes before the binding.  The entries after it are
    not processed. *)
Theorem unrecordable_result_stops_the_loop L W C self status e st st' r evs :
  process_entry L W C self status e st = (st', r) ->
  history st' = history st ++ evs ->
  (forall v,
     In (Return_create_post (entry_link e) v) evs -> truthy v = true -> id_of v = None ->
     (r = Raise (KeyError (lit "id")) \/ r = Raise TypeError)
     /\ published_items st' = published_items st
     /\ (forall a b p i, ~ In (SqlInsert a b p i) evs)
     /\ forall rest,
          for_each (e :: rest) (process_entry L W C self status) st = (st', r))
  /\ (forall v i x,
        In (Return_create_post (entry_link e) v) evs -> truthy v = true ->
        id_of v = Some i -> bind_error i = Some x -> is_sqlite3_Error x = false ->
        (forall h, sqlite_fault W h = None \/ sqlite_fault_early W h = false) ->
        r = Raise x
        /\ (x = OverflowError \/ x = UnicodeEncodeError)
        /\ published_items st' = published_items st
        /\ forall rest,
             for_each (e :: rest) (process_entry L W C self status) st = (st', r))
  /\ (forall x,
        r = Raise x ->
        published_items st' = published_items st
        /\ (x = ValueError
            /\ _clean_content L (entry_content e) = Raise ValueError
            /\ calls evs = []
            \/ (x = KeyError (lit "id") \/ x = TypeError
                \/ x = OverflowError \/ x = UnicodeEncodeError)
               /\ exists v,
                    In (Return_create_post (entry_link e) v) evs
                    /\ truthy v = true /\ recordable v = false)).
Proof.
  intros H Hh. pose proof (process_entry_result L W C self status e st st' r H) as Hres.
  destruct Hres as (evs0 & Hh0 & Hres).
  assert (evs0 = evs) by (rewrite Hh in Hh0; apply app_inv_head in Hh0; congruence).
  subst evs0.
  assert (Hnoret : flow evs = [] -> forall l v, ~ In (Return_create_post l v) evs).
  { intros Hfl l v Hin.
    assert (Hi : In (Return_create_post l v) (flow evs)).
    { apply In_flow. split; [assumption|reflexivity]. }
    rewrite Hfl in Hi. destruct Hi. }
  split; [|split].
  - intros v Hin Ht Hid.
    destruct Hres as [(-> & Hok)|[(_ & _ & Hfl & _)
                                 |(v0 & x & -> & Huniq & Hin0 & Ht0 & Hrows & Hx)]].
    + exfalso. destruct (Hok _ _ Hin) as (_ & _ & Htrue).
      destruct (Htrue Ht) as (i & Hi & _). congruence.
    + exfalso. exact (Hnoret Hfl _ _ Hin).
    + destruct (Huniq _ _ Hin) as [_ ->].
      destruct Hx as [(_ & Hx & Hins)|(i & Hi & _)]; [|congruence].
      split; [destruct Hx as [->| ->]; auto|]. split; [exact Hrows|]. split; [exact Hins|].
      intros rest. cbn [for_each]. unfold bind. rewrite H. reflexivity.
  - intros v i x Hin Ht Hid Hb Hs Hlate.
    destruct Hres as [(-> & Hok)|[(_ & _ & Hfl & _)
                                 |(v0 & x0 & -> & Huniq & Hin0 & Ht0 & Hrows & Hx)]].
    + exfalso. destruct (Hok _ _ Hin) as (_ & _ & Htrue).
      destruct (Htrue Ht) as (i' & Hi' & Hearly).
      assert (i' = i) by congruence. subst i'.
      destruct (Hearly x Hb Hs) as (h & msg & Hf & He).
      destruct (Hlate h); congruence.
    + exfalso. exact (Hnoret Hfl _ _ Hin).
    + destruct (Huniq _ _ Hin) as [_ ->].
      destruct Hx as [(Hnone & _)|(i' & Hi' & Hb' & _)]; [congruence|].
      assert (i' = i) by congruence. subst i'.
      assert (x0 = x) by congruence. subst x0.
      split; [reflexivity|].
      split; [destruct (bind_error_cases _ _ Hb Hs) as [[-> _]|[-> _]]; auto|].
      split; [exact Hrows|].
      intros rest. cbn [for_each]. unfold bind. rewrite H. reflexivity.
  - intros x ->.
    destruct Hres as [(Hr & _)|[(Hr & Hdec & Hfl & Hrows)
                               |(v0 & x0 & Hr & Huniq & Hin0 & Ht0 & Hrows & Hx)]];
      [discriminate| |].
    + injection Hr as ->. split; [exact Hrows|]. left.
      split; [reflexivity|]. split; [exact Hdec|].
      rewrite <- calls_flow, Hfl. reflexivity.
    + injection Hr as <-. split; [exact Hrows|]. right.
      destruct Hx as [(Hid & Hx & _)|(i & Hid & Hb & Hs)].
      * split; [destruct Hx as [->| ->]; auto|].
        exists v0. repeat split; try assumption. apply unrecordable. left. exact Hid.
      * split; [destruct (bind_error_cases _ _ Hb Hs) as [[-> _]|[-> _]]; auto|].
        exists v0. repeat split; try assumption. apply unrecordable. right.
        exists i. split; [exact Hid|].
        destruct (bindable i) eqn:Hbd; [|reflexivity].
        apply bindable_bind_error in Hbd. congruence.
Qed.

Lemma unrecordable_result_stops_the_loop_witness :
  snd (process_entry lib0 (world_of no_fault answers_without_id [E1]) cfg0 self0
         (lit "publish") E1 (state_of []))
  = Raise (KeyError (lit "id"))
  \/ snd (process_entry lib0 (world_of no_fault answers_without_id [E1]) cfg0 self0
            (lit "publish") E1 (state_of []))
     = Raise TypeError.
Proof.
  destruct (unrecordable_result_stops_the_loop lib0
              (world_of no_fault answers_without_id [E1]) cfg0 self0 (lit "publish") E1
              (state_of [])
              (fst (process_entry lib0 (world_of no_fault answers_without_id [E1]) cfg0
                      self0 (lit "publish") E1 (state_of [])))
              (snd (process_entry lib0 (world_of no_fault answers_without_id [E1]) cfg0
                      self0 (lit "publish") E1 (state_of [])))
              (history
                 (fst (process_entry lib0 (world_of no_fault answers_without_id [E1]) cfg0
                         self0 (lit "publish") E1 (state_of []))))
              (surjective_pairing _) eq_refl) as [Hraise _].
  destruct (Hraise (JObj [(lit "status", JStr (lit "ok"))])) as [Hr _].
  - vm_compute. repeat (first [left; reflexivity|right]).
  - reflexivity.
  - reflexivity.
  - exact Hr.
Defined.

(** ** A second pass over the same feed *)

Section Passes.
Variable L : Lib.
Variable W : World.
Variable status : str.

Lemma returns_recordable_app a b :
  returns_recordable (a ++ b) = returns_recordable a && returns_recordable b.
Proof. apply forallb_app. Qed.

Lemma returns_recordable_In evs l v :
  returns_recordable evs = true -> In (Return_create_post l v) evs -> recordable v = true.
Proof.
  unfold returns_recordable. rewrite forallb_forall. intros H Hin. exact (H _ Hin).
Qed.

(** When the text of every entry decodes and every result of a pass could
    be recorded, the pass ends without an exception and every entry of the
    feed has its link in the table. *)
Lemma loop_all_recorded es st st' r :
  never_faults_on_insert W ->
  loop_steps L W status es st st' r ->
  (forall e, In e es -> exists text, _clean_content L (entry_content e) = Ok text) ->
  forall evs, history st' = history st ++ evs -> returns_recordable evs = true ->
    r = Ok tt
    /\ forall e, In e es -> has_link (entry_link e) (published_items st') = true.
Proof.
  intros Hnf. induction 1 as [st|e es st st1 st2 r Hstep Hloop IH|e es st st1 x Hstep];
    intros Hdecs.
  - intros evs _ _. split; [reflexivity|]. intros e [].
  - intros evs Hh Hrr.
    assert (Hdecs' : forall e', In e' es ->
              exists text, _clean_content L (entry_content e') = Ok text).
    { intros e' Hin. apply Hdecs. right. exact Hin. }
    specialize (IH Hdecs').
    destruct (entry_step_extends _ _ _ _ _ _ _ Hstep) as (evs1 & new1 & Hh1 & _).
    destruct (loop_extends _ _ _ _ _ _ _ Hloop) as (evs2 & new2 & Hh2 & _).
    assert (evs = evs1 ++ evs2).
    { rewrite Hh2, Hh1, <- app_assoc in Hh. apply app_inv_head in Hh. congruence. }
    subst evs. rewrite returns_recordable_app in Hrr.
    apply andb_true_iff in Hrr. destruct Hrr as [Hrr1 Hrr2].
    destruct (IH evs2 Hh2 Hrr2) as [-> Hall]. split; [reflexivity|].
    intros e' [<-|Hin]; [|auto].
    apply (loop_keeps_links _ _ _ _ _ _ _ _ Hloop).
    destruct Hstep as [Hf Hl -> _|evs' Hcase Hdec Hh' Hfl Hrows Hr
                      |evs' v ins Hcase Hdec Hh' Hfl Hins Hrows Hfail Hrec].
    + exact Hl.
    + discriminate Hr.
    + apply Hrec; [exact Hnf|].
      assert (evs' = evs1) by (rewrite Hh1 in Hh'; apply app_inv_head in Hh'; congruence).
      subst evs'. apply (returns_recordable_In evs1 (entry_link e) v Hrr1).
      apply (In_flow (Return_create_post (entry_link e) v) evs1).
      rewrite Hfl. right. left. reflexivity.
  - intros evs Hh Hrr. exfalso.
    destruct Hstep as [_ _ _ Hr|evs' Hcase Hdec Hh' Hfl Hrows Hr
                      |evs' v ins Hcase Hdec Hh' Hfl Hins Hrows Hfail Hrec];
      [discriminate| |].
    { destruct (Hdecs e (or_introl eq_refl)) as [text Htext]. congruence. }
    assert (evs' = evs) by (rewrite Hh in Hh'; apply app_inv_head in Hh'; congruence).
    subst evs'.
    assert (Hrc : recordable v = true).
    { apply (returns_recordable_In evs (entry_link e) v Hrr).
      apply (In_flow (Return_create_post (entry_link e) v) evs).
      rewrite Hfl. right. left. reflexivity. }
    destruct (Hrec Hnf Hrc) as [_ Hr]. discriminate.
Qed.

(** A pass over entries that are all recorded only looks them up. *)
Lemma loop_all_skipped es st st' r :
  never_faults_on_select W ->
  loop_steps L W status es st st' r ->
  (forall e, In e es -> has_link (entry_link e) (published_items st) = true) ->
  r = Ok tt
  /\ st' = {| published_items := published_items st;
              history := history st ++ map (fun e => SqlSelect (entry_link e)) es |}.
Proof.
  intros Hnf. induction 1 as [st|e es st st1 st2 r Hstep Hloop IH|e es st st1 x Hstep].
  - intros _. split; [reflexivity|]. destruct st. cbn. rewrite app_nil_r. reflexivity.
  - intros Hall.
    destruct Hstep as [Hf Hl -> _|evs' Hcase Hdec Hh' Hfl Hrows Hr
                      |evs' v ins Hcase Hdec Hh' Hfl Hins Hrows Hfail Hrec].
    + destruct IH as [-> ->]; [intros e' Hin; apply Hall; right; exact Hin|].
      split; [reflexivity|]. cbn [history published_items map].
      rewrite <- app_assoc. reflexivity.
    + discriminate Hr.
    + exfalso. destruct Hcase as [Hc|Hc].
      * apply Hc. apply Hnf.
      * rewrite Hall in Hc; [discriminate|left; reflexivity].
  - intros Hall. exfalso.
    assert (Hcase : sqlite_fault W (history st ++ [SqlSelect (entry_link e)]) <> None
                    \/ has_link (entry_link e) (published_items st) = false).
    { destruct Hstep as [_ _ _ Hr|evs' Hcase _ _ _ _ _|evs' v ins Hcase _ _ _ _ _ _ _];
        [discriminate|exact Hcase|exact Hcase]. }
    destruct Hcase as [Hc|Hc].
    + apply Hc. apply Hnf.
    + rewrite Hall in Hc; [discriminate|left; reflexivity].
Qed.
End Passes.

(** Running again is safe.  After a pass in which the database did
    not fail, the text of every entry could be decoded and every result of
    [create_post] could be recorded, the pass has returned and the link of
    every entry of the feed is in the table; a second pass over the same feed
    looks each entry up and does nothing else: no post is submitted and no
    row is written. *)
Theorem second_pass_submits_nothing L W C self url status st st1 r1 f evs :
  never_faults_on_select W ->
  never_faults_on_insert W ->
  feed_reply W (history st ++ [FeedParse url]) = inr f ->
  bozo f = false ->
  (forall e, In e (entries f) -> exists text, _clean_content L (entry_content e) = Ok text) ->
  post_feed_items L W C self url status st = (st1, r1) ->
  history st1 = history st ++ evs ->
  returns_recordable evs = true ->
  feed_reply W (history st1 ++ [FeedParse url]) = inr f ->
  r1 = Ok tt
  /\ (forall e, In e (entries f) -> In (entry_link e) (links st1))
  /\ post_feed_items L W C self url status st1 =
     ({| published_items := published_items st1;
         history := history st1 ++ FeedParse url
                      :: map (fun e => SqlSelect (entry_link e)) (rev (entries f)) |},
      Ok tt).
Proof.
  intros Hsel Hins Hf Hb Hdecs H1 Hh Hrr Hf2.
  apply post_feed_items_run in H1.
  destruct H1 as [(_ & _ & _ & Hbad)|(f' & Hf' & _ & Hloop)].
  { rewrite Hf in Hbad. congruence. }
  assert (f' = f) by congruence. subst f'.
  destruct (loop_extends _ _ _ _ _ _ _ Hloop) as (evs' & new & Hh' & _).
  cbn [history] in Hh'.
  assert (Hevs : evs = FeedParse url :: evs').
  { rewrite Hh', <- app_assoc in Hh. apply app_inv_head in Hh. symmetry. exact Hh. }
  assert (Hrr' : returns_recordable evs' = true) by (rewrite Hevs in Hrr; exact Hrr).
  assert (Hdecs' : forall e, In e (rev (entries f)) ->
            exists text, _clean_content L (entry_content e) = Ok text).
  { intros e Hin. apply Hdecs. apply in_rev. exact Hin. }
  destruct (loop_all_recorded L W status _ _ _ _ Hins Hloop Hdecs' evs' Hh' Hrr')
    as [-> Hall].
  split; [reflexivity|].
  assert (Hall' : forall e, In e (entries f) ->
                    has_link (entry_link e) (published_items st1) = true).
  { intros e Hin. apply Hall. apply in_rev in Hin. exact Hin. }
  split; [intros e Hin; apply has_link_In; auto|].
  destruct (post_feed_items L W C self url status st1) as [st2 r2] eqn:H2.
  apply post_feed_items_run in H2.
  destruct H2 as [(_ & _ & _ & Hbad)|(f' & Hf'' & _ & Hloop2)].
  { rewrite Hf2 in Hbad. congruence. }
  assert (f' = f) by congruence. subst f'.
  apply (loop_all_skipped L W status _ _ _ _ Hsel) in Hloop2.
  - destruct Hloop2 as [-> ->]. cbn [history published_items].
    rewrite <- app_assoc. reflexivity.
  - intros e Hin. cbn [published_items]. apply Hall.  exact Hin.
Qed.


(** ** Text that is not rewritten *)

Lemma existsb_eqb_In c s : existsb (N.eqb c) s = false -> ~ In c s.
Proof.
  intros H Hin. assert (Ht : existsb (N.eqb c) s = true).
  { apply existsb_exists. exists c. split; [assumption|apply N.eqb_refl]. }
  congruence.
Qed.

Lemma matches_Chr c u : matches (Chr c) u -> u = [c].
Proof.
  unfold Chr. intros H. inversion H as [|p d Hd| | | | | |]; subst.
  apply N.eqb_eq in Hd. congruence.
Qed.

Section Plain.
Variable alnum : char -> bool.

(** A match of the URL pattern holds a colon or an at sign, or starts
    with ["www."]. *)
Lemma urlfinder_marks u :
  matches (urlfinder alnum) u ->
  In 58 u \/ In 64 u \/ exists w, u = lit "www." ++ w.
Proof.
  unfold urlfinder, url_authority. intros H.
  inversion H as [| |a b u1 u2 H1 H2| | | | |]; subst. clear H H2.
  inversion H1 as [| | |a b x Hl|a b x Hr| | |]; subst; clear H1.
  - left. unfold url_scheme in Hl.
    inversion Hl as [| |a b s1 s2 Hs _| | | | |]; subst. clear Hl.
    inversion Hs as [| |a b s3 s4 _ Hc| | | | |]; subst. clear Hs.
    inversion Hc as [| |a b s5 s6 Hc' _| | | | |]; subst. clear Hc.
    apply matches_Chr in Hc'. subst s5.
    apply in_or_app. left. apply in_or_app. left. apply in_or_app. right.
    apply in_or_app. left. left. reflexivity.
  - inversion Hr as [| |a b s1 s2 Hs _| | | | |]; subst. clear Hr.
    inversion Hs as [| | |a b x Hl'|a b x Hr'| | |]; subst; clear Hs.
    + right. right. apply (proj1 (matches_Lit (lit "www.") s1)) in Hl'. subst s1.
      eexists. rewrite <- !app_assoc. reflexivity.
    + right. left. unfold userinfo in Hr'.
      inversion Hr' as [| |a b s3 s4 _ Hc| | | | |]; subst. clear Hr'.
      apply matches_Chr in Hc. subst s4.
      apply in_or_app. left. apply in_or_app. left. apply in_or_app. right.
      left. reflexivity.
Qed.

Lemma urlize_plain s :
  existsb (N.eqb 58) s = false -> existsb (N.eqb 64) s = false ->
  contains (lit "www.") s = false ->
  urlize alnum s = s.
Proof.
  intros H58 H64 Hw. apply existsb_eqb_In in H58. apply existsb_eqb_In in H64.
  apply contains_occurs in Hw.
  unfold urlize. apply re_sub_without_match. intros a b ->.
  destruct (match_len (urlfinder alnum) b) as [n|] eqn:Hm; [|reflexivity].
  exfalso. apply match_len_some in Hm. destruct Hm as (u & v & -> & Hu & _).
  apply urlfinder_marks in Hu. destruct Hu as [Hu|[Hu|(w & ->)]].
  - apply H58. apply in_or_app. right. apply in_or_app. left. exact Hu.
  - apply H64. apply in_or_app. right. apply in_or_app. left. exact Hu.
  - apply Hw. exists a, (w ++ v). rewrite <- !app_assoc. reflexivity.
Qed.
End Plain.

Lemma blockquote_markdown_without_tag s :
  ~ occurs blockquote_open s -> blockquote_markdown s = s.
Proof.
  intros Ho. unfold blockquote_markdown. apply re_sub_without_match. intros a b ->.
  destruct (match_len (Lit blockquote_open) b) as [n|] eqn:Hm; [|reflexivity].
  exfalso. apply match_len_some in Hm. destruct Hm as (u & v & -> & Hu & _).
  apply matches_Lit in Hu. subst u. apply Ho. exists a, v. reflexivity.
Qed.

(** Marking the block quotes is idempotent: after one pass no plain
    [<blockquote>] is left, so a second pass changes nothing, and text
    without the tag is not changed at all. *)
Theorem blockquote_markdown_is_idempotent content :
  blockquote_markdown (blockquote_markdown content) = blockquote_markdown content
  /\ (contains blockquote_open content = false -> blockquote_markdown content = content).
Proof.
  split.
  - apply blockquote_markdown_without_tag.
    apply (no_plain_blockquote_left content).
    apply rewritten_replaced_all. unfold blockquote_markdown.
    apply re_sub_rewritten. apply nullable_Lit. discriminate.
  - intros H. apply blockquote_markdown_without_tag. apply contains_occurs. exact H.
Qed.

(** Plain text reaches Markdown as it is.  For a description with no
    ampersand, colon or at sign, no ["www."] and no [<blockquote>], decoding,
    the URL pass and the block-quote pass change nothing: the post holds the
    Markdown rendering of the description itself between the source link
    and the tag list. *)
Theorem plain_text_reaches_markdown_unchanged L C self title content link tags status st :
  plain_text content = true ->
  _clean_content L content = Ok content
  /\ create_post_dict L C self title (decoded L content) link tags status st =
     (st, Ok {| pd_title := title;
                pd_content :=
                  content_with_source title (markdown_markdown L content) link
                    (join (lit " ") (map (tag_link C) tags));
                pd_status := status |}).
Proof.
  unfold plain_text. intros H.
  repeat (apply andb_true_iff in H; destruct H as [H ?]).
  repeat match goal with
         | H : negb _ = true |- _ => apply negb_true_iff in H
         end.
  assert (Hc : _clean_content L content = Ok content).
  { unfold _clean_content. rewrite unescape_without_ampersand; [reflexivity|].
    apply existsb_eqb_In. assumption. }
  split; [exact Hc|].
  unfold decoded. rewrite Hc, create_post_dict_eq, tag_htmls_map.
  rewrite urlize_plain by assumption.
  rewrite blockquote_markdown_without_tag by (apply contains_occurs; assumption).
  reflexivity.
Qed.

Lemma plain_text_reaches_markdown_unchanged_witness :
  _clean_content lib0 (lit "a *short* note") = Ok (lit "a *short* note")
  /\ create_post_dict lib0 cfg0 self0 (lit "one") (decoded lib0 (lit "a *short* note"))
       (lit "https://a.example/1") [] (lit "publish") (state_of []) =
     (state_of [],
      Ok {| pd_title := lit "one";
            pd_content :=
              content_with_source (lit "one") (markdown_markdown lib0 (lit "a *short* note"))
                (lit "https://a.example/1") (join (lit " ") (map (tag_link cfg0) []));
            pd_status := lit "publish" |}).
Proof.
  apply (plain_text_reaches_markdown_unchanged lib0 cfg0 self0 (lit "one")
           (lit "a *short* note") (lit "https://a.example/1") [] (lit "publish")
           (state_of [])).
  vm_compute. reflexivity.
Defined.

(** A missing [PINBOARD_TAG_PREFIX] is not an error: the f-string
    writes [None], and every tag link of the post points to
    [None/t:<tag>]. *)
Theorem missing_tag_prefix_is_written_as_None L C self title content link tags status st :
  TAG_PREFIX C = None ->
  exists data before,
    create_post_dict L C self title content link tags status st = (st, Ok data)
    /\ pd_content data =
       before ++ lit "<p class=" ++ [dq] ++ lit "taglist" ++ [dq] ++ lit ">Tags: "
         ++ join (lit " ")
              (map (fun tag => anchor (lit "delicioustag") (lit "None/t:" ++ tag) tag) tags)
         ++ lit "</p></li></ul>".
Proof.
  intros HP. rewrite create_post_dict_eq. eexists. eexists.
  split; [reflexivity|]. cbn [pd_content].
  unfold content_with_source. rewrite tag_htmls_map.
  assert (E : map (tag_link C) tags
              = map (fun tag => anchor (lit "delicioustag") (lit "None/t:" ++ tag) tag) tags).
  { apply map_ext. intros t. unfold tag_link, anchor. rewrite HP. cbn [fmt].
    rewrite <- !app_assoc. reflexivity. }
  rewrite E.
  repeat rewrite (app_assoc _ _ (lit "<p class=" ++ _)).
  reflexivity.
Qed.


(** ** What a pass sends and stores *)

Section Sent.
Variable L : Lib.
Variable W : World.
Variable C : Config.

Lemma post_outcome_logs self status o :
  Forall (turn_event self status) (fst (post_outcome o)).
Proof.
  destruct o as [r|msg [r|]]; cbn.
  - destruct (status_code r =? 401)%Z; [repeat constructor|].
    destruct ((400 <=? status_code r) && (status_code r <? 600))%Z; [repeat constructor|].
    destruct (json_body r); repeat constructor.
  - repeat constructor.
  - repeat constructor.
Qed.

Lemma record_events self status link title pd id st :
  exists st' r evs,
    _record_published_item W self link title pd id st = (st', r)
    /\ history st' = history st ++ evs
    /\ Forall (turn_event self status) evs
    /\ (published_items st' = published_items st
        \/ exists created,
             published_items st' =
             published_items st ++
               [{| r_link := link; r_title := title; r_published_date := pd;
                   r_wordpress_post_id := column_integer W id;
                   r_created_at := created |}]).
Proof.
  rewrite _record_published_item_eq. cbn zeta.
  destruct (sqlite_fault W _) as [msg|];
    [destruct (sqlite_fault_early W _)|];
    [|destruct (bind_error id) as [x|]; [destruct (is_sqlite3_Error x)|]
     |destruct (bind_error id) as [x|];
        [destruct (is_sqlite3_Error x)|destruct (has_link link (published_items st))]];
    do 3 eexists; (split; [reflexivity|]); cbn [history published_items];
    rewrite <- ?app_assoc; (split; [reflexivity|]);
    (split; [repeat constructor|]);
    first [left; reflexivity|right; eexists; reflexivity].
Qed.

Lemma publish_entry_events self status e st st' r :
  publish_entry L W C self status e (entry_link e) st = (st', r) ->
  exists evs,
    history st' = history st ++ evs
    /\ Forall (turn_event self status) evs
    /\ (published_items st' = published_items st
        \/ exists row, published_items st' = published_items st ++ [row]
                       /\ describes row e).
Proof.
  rewrite publish_entry_eq. cbn zeta.
  set (title := get_default (e_title e) []).
  assert (Htag : Forall (turn_event self status) (tag_log e)).
  { unfold tag_log. destruct (snd (extend_tags (e_tags e) [])); repeat constructor. }
  destruct (_clean_content L (entry_content e)) as [text|x].
  2:{ intros [= <- <-]. cbn [history published_items].
      eexists. split; [reflexivity|]. split; [|left; reflexivity].
      apply Forall_app. split; [exact Htag|repeat constructor]. }
  match goal with
  | |- context [post_outcome ?o] =>
      pose proof (post_outcome_logs self status o) as Hlogs;
      destruct (post_outcome o) as [logs v]
  end.
  cbn [fst snd] in *.
  match goal with
  | |- context [{| published_items := _; history := ?h |}] => set (h1 := h)
  end.
  assert (Hh1 : exists evs1, h1 = history st ++ evs1
                             /\ Forall (turn_event self status) evs1).
  { eexists. subst h1. rewrite <- !app_assoc. split; [reflexivity|].
    repeat (apply Forall_app; split); try assumption; repeat constructor. }
  destruct Hh1 as (evs1 & Hh1 & Hev1). clearbody h1.
  intros H. apply publish_rest in H.
  destruct H as [(_ & -> & _)|[(_ & _ & -> & _)|(_ & i & _ & E)]];
    cbn [history published_items].
  - exists (evs1 ++ [Log ERROR (FailedToCreatePost title)]).
    split; [rewrite Hh1, <- !app_assoc; reflexivity|].
    split; [repeat (apply Forall_app; split); try assumption; repeat constructor|].
    left. reflexivity.
  - exists (evs1 ++ [Log INFO (CreatedPost title)]).
    split; [rewrite Hh1, <- !app_assoc; reflexivity|].
    split; [repeat (apply Forall_app; split); try assumption; repeat constructor|].
    left. reflexivity.
  - match type of E with
    | _record_published_item W self ?l ?t ?p ?i ?s = _ =>
        destruct (record_events self status l t p i s)
          as (st2 & r2 & evs2 & E2 & Hhist & Hev2 & Hrows)
    end.
    rewrite E in E2. injection E2 as <- <-. cbn [history published_items] in *.
    exists (evs1 ++ [Log INFO (CreatedPost title)] ++ evs2).
    split; [rewrite Hhist, Hh1, <- !app_assoc; reflexivity|].
    split; [repeat (apply Forall_app; split); try assumption; repeat constructor|].
    destruct Hrows as [Hrows|(created & Hrows)]; [left; exact Hrows|].
    right. eexists. split; [exact Hrows|].
    split; [reflexivity|]. split; [reflexivity|].
    intros p Hp. cbn [r_published_date]. rewrite Hp. reflexivity.
Qed.

Lemma process_entry_events self status e st st' r :
  process_entry L W C self status e st = (st', r) ->
  exists evs,
    history st' = history st ++ evs
    /\ Forall (turn_event self status) evs
    /\ (published_items st' = published_items st
        \/ exists row, published_items st' = published_items st ++ [row]
                       /\ describes row e).
Proof.
  rewrite process_entry_eq.
  destruct (sqlite_fault W (history st ++ [SqlSelect (entry_link e)])) as [msg|].
  - intros H. apply publish_entry_events in H. destruct H as (evs & Hh & Hev & Hrows).
    cbn [history published_items] in *.
    exists ([SqlSelect (entry_link e); Log ERROR (DatabaseQueryError (SqliteError msg))]
              ++ evs).
    split; [rewrite Hh, <- !app_assoc; reflexivity|].
    split; [|exact Hrows].
    apply Forall_app. split; [repeat constructor|exact Hev].
  - destruct (has_link (entry_link e) (published_items st)).
    + intros [= <- <-]. exists [SqlSelect (entry_link e)].
      split; [reflexivity|]. split; [repeat constructor|left; reflexivity].
    + intros H. apply publish_entry_events in H. destruct H as (evs & Hh & Hev & Hrows).
      cbn [history published_items] in *.
      exists ([SqlSelect (entry_link e)] ++ evs).
      split; [rewrite Hh, <- !app_assoc; reflexivity|].
      split; [|exact Hrows].
      apply Forall_app. split; [repeat constructor|exact Hev].
Qed.

Lemma for_each_events self status es st st' r :
  for_each es (process_entry L W C self status) st = (st', r) ->
  exists evs new,
    history st' = history st ++ evs
    /\ Forall (turn_event self status) evs
    /\ published_items st' = published_items st ++ new
    /\ Forall (fun row => exists e, In e es /\ describes row e) new.
Proof.
  revert st. induction es as [|e es IH]; intros st; cbn [for_each].
  - intros [= <- <-]. exists [], []. rewrite !app_nil_r. repeat split; constructor.
  - unfold bind.
    destruct (process_entry L W C self status e st) as [st1 [[]|x]] eqn:H1.
    + intros H2. apply process_entry_events in H1.
      destruct H1 as (evs1 & Hh1 & Hev1 & Hrows1).
      apply IH in H2. destruct H2 as (evs2 & new2 & Hh2 & Hev2 & Hrows2 & Hd2).
      assert (Hd2' : Forall (fun row => exists e0, In e0 (e :: es) /\ describes row e0) new2).
      { eapply Forall_impl; [|exact Hd2]. intros row (e0 & Hin & Hd).
        exists e0. split; [right; exact Hin|exact Hd]. }
      destruct Hrows1 as [Hrows1|(row & Hrows1 & Hd1)].
      * exists (evs1 ++ evs2), new2.
        split; [rewrite Hh2, Hh1, <- app_assoc; reflexivity|].
        split; [apply Forall_app; split; assumption|].
        split; [rewrite Hrows2, Hrows1; reflexivity|exact Hd2'].
      * exists (evs1 ++ evs2), (row :: new2).
        split; [rewrite Hh2, Hh1, <- app_assoc; reflexivity|].
        split; [apply Forall_app; split; assumption|].
        split; [rewrite Hrows2, Hrows1, <- app_assoc; reflexivity|].
        constructor; [|exact Hd2'].
        exists e. split; [left; reflexivity|exact Hd1].
    + intros [= <- <-]. apply process_entry_events in H1.
      destruct H1 as (evs1 & Hh1 & Hev1 & Hrows1).
      destruct Hrows1 as [Hrows1|(row & Hrows1 & Hd1)].
      * exists evs1, []. rewrite app_nil_r. repeat split; try assumption. constructor.
      * exists evs1, [row]. repeat split; try assumption.
        constructor; [|constructor]. exists e. split; [left; reflexivity|exact Hd1].
Qed.
End Sent.

(** A pass talks to the site only through the posts endpoint.  After
    the fetch of the feed, the only requests of a pass are [POST]s to
    [<site>/wp-json/wp/v2/posts] that carry the header of the publisher and
    ask for the status the pass was called with; it sends no [GET], fetches
    no feed a second time, and prints nothing.  Every row it adds holds the
    link, the title and the date of publication of an entry of the feed. *)
Theorem pass_only_posts_to_the_site L W C self url status st :
  exists evs new,
    history (fst (post_feed_items L W C self url status st))
    = history st ++ FeedParse url :: evs
    /\ Forall (turn_event self status) evs
    /\ published_items (fst (post_feed_items L W C self url status st))
       = published_items st ++ new
    /\ forall row, In row new ->
         exists f e,
           feed_reply W (history st ++ [FeedParse url]) = inr f
           /\ In e (entries f) /\ describes row e.
Proof.
  destruct (post_feed_items L W C self url status st) as [st' r] eqn:H. cbn [fst].
  revert H. unfold post_feed_items. unfold bind at 1. rewrite fetch_rss_feed_eq. cbn zeta.
  destruct (feed_reply W (history st ++ [FeedParse url])) as [msg|f] eqn:Hf.
  { intros [= <- <-].
    exists [Log ERROR (ErrorFetchingFeed (PlainException msg))], [].
    cbn [history published_items]. rewrite <- app_assoc, app_nil_r.
    split; [reflexivity|]. split; [repeat constructor|].
    split; [reflexivity|]. intros row []. }
  destruct (bozo f).
  { intros [= <- <-].
    exists [Log ERROR (ErrorParsingFeed (bozo_exception f))], [].
    cbn [history published_items]. rewrite <- app_assoc, app_nil_r.
    split; [reflexivity|]. split; [repeat constructor|].
    split; [reflexivity|]. intros row []. }
  intros Hloop.
  apply for_each_events in Hloop. destruct Hloop as (evs & new & Hh & Hev & Hrows & Hd).
  cbn [history published_items] in Hh, Hrows.
  exists evs, new. split; [rewrite Hh, <- app_assoc; reflexivity|].
  split; [exact Hev|]. split; [exact Hrows|].
  intros row Hin. rewrite Forall_forall in Hd. destruct (Hd row Hin) as (e & He & Hde).
  exists f, e. split; [reflexivity|]. split; [apply in_rev; exact He|exact Hde].
Qed.


(** ** The passes only insert *)

Lemma subseq_app {A} (a b c d : list A) :
  subseq a b -> subseq c d -> subseq (a ++ c) (b ++ d).
Proof.
  induction 1 as [|x l1 l2 _ IH|x l1 l2 _ IH]; intros H; cbn [app].
  - exact H.
  - apply subseq_skip. auto.
  - apply subseq_keep. auto.
Qed.

Lemma subseq_trans {A} (a b c : list A) : subseq a b -> subseq b c -> subseq a c.
Proof.
  intros Hab Hbc. revert a Hab.
  induction Hbc as [|x l1 l2 _ IH|x l1 l2 _ IH]; intros a Hab.
  - exact Hab.
  - apply subseq_skip. auto.
  - inversion Hab as [|y a1 a2 Ha|y a1 a2 Ha]; subst.
    + apply subseq_skip. auto.
    + apply subseq_keep. auto.
Qed.

Lemma rewritten_subseq r repl s out :
  (forall u, matches r u -> subseq u (repl u)) ->
  rewritten r repl s out -> subseq s out.
Proof.
  intros Hrepl. induction 1 as [|u v out Hne Hu _ IH|c v out _ _ IH].
  - constructor.
  - apply subseq_app; [apply Hrepl; exact Hu|exact IH].
  - apply subseq_keep. exact IH.
Qed.

Lemma subseq_blockquote_open : subseq blockquote_open blockquote_open_markdown.
Proof.
  unfold blockquote_open, blockquote_open_markdown. cbn.
  repeat first [apply subseq_nil|apply subseq_keep|apply subseq_skip].
Qed.

(** The URL pass and the block-quote pass only insert text: what
    reaches Markdown is the description with angle brackets and
    [markdown="1"] attributes put in, and no character of the description
    is dropped, changed or moved. *)
Theorem passes_before_markdown_only_insert (alnum : char -> bool) content :
  subseq content (urlize alnum content)
  /\ subseq content (blockquote_markdown content)
  /\ subseq content (blockquote_markdown (urlize alnum content)).
Proof.
  assert (Hu : forall s, subseq s (urlize alnum s)).
  { intros s. apply (rewritten_subseq (urlfinder alnum) (fun m => 60 :: m ++ [62])).
    - intros u _. apply subseq_skip.
      rewrite <- (app_nil_r u) at 1. apply subseq_app; [apply subseq_refl|].
      apply subseq_nil_l.
    - unfold urlize. apply re_sub_rewritten. reflexivity. }
  assert (Hb : forall s, subseq s (blockquote_markdown s)).
  { intros s.
    apply (rewritten_subseq (Lit blockquote_open) (fun _ => blockquote_open_markdown)).
    - intros u Hm. apply matches_Lit in Hm. subst u. apply subseq_blockquote_open.
    - unfold blockquote_markdown. apply re_sub_rewritten. apply nullable_Lit. discriminate. }
  split; [apply Hu|]. split; [apply Hb|].
  apply (subseq_trans _ (urlize alnum content)); [apply Hu|apply Hb].
Qed.


(** ** Decoding keeps the text encodable *)

Lemma Forall_prefix {A} (P : A -> Prop) n (l : list A) :
  Forall P l -> Forall P (firstn n l).
Proof.
  intros H. revert n. induction H as [|x l Hx _ IH]; intros [|n]; cbn; constructor; auto.
Qed.

Lemma Forall_suffix {A} (P : A -> Prop) n (l : list A) :
  Forall P l -> Forall P (skipn n l).
Proof.
  intros H. revert n. induction H as [|x l Hx Hl IH]; intros [|n]; cbn; auto.
Qed.

Lemma sub_scan_try_Forall (P : char -> Prop) m repl :
  (forall u v, Forall P u -> repl u = Some v -> Forall P v) ->
  forall s k out, Forall P s -> sub_scan_try m repl k s = Some out -> Forall P out.
Proof.
  intros Hrepl. induction s as [|c s IH]; intros k out Hs.
  - cbn [sub_scan_try]. intros H. apply Some_eq in H. subst out. constructor.
  - inversion Hs as [|? ? Hc Hs']; subst.
    cbn [sub_scan_try]. destruct k as [|k]; [|apply IH; exact Hs'].
    destruct (m (c :: s)) as [[|n]|].
    + destruct (sub_scan_try m repl 0 s) as [o|] eqn:Ho; [|discriminate].
      cbn [option_map]. intros H. apply Some_eq in H. subst out.
      constructor; [exact Hc|]. exact (IH _ _ Hs' Ho).
    + destruct (repl (firstn (S n) (c :: s))) as [v|] eqn:Hv; [|discriminate].
      destruct (sub_scan_try m repl n s) as [o|] eqn:Ho; [|discriminate].
      cbn [option_map]. intros H. apply Some_eq in H. subst out.
      apply Forall_app. split; [|exact (IH _ _ Hs' Ho)].
      apply (Hrepl _ _ (Forall_prefix P (S n) (c :: s) Hs) Hv).
    + destruct (sub_scan_try m repl 0 s) as [o|] eqn:Ho; [|discriminate].
      cbn [option_map]. intros H. apply Some_eq in H. subst out.
      constructor; [exact Hc|]. exact (IH _ _ Hs' Ho).
Qed.

Lemma invalid_charrefs_scalar n v :
  _invalid_charrefs n = Some v -> Forall (fun c => scalar c = true) v.
Proof.
  unfold _invalid_charrefs.
  destruct (n =? 0); [intros H; apply Some_eq in H; subst v; repeat constructor|].
  destruct (n =? 13); [intros H; apply Some_eq in H; subst v; repeat constructor|].
  destruct (in_range 128 159 n); [|discriminate].
  intros H. apply nth_error_In in H. revert v H. apply Forall_forall.
  repeat constructor.
Qed.

Section Encodable.
Variable html5 : str -> option str.
Hypothesis html5_scalar :
  forall name v, html5 name = Some v -> Forall (fun c => scalar c = true) v.

Lemma numeric_charref_scalar s v :
  numeric_charref s = Some v -> Forall (fun c => scalar c = true) v.
Proof.
  unfold numeric_charref.
  match goal with |- match ?n with _ => _ end = _ -> _ => destruct n as [num|] end;
    [|discriminate].
  intros H. apply Some_eq in H. subst v.
  destruct (_invalid_charrefs num) as [v|] eqn:Hv.
  - eapply invalid_charrefs_scalar. eassumption.
  - destruct (in_range 55296 57343 num || (1114111 <? num)) eqn:Hr.
    + repeat constructor.
    + destruct (_invalid_codepoints num); [constructor|].
      apply orb_false_iff in Hr. destruct Hr as [Hs Hmax].
      constructor; [|constructor]. unfold scalar. rewrite Hs. cbn [negb andb].
      apply N.leb_le. apply N.ltb_ge in Hmax. exact Hmax.
Qed.

Lemma longest_named_scalar x s v :
  Forall (fun c => scalar c = true) s ->
  longest_named html5 x s = Some v -> Forall (fun c => scalar c = true) v.
Proof.
  intros Hs. induction x as [|y IH]; cbn [longest_named]; [discriminate|].
  destruct y as [|z]; [discriminate|].
  destruct (html5 (firstn (S (S z)) s)) as [w|] eqn:Hw.
  - intros H. apply Some_eq in H. subst v. apply Forall_app. split.
    + eapply html5_scalar. eassumption.
    + apply Forall_suffix. exact Hs.
  - exact IH.
Qed.

Lemma named_charref_scalar s :
  Forall (fun c => scalar c = true) s ->
  Forall (fun c => scalar c = true) (named_charref html5 s).
Proof.
  intros Hs. unfold named_charref.
  destruct (html5 s) as [v|] eqn:Hv; [eapply html5_scalar; eassumption|].
  destruct (longest_named html5 (length s - 1) s) as [v|] eqn:Hl.
  - eapply longest_named_scalar; eassumption.
  - constructor; [reflexivity|exact Hs].
Qed.

Lemma replace_charref_scalar m v :
  Forall (fun c => scalar c = true) m ->
  _replace_charref html5 m = Some v ->
  Forall (fun c => scalar c = true) v.
Proof.
  intros Hm. unfold _replace_charref.
  destruct m as [|a [|h r]]; cbn [tl];
    try (intros H; apply Some_eq in H; subst v; exact Hm).
  inversion Hm as [|? ? _ Hm']; subst.
  destruct (h =? 35); [apply numeric_charref_scalar|].
  intros H. apply Some_eq in H. subst v. apply named_charref_scalar. exact Hm'.
Qed.

Lemma unescape_scalar s t :
  Forall (fun c => scalar c = true) s ->
  unescape html5 s = Some t ->
  Forall (fun c => scalar c = true) t.
Proof.
  intros Hs. unfold unescape. destruct (negb (existsb (N.eqb 38) s)).
  - intros H. apply Some_eq in H. subst t. exact Hs.
  - unfold re_sub_try. intros H.
    exact (sub_scan_try_Forall _ _ _ replace_charref_scalar s 0%nat t Hs H).
Qed.
End Encodable.

Lemma html5_basic_scalar name v :
  html5_basic name = Some v -> Forall (fun c => scalar c = true) v.
Proof.
  unfold html5_basic.
  repeat match goal with
         | |- context [if ?b then _ else _] => destruct b
         end;
    try discriminate; intros H; apply Some_eq in H; subst v; repeat constructor.
Qed.

(** Decoding keeps the text encodable.  When the description holds no
    surrogate and no code point above U+10FFFF, and neither do the
    replacements of the named references, the text that [_clean_content]
    returns is such a text and has a UTF-8 encoding: a numeric reference to
    a surrogate or to a number out of range becomes U+FFFD, never the
    character itself.  When [_clean_content] does not return, it raises
    [ValueError]. *)
Theorem decoded_text_is_encodable L content :
  (forall name v, html5 L name = Some v -> Forall (fun c => scalar c = true) v) ->
  Forall (fun c => scalar c = true) content ->
  (forall text,
     _clean_content L content = Ok text ->
     Forall (fun c => scalar c = true) text
     /\ exists bytes, utf8_encode text = Some bytes)
  /\ (forall x, _clean_content L content = Raise x -> x = ValueError).
Proof.
  intros Hh Hs. split.
  - intros text Hdec.
    assert (Hc : Forall (fun c => scalar c = true) text).
    { unfold _clean_content in Hdec.
      destruct (unescape (html5 L) content) as [t|] eqn:Hu; [|discriminate].
      injection Hdec as <-. exact (unescape_scalar _ Hh _ _ Hs Hu). }
    split; [exact Hc|]. clear Hdec.
    induction Hc as [|c s Hc _ (bs & IH)]; [exists []; reflexivity|].
    cbn [utf8_encode]. rewrite IH.
    unfold scalar in Hc. apply andb_true_iff in Hc. destruct Hc as [Hsur Hmax].
    apply negb_true_iff in Hsur. apply N.leb_le in Hmax.
    unfold utf8_char. rewrite Hsur.
    destruct (c <? 128); [eexists; reflexivity|].
    destruct (c <? 2048); [eexists; reflexivity|].
    destruct (c <? 65536); [eexists; reflexivity|].
    assert (Hlt : (c <? 1114112) = true) by (apply N.ltb_lt; lia).
    rewrite Hlt. eexists. reflexivity.
  - intros x. unfold _clean_content.
    destruct (unescape (html5 L) content); congruence.
Qed.

Lemma decoded_text_is_encodable_witness :
  _clean_content lib0 (lit "a &#xD800; b &amp; c") = Ok [97; 32; 65533; 32; 98; 32; 38; 32; 99]
  /\ Forall (fun c => scalar c = true) [97; 32; 65533; 32; 98; 32; 38; 32; 99]
  /\ exists bytes, utf8_encode [97; 32; 65533; 32; 98; 32; 38; 32; 99] = Some bytes.
Proof.
  split; [reflexivity|].
  apply (decoded_text_is_encodable lib0 (lit "a &#xD800; b &amp; c")).
  - exact html5_basic_scalar.
  - repeat constructor.
  - reflexivity.
Defined.


(** ** The theorems at work *)



Lemma refused_startup_request_ends_the_run_witness :
  exists logs e,
    main lib0 (world_of no_fault forbidden [E1]) cfg0 (state_of []) =
    ({| published_items := [];
        history :=
          [SqlCreateTable; Log INFO DatabaseInitialized; whoami_request lib0 cfg0]
          ++ logs ++ [PrintTraceback e; Log ERROR (FailedToInitialize e)] |}, Ok tt)
    /\ forallb (fun ev => negb (is_fetch_or_publish ev)) logs = true
    /\ logs <> [].
Proof.
  apply (refused_startup_request_ends_the_run lib0 (world_of no_fault forbidden [E1]) cfg0
           (state_of [])).
  - vm_compute. discriminate.
  - reflexivity.
  - reflexivity.
Defined.

Lemma accepted_startup_request_fetches_the_feed_witness :
  __init__ lib0 (world_of no_fault always_created [E1]) (WORDPRESS_URL cfg0) (USERNAME cfg0)
    (APP_PASSWORD cfg0) (DB_PATH cfg0) (state_of []) =
  ({| published_items := [];
      history :=
        [SqlCreateTable; Log INFO DatabaseInitialized; whoami_request lib0 cfg0;
         Log INFO AuthSuccessful] |}, Ok (publisher_of lib0 cfg0))
  /\ exists evs,
       history (fst (main lib0 (world_of no_fault always_created [E1]) cfg0 (state_of []))) =
       [SqlCreateTable; Log INFO DatabaseInitialized; whoami_request lib0 cfg0;
        Log INFO AuthSuccessful; FeedParse (RSS_FEED_URL cfg0)] ++ evs.
Proof.
  apply (accepted_startup_request_fetches_the_feed lib0
           (world_of no_fault always_created [E1]) cfg0 (state_of [])).
  - vm_compute. discriminate.
  - reflexivity.
  - reflexivity.
Defined.


Lemma second_pass_submits_nothing_witness :
  snd (run (world_of no_fault always_created [E3; E2; E1]) []) = Ok tt
  /\ (forall e, In e [E3; E2; E1] ->
        In (entry_link e)
           (links (fst (run (world_of no_fault always_created [E3; E2; E1]) []))))
  /\ post_feed_items lib0 (world_of no_fault always_created [E3; E2; E1]) cfg0 self0
       (RSS_FEED_URL cfg0) (lit "publish")
       (fst (run (world_of no_fault always_created [E3; E2; E1]) [])) =
     ({| published_items :=
           published_items (fst (run (world_of no_fault always_created [E3; E2; E1]) []));
         history :=
           history (fst (run (world_of no_fault always_created [E3; E2; E1]) []))
             ++ FeedParse (RSS_FEED_URL cfg0)
                  :: map (fun e => SqlSelect (entry_link e)) (rev [E3; E2; E1]) |},
      Ok tt).
Proof.
  apply (second_pass_submits_nothing lib0 (world_of no_fault always_created [E3; E2; E1])
           cfg0 self0 (RSS_FEED_URL cfg0) (lit "publish") (state_of [])
           (fst (run (world_of no_fault always_created [E3; E2; E1]) []))
           (snd (run (world_of no_fault always_created [E3; E2; E1]) []))
           {| bozo := false; bozo_exception := []; entries := [E3; E2; E1] |}
           (history (fst (run (world_of no_fault always_created [E3; E2; E1]) [])))).
  - apply no_fault_never_faults_on_select.
  - apply no_fault_never_faults_on_insert.
  - reflexivity.
  - reflexivity.
  - intros e [<-|[<-|[<-|[]]]]; eexists; reflexivity.
  - apply surjective_pairing.
  - reflexivity.
  - vm_compute. reflexivity.
  - reflexivity.
Defined.

Lemma missing_tag_prefix_is_written_as_None_witness :
  exists data before,
    create_post_dict lib0 cfg_no_prefix self0 (lit "one") (lit "first")
      (lit "https://a.example/1") [lit "rust"] (lit "publish") (state_of [])
    = (state_of [], Ok data)
    /\ pd_content data =
       before ++ lit "<p class=" ++ [dq] ++ lit "taglist" ++ [dq] ++ lit ">Tags: "
         ++ join (lit " ")
              (map (fun tag => anchor (lit "delicioustag") (lit "None/t:" ++ tag) tag)
                 [lit "rust"])
         ++ lit "</p></li></ul>".
Proof.
  apply (missing_tag_prefix_is_written_as_None lib0 cfg_no_prefix self0 (lit "one")
           (lit "first") (lit "https://a.example/1") [lit "rust"] (lit "publish")
           (state_of [])).
  reflexivity.
Defined.
